(** * Wordle game logic (game.js): guess scoring, session state machine,
      input gate, snapshot persistence and statistics.

    The JavaScript program is embedded shallowly: module-level variables, the
    parts of the DOM the game reads back, the two Web Storage areas and the
    callbacks that are scheduled but have not run yet form one record; every
    function of game.js becomes a computation over that record that may end
    in a JavaScript exception. *)

From Stdlib Require Import ZArith QArith Qround String Ascii.
From stdpp Require Import gmap strings list pretty.
From Stdlib Require Import Lqa.

Local Open Scope string_scope.
Local Open Scope list_scope.
Local Open Scope Z_scope.

(** ** Configuration (config.js) *)

Definition WORDS : list string :=
  [ "CRANE"; "SLATE"; "AUDIO"; "SPORT"; "BREAK"; "PLANT"; "STORM"; "DANCE";
    "TEACH"; "ROUND"; "PARTY"; "SHARK"; "BEACH"; "TRAIN"; "FRUIT"; "BLANK";
    "DREAM"; "SMART"; "CLIMB"; "QUIET"; "BRAIN"; "HEART"; "MONEY"; "POWER";
    "WORLD"; "PIZZA"; "SOLAR"; "ROBOT"; "CLOUD"; "PIXEL"; "MAGIC"; "QUEEN";
    "THINK"; "TIGER"; "OCEAN"; "MOUNT"; "RIVER"; "LIGHT"; "MOUSE"; "PHONE" ].

(** GAME_CONFIG *)
Definition MAX_ATTEMPTS : Z := 6.
Definition WORD_LENGTH : Z := 5.
Definition ANIMATION_DELAY : Z := 300.
Definition FLIP_ANIMATION_DURATION : Z := 1500.
Definition MESSAGE_DISPLAY_TIME : Z := 2000.

(** ** Scoring: the two passes of [processGuess] *)

Inductive LetterStatus := correct | present | absent.

#[global] Instance LetterStatus_eq_dec : EqDecision LetterStatus.
Proof. solve_decision. Defined.

(** What reading [a[i]] of an array of letters can give: a one-character
    string, [null] (a consumed target letter), or [undefined] (past the end,
    or a hole). *)
Inductive entry := Undefined | Null | Letter (c : ascii).

#[global] Instance entry_eq_dec : EqDecision entry.
Proof. solve_decision. Defined.

(** [s.split("")] *)
Definition split (s : string) : list entry := Letter <$> list_ascii_of_string s.

(** [a[i]] *)
Definition array_get (a : list entry) (i : nat) : entry := default Undefined (a !! i).

(** [a[i] = v]; writing past the end grows the array, leaving holes. *)
Definition array_set (a : list entry) (i : nat) (v : entry) : list entry :=
  if decide (i < length a)%nat then <[i:=v]> a
  else a ++ replicate (i - length a) Undefined ++ [v].

(** [a.indexOf(x)], [None] for -1.  The comparison is [===]; holes are
    skipped, and the arrays here never hold an explicit [undefined]. *)
Fixpoint indexOf (a : list entry) (x : entry) : option nat :=
  match a with
  | [] => None
  | e :: a' =>
      if bool_decide (e = x ∧ x ≠ Undefined) then Some 0%nat
      else S <$> indexOf a' x
  end.

(** The loop counter of [for (let i = 0; i < GAME_CONFIG.WORD_LENGTH; i++)]. *)
Definition positions : list nat := seq 0 (Z.to_nat WORD_LENGTH).

(** Body of the first loop: mark correct positions. *)
Definition first_pass (guessArray : list entry)
    (acc : list LetterStatus * list entry) (i : nat) : list LetterStatus * list entry :=
  let '(letterStatus, targetArray) := acc in
  if bool_decide (array_get guessArray i = array_get targetArray i)
  then (<[i:=correct]> letterStatus, array_set targetArray i Null)
  else (letterStatus, targetArray).

(** Body of the second loop: mark present letters. *)
Definition second_pass (guessArray : list entry)
    (acc : list LetterStatus * list entry) (i : nat) : list LetterStatus * list entry :=
  let '(letterStatus, targetArray) := acc in
  if bool_decide (letterStatus !! i = Some correct) then acc
  else match indexOf targetArray (array_get guessArray i) with
       | Some index => (<[i:=present]> letterStatus, array_set targetArray index Null)
       | None => acc
       end.

(** [letterStatus] as [processGuess(guess)] has it after both loops, for the
    target word [targetWord]. *)
Definition score (guess targetWord : string) : list LetterStatus :=
  let targetArray := split targetWord in
  let guessArray := split guess in
  let letterStatus := replicate (Z.to_nat WORD_LENGTH) absent in
  let acc1 := foldl (first_pass guessArray) (letterStatus, targetArray) positions in
  let acc2 := foldl (second_pass guessArray) acc1 positions in
  acc2.1.

(** Number of positions of the guess that hold letter [L] and are marked
    [correct] or [present]. *)
Fixpoint credited (L : ascii) (guess : list ascii) (letterStatus : list LetterStatus) : nat :=
  match guess, letterStatus with
  | g :: guess', s :: letterStatus' =>
      ((if bool_decide (g = L ∧ s ≠ absent) then 1 else 0)
       + credited L guess' letterStatus')%nat
  | _, _ => 0%nat
  end.

(** Number of entries of the target array that still hold letter [L]. *)
Definition remaining (L : ascii) (targetArray : list entry) : nat :=
  length (filter (λ e, e = Letter L) targetArray).

(** Number of occurrences of [L] in a word. *)
Definition occurrences (L : ascii) (w : string) : nat :=
  count_occ ascii_dec (list_ascii_of_string w) L.

(** STORAGE_KEYS.STATS and the keys of the session protection. *)
Definition STATS_KEY : string := "wordleStats".
Definition SESSION_KEY : string := "currentGameSession".
Definition GAME_STATE_KEY : string := "gameState".
Definition ACTIVE_GAME_KEY : string := "activeGame".

(** KEYBOARD_LAYOUT.flat(); the last key is the erase-to-the-left sign. *)
Definition BACKSPACE : string := "⌫".
Definition KEYBOARD_LAYOUT : list string :=
  [ "Q"; "W"; "E"; "R"; "T"; "Y"; "U"; "I"; "O"; "P";
    "A"; "S"; "D"; "F"; "G"; "H"; "J"; "K"; "L";
    "ENTER"; "Z"; "X"; "C"; "V"; "B"; "N"; "M"; BACKSPACE ].

(** ** Session state *)

(** Numbers are JavaScript doubles in the source.  The counters are
    modelled by [Z], and [++] by adding 1, which is what the code does on
    the integers up to 2^53 - 1 ([Number.MAX_SAFE_INTEGER]); past them the
    code rounds.  The theorems that rest on an exact count assume counters
    in that range ([safe_integer] below). *)
Record Stats := { gamesPlayed : Z; gamesWon : Z; currentStreak : Z; maxStreak : Z }.

Definition DEFAULT_STATS : Stats :=
  {| gamesPlayed := 0; gamesWon := 0; currentStreak := 0; maxStreak := 0 |}.

Definition MAX_SAFE_INTEGER : Z := 2 ^ 53 - 1.
Definition safe_integer (x : Z) : Prop := - MAX_SAFE_INTEGER ≤ x ≤ MAX_SAFE_INTEGER.

(** A DOM element as far as the game reads it back: its text and its class
    attribute, kept as the list of class names. *)
Record Tile := { textContent : string; className : list string }.

(** [el.classList.add(c)] and [el.classList.remove(c)] *)
Definition classList_add (c : string) (cl : list string) : list string :=
  if decide (c ∈ cl) then cl else cl ++ [c].
Definition classList_remove (c : string) (cl : list string) : list string :=
  filter (λ x, x ≠ c) cl.

(** The objects pushed on [boardState] and the [gameState] object written by
    [saveCompleteGameState]; [boardState] is [None] when the parsed object
    has no such array. *)
Module boardTile.
Record t := { row : Z; col : Z; content : string; className : list string }.
End boardTile.

Module gameState.
Record t := {
  timestamp : Z;
  active : bool;
  targetWord : string;
  currentRow : Z;
  currentTile : Z;
  gameOver : bool;
  boardState : option (list boardTile.t);
  guesses : list string }.
End gameState.

(** Callbacks handed to [setTimeout] that have not run yet. *)
Inductive Timer :=
| RevealTile (i : nat) (guessArray : list entry) (letterStatus : list LetterStatus)
| CheckResult (guess : string)
| HideMessage.

(** The module-level variables of game.js, the document, the storage areas
    and the work that is suspended: [validating] holds the guesses whose
    [isValidWord] promise is pending, [timers] the scheduled callbacks,
    [saving] the [endGameWon] ([true]) and [endGameLost] ([false]) calls
    waiting on [saveStatsToSupabase]. *)
Record Session := {
  targetWord : string;
  currentRow : Z;
  currentTile : Z;
  gameOver : bool;
  stats : Stats;
  isValidating : bool;
  inputEnabled : bool;
  gameStarted : bool;
  tiles : gmap (Z * Z) Tile;
  keys : gmap string (list string);
  message : string * bool;
  modal : string * string * bool;
  localStorage : gmap string string;
  sessionStorage : gmap string string;
  validating : list string;
  timers : list Timer;
  saving : list bool }.

Definition stats_with_gamesPlayed (v : Z) (st : Stats) : Stats :=
  {| gamesPlayed := v; gamesWon := gamesWon st; currentStreak := currentStreak st; maxStreak := maxStreak st |}.

Definition stats_with_gamesWon (v : Z) (st : Stats) : Stats :=
  {| gamesPlayed := gamesPlayed st; gamesWon := v; currentStreak := currentStreak st; maxStreak := maxStreak st |}.

Definition stats_with_currentStreak (v : Z) (st : Stats) : Stats :=
  {| gamesPlayed := gamesPlayed st; gamesWon := gamesWon st; currentStreak := v; maxStreak := maxStreak st |}.

Definition stats_with_maxStreak (v : Z) (st : Stats) : Stats :=
  {| gamesPlayed := gamesPlayed st; gamesWon := gamesWon st; currentStreak := currentStreak st; maxStreak := v |}.
Definition with_targetWord (v : string) (s : Session) : Session :=
  {| targetWord := v; currentRow := currentRow s; currentTile := currentTile s;
     gameOver := gameOver s; stats := stats s; isValidating := isValidating s;
     inputEnabled := inputEnabled s; gameStarted := gameStarted s; tiles := tiles s;
     keys := keys s; message := message s; modal := modal s;
     localStorage := localStorage s; sessionStorage := sessionStorage s;
     validating := validating s; timers := timers s; saving := saving s |}.

Definition with_currentRow (v : Z) (s : Session) : Session :=
  {| targetWord := targetWord s; currentRow := v; currentTile := currentTile s;
     gameOver := gameOver s; stats := stats s; isValidating := isValidating s;
     inputEnabled := inputEnabled s; gameStarted := gameStarted s; tiles := tiles s;
     keys := keys s; message := message s; modal := modal s;
     localStorage := localStorage s; sessionStorage := sessionStorage s;
     validating := validating s; timers := timers s; saving := saving s |}.

Definition with_currentTile (v : Z) (s : Session) : Session :=
  {| targetWord := targetWord s; currentRow := currentRow s; currentTile := v;
     gameOver := gameOver s; stats := stats s; isValidating := isValidating s;
     inputEnabled := inputEnabled s; gameStarted := gameStarted s; tiles := tiles s;
     keys := keys s; message := message s; modal := modal s;
     localStorage := localStorage s; sessionStorage := sessionStorage s;
     validating := validating s; timers := timers s; saving := saving s |}.

Definition with_gameOver (v : bool) (s : Session) : Session :=
  {| targetWord := targetWord s; currentRow := currentRow s; currentTile := currentTile s;
     gameOver := v; stats := stats s; isValidating := isValidating s;
     inputEnabled := inputEnabled s; gameStarted := gameStarted s; tiles := tiles s;
     keys := keys s; message := message s; modal := modal s;
     localStorage := localStorage s; sessionStorage := sessionStorage s;
     validating := validating s; timers := timers s; saving := saving s |}.

Definition with_stats (v : Stats) (s : Session) : Session :=
  {| targetWord := targetWord s; currentRow := currentRow s; currentTile := currentTile s;
     gameOver := gameOver s; stats := v; isValidating := isValidating s;
     inputEnabled := inputEnabled s; gameStarted := gameStarted s; tiles := tiles s;
     keys := keys s; message := message s; modal := modal s;
     localStorage := localStorage s; sessionStorage := sessionStorage s;
     validating := validating s; timers := timers s; saving := saving s |}.

Definition with_isValidating (v : bool) (s : Session) : Session :=
  {| targetWord := targetWord s; currentRow := currentRow s; currentTile := currentTile s;
     gameOver := gameOver s; stats := stats s; isValidating := v;
     inputEnabled := inputEnabled s; gameStarted := gameStarted s; tiles := tiles s;
     keys := keys s; message := message s; modal := modal s;
     localStorage := localStorage s; sessionStorage := sessionStorage s;
     validating := validating s; timers := timers s; saving := saving s |}.

Definition with_inputEnabled (v : bool) (s : Session) : Session :=
  {| targetWord := targetWord s; currentRow := currentRow s; currentTile := currentTile s;
     gameOver := gameOver s; stats := stats s; isValidating := isValidating s;
     inputEnabled := v; gameStarted := gameStarted s; tiles := tiles s; keys := keys s;
     message := message s; modal := modal s; localStorage := localStorage s;
     sessionStorage := sessionStorage s; validating := validating s; timers := timers s;
     saving := saving s |}.

Definition with_gameStarted (v : bool) (s : Session) : Session :=
  {| targetWord := targetWord s; currentRow := currentRow s; currentTile := currentTile s;
     gameOver := gameOver s; stats := stats s; isValidating := isValidating s;
     inputEnabled := inputEnabled s; gameStarted := v; tiles := tiles s; keys := keys s;
     message := message s; modal := modal s; localStorage := localStorage s;
     sessionStorage := sessionStorage s; validating := validating s; timers := timers s;
     saving := saving s |}.

Definition with_tiles (v : gmap (Z * Z) Tile) (s : Session) : Session :=
  {| targetWord := targetWord s; currentRow := currentRow s; currentTile := currentTile s;
     gameOver := gameOver s; stats := stats s; isValidating := isValidating s;
     inputEnabled := inputEnabled s; gameStarted := gameStarted s; tiles := v;
     keys := keys s; message := message s; modal := modal s;
     localStorage := localStorage s; sessionStorage := sessionStorage s;
     validating := validating s; timers := timers s; saving := saving s |}.

Definition with_keys (v : gmap string (list string)) (s : Session) : Session :=
  {| targetWord := targetWord s; currentRow := currentRow s; currentTile := currentTile s;
     gameOver := gameOver s; stats := stats s; isValidating := isValidating s;
     inputEnabled := inputEnabled s; gameStarted := gameStarted s; tiles := tiles s;
     keys := v; message := message s; modal := modal s; localStorage := localStorage s;
     sessionStorage := sessionStorage s; validating := validating s; timers := timers s;
     saving := saving s |}.

Definition with_message (v : string * bool) (s : Session) : Session :=
  {| targetWord := targetWord s; currentRow := currentRow s; currentTile := currentTile s;
     gameOver := gameOver s; stats := stats s; isValidating := isValidating s;
     inputEnabled := inputEnabled s; gameStarted := gameStarted s; tiles := tiles s;
     keys := keys s; message := v; modal := modal s; localStorage := localStorage s;
     sessionStorage := sessionStorage s; validating := validating s; timers := timers s;
     saving := saving s |}.

Definition with_modal (v : string * string * bool) (s : Session) : Session :=
  {| targetWord := targetWord s; currentRow := currentRow s; currentTile := currentTile s;
     gameOver := gameOver s; stats := stats s; isValidating := isValidating s;
     inputEnabled := inputEnabled s; gameStarted := gameStarted s; tiles := tiles s;
     keys := keys s; message := message s; modal := v; localStorage := localStorage s;
     sessionStorage := sessionStorage s; validating := validating s; timers := timers s;
     saving := saving s |}.

Definition with_localStorage (v : gmap string string) (s : Session) : Session :=
  {| targetWord := targetWord s; currentRow := currentRow s; currentTile := currentTile s;
     gameOver := gameOver s; stats := stats s; isValidating := isValidating s;
     inputEnabled := inputEnabled s; gameStarted := gameStarted s; tiles := tiles s;
     keys := keys s; message := message s; modal := modal s; localStorage := v;
     sessionStorage := sessionStorage s; validating := validating s; timers := timers s;
     saving := saving s |}.

Definition with_sessionStorage (v : gmap string string) (s : Session) : Session :=
  {| targetWord := targetWord s; currentRow := currentRow s; currentTile := currentTile s;
     gameOver := gameOver s; stats := stats s; isValidating := isValidating s;
     inputEnabled := inputEnabled s; gameStarted := gameStarted s; tiles := tiles s;
     keys := keys s; message := message s; modal := modal s;
     localStorage := localStorage s; sessionStorage := v; validating := validating s;
     timers := timers s; saving := saving s |}.

Definition with_validating (v : list string) (s : Session) : Session :=
  {| targetWord := targetWord s; currentRow := currentRow s; currentTile := currentTile s;
     gameOver := gameOver s; stats := stats s; isValidating := isValidating s;
     inputEnabled := inputEnabled s; gameStarted := gameStarted s; tiles := tiles s;
     keys := keys s; message := message s; modal := modal s;
     localStorage := localStorage s; sessionStorage := sessionStorage s; validating := v;
     timers := timers s; saving := saving s |}.

Definition with_timers (v : list Timer) (s : Session) : Session :=
  {| targetWord := targetWord s; currentRow := currentRow s; currentTile := currentTile s;
     gameOver := gameOver s; stats := stats s; isValidating := isValidating s;
     inputEnabled := inputEnabled s; gameStarted := gameStarted s; tiles := tiles s;
     keys := keys s; message := message s; modal := modal s;
     localStorage := localStorage s; sessionStorage := sessionStorage s;
     validating := validating s; timers := v; saving := saving s |}.

Definition with_saving (v : list bool) (s : Session) : Session :=
  {| targetWord := targetWord s; currentRow := currentRow s; currentTile := currentTile s;
     gameOver := gameOver s; stats := stats s; isValidating := isValidating s;
     inputEnabled := inputEnabled s; gameStarted := gameStarted s; tiles := tiles s;
     keys := keys s; message := message s; modal := modal s;
     localStorage := localStorage s; sessionStorage := sessionStorage s;
     validating := validating s; timers := timers s; saving := v |}.
(** ** Computations: state passing with JavaScript exceptions

    A thrown exception keeps the assignments made before it. *)

Inductive completion (A : Type) := Normal (a : A) | Throw.
Arguments Normal {A} a.
Arguments Throw {A}.

Definition JS (A : Type) : Type := Session → completion A * Session.

#[global] Instance JS_ret : MRet JS := λ A a s, (Normal a, s).
#[global] Instance JS_bind : MBind JS := λ A B f m s,
  match m s with
  | (Normal a, s') => f a s'
  | (Throw, s') => (Throw, s')
  end.

Definition throw {A} : JS A := λ s, (Throw, s).
Definition read {A} (f : Session → A) : JS A := λ s, (Normal (f s), s).
Definition assign {A} (set : A → Session → Session) (v : A) : JS unit :=
  λ s, (Normal (), set v s).
Definition try_catch {A} (body handler : JS A) : JS A := λ s,
  match body s with
  | (Throw, s') => handler s'
  | r => r
  end.
Definition skip : JS unit := mret ().

Fixpoint forEach {A} (l : list A) (f : A → JS unit) : JS unit :=
  match l with
  | [] => skip
  | x :: l' => f x ;; forEach l' f
  end.

Fixpoint collect {A B} (l : list A) (f : A → JS B) : JS (list B) :=
  match l with
  | [] => mret []
  | x :: l' => y ← f x; ys ← collect l' f; mret (y :: ys)
  end.

(** The state a call leaves behind, whether it returned or threw. *)
Definition exec {A} (m : JS A) (s : Session) : Session := (m s).2.

(** ** Document and storage access *)

(** [document.getElementById(`tile-${i}-${j}`)] followed by a property
    access, which throws a TypeError when the element does not exist. *)
Definition tile_get {A} (id : Z * Z) (f : Tile → A) : JS A := λ s,
  match tiles s !! id with
  | Some t => (Normal (f t), s)
  | None => (Throw, s)
  end.
Definition tile_update (id : Z * Z) (f : Tile → Tile) : JS unit := λ s,
  match tiles s !! id with
  | Some t => (Normal (), with_tiles (<[id := f t]> (tiles s)) s)
  | None => (Throw, s)
  end.

Definition set_textContent (v : string) (t : Tile) : Tile :=
  {| textContent := v; className := className t |}.
Definition set_className (v : list string) (t : Tile) : Tile :=
  {| textContent := textContent t; className := v |}.

Definition localStorage_setItem (k v : string) : JS unit := λ s,
  (Normal (), with_localStorage (<[k := v]> (localStorage s)) s).
Definition localStorage_removeItem (k : string) : JS unit := λ s,
  (Normal (), with_localStorage (delete k (localStorage s)) s).
Definition localStorage_getItem (k : string) : JS (option string) :=
  read (λ s, localStorage s !! k).
Definition sessionStorage_setItem (k v : string) : JS unit := λ s,
  (Normal (), with_sessionStorage (<[k := v]> (sessionStorage s)) s).
Definition sessionStorage_getItem (k : string) : JS (option string) :=
  read (λ s, sessionStorage s !! k).

(** Truthiness of what [getItem] returns: [null] and the empty string are falsy. *)
Definition truthy (v : option string) : bool :=
  match v with
  | Some s => negb (String.eqb s "")
  | None => false
  end.

(** The tiles in the order of the nested [i], [j] loops. *)
Definition board_ids : list (Z * Z) :=
  i ← seqZ 0 MAX_ATTEMPTS; j ← seqZ 0 WORD_LENGTH; [(i, j)].
Arguments board_ids : simpl never.

(** ** User interface feedback *)

Definition showMessage (text : string) : JS unit :=
  assign with_message (text, true) ;;
  pending ← read timers;
  assign with_timers (pending ++ [HideMessage]).

Definition showModal (title text : string) : JS unit :=
  assign with_modal (title, text, true).

(** ** Board and tile management *)

Definition createBoard : JS unit :=
  forEach board_ids (λ id,
    board ← read tiles;
    assign with_tiles (<[id := {| textContent := ""; className := ["tile"] |}]> board)).

(** [s.length] counts UTF-16 code units; a string here holds the UTF-8
    bytes of its text.  A byte that continues a character counts for
    nothing, the first byte of a four-byte character for two units, any
    other byte for one. *)
Definition utf16_units (c : ascii) : nat :=
  let n := nat_of_ascii c in
  if bool_decide (128 ≤ n ∧ n < 192)%nat then 0%nat
  else if bool_decide (240 ≤ n)%nat then 2%nat
  else 1%nat.
Fixpoint js_length (s : string) : nat :=
  match s with
  | EmptyString => 0%nat
  | String c s' => (utf16_units c + js_length s')%nat
  end.

Definition key_className (key : string) : list string :=
  if (1 <? js_length key)%nat then ["key"; "large"] else ["key"].

Definition createKeyboard : JS unit :=
  forEach KEYBOARD_LAYOUT (λ key,
    keyboard ← read keys;
    assign with_keys (<[key := key_className key]> keyboard)).

Definition addLetter (letter : string) : JS unit :=
  tile ← read currentTile;
  if bool_decide (tile >= WORD_LENGTH) then skip else
  row ← read currentRow;
  (if bool_decide (tile = 0 ∧ row = 0) then assign with_gameStarted true else skip) ;;
  tile_update (row, tile) (set_textContent letter) ;;
  tile_update (row, tile) (λ t, set_className (classList_add "filled" (className t)) t) ;;
  assign with_currentTile (tile + 1).

Definition deleteLetter : JS unit :=
  tile ← read currentTile;
  if bool_decide (tile > 0) then
    assign with_currentTile (tile - 1) ;;
    row ← read currentRow;
    tile_update (row, tile - 1) (set_textContent "") ;;
    tile_update (row, tile - 1) (λ t, set_className (classList_remove "filled" (className t)) t)
  else skip.

(** ** Keyboard colours *)

Definition status_name (s : LetterStatus) : string :=
  match s with
  | correct => "correct"
  | present => "present"
  | absent => "absent"
  end.

(** String conversion of what the reveal callback reads from its arrays. *)
Definition entry_name (e : entry) : string :=
  match e with
  | Letter c => String c ""
  | Null => "null"
  | Undefined => "undefined"
  end.
Definition status_class (s : option LetterStatus) : string :=
  from_option status_name "undefined" s.

Definition updateKeyColor (letter status : string) : JS unit :=
  keyboard ← read keys;
  match keyboard !! letter with
  | None => skip
  | Some cl =>
      let currentStatus := cl !! 1%nat in
      if bool_decide (currentStatus = Some "correct") then skip
      else if bool_decide (currentStatus = Some "present" ∧ status = "absent") then skip
      else
        let cl' := classList_remove "absent"
                     (classList_remove "present" (classList_remove "correct" cl)) in
        assign with_keys (<[letter := classList_add status cl']> keyboard)
  end.
(** ** Guess submission and validation *)

Definition setTimeout (callback : Timer) : JS unit :=
  pending ← read timers;
  assign with_timers (pending ++ [callback]).

(** [s.trim()], over the ASCII white space characters. *)
Definition is_white_space (c : ascii) : bool :=
  bool_decide (nat_of_ascii c ∈ [9; 10; 11; 12; 13; 32]%nat).
Fixpoint trimStart (s : string) : string :=
  match s with
  | String c s' => if is_white_space c then trimStart s' else s
  | EmptyString => EmptyString
  end.
Definition trim (s : string) : string :=
  String.rev (trimStart (String.rev (trimStart s))).

Definition submitGuess : JS unit :=
  busy ← read isValidating;
  if busy : bool then skip else
  tile ← read currentTile;
  if bool_decide (tile < WORD_LENGTH) then showMessage "Not enough letters" else
  row ← read currentRow;
  letters ← collect (seqZ 0 WORD_LENGTH) (λ i, tile_get (row, i) textContent);
  let guess := foldl String.append "" letters in
  if bool_decide (String.length guess ≠ Z.to_nat WORD_LENGTH) || String.eqb (trim guess) ""
  then showMessage "Invalid input" else
  assign with_isValidating true ;;
  pending ← read validating;
  assign with_validating (pending ++ [guess]).

Definition processGuess (guess : string) : JS unit :=
  target ← read targetWord;
  let guessArray := split guess in
  let letterStatus := score guess target in
  forEach positions (λ i, setTimeout (RevealTile i guessArray letterStatus)) ;;
  setTimeout (CheckResult guess).

(** The callback of the reveal animation for position [i]; it reads
    [currentRow] when it runs. *)
Definition revealTile (i : nat) (guessArray : list entry)
    (letterStatus : list LetterStatus) : JS unit :=
  row ← read currentRow;
  let status := status_class (letterStatus !! i) in
  tile_update (row, Z.of_nat i) (λ t, set_className (classList_add status (className t)) t) ;;
  updateKeyColor (entry_name (array_get guessArray i)) status.

(** ** Game end states *)

(** An [async] function reports an exception through its promise, not to
    its caller. *)
Definition async (body : JS unit) : JS unit := try_catch body skip.

(** Doubles.  The double nearest to a rational [q], ties to the even
    mantissa, as the arithmetic of JavaScript rounds every result.  Doubles
    are the multiples [m * 2^shift * 2^-1074] with a mantissa [m] of at most
    53 bits; overflow, which starts at 2^1024, is not modelled. *)
Definition round_half_even (q : Q) : Z :=
  let f := Qfloor q in
  match (q - inject_Z f ?= 1 # 2)%Q with
  | Lt => f
  | Gt => f + 1
  | Eq => if Z.even f then f else f + 1
  end.

Definition to_double_nonneg (q : Q) : Q :=
  let x := (q * inject_Z (2 ^ 1074))%Q in
  let shift := Z.max 0 (Z.log2 (Qfloor x) - 52) in
  (inject_Z (round_half_even (x / inject_Z (2 ^ shift)) * 2 ^ shift)
   / inject_Z (2 ^ 1074))%Q.

Definition to_double (q : Q) : Q :=
  if Qle_bool 0 q then to_double_nonneg q else (- to_double_nonneg (- q))%Q.

Definition is_double (q : Q) : bool := Qeq_bool (to_double q) q.

(** [Math.floor(Math.random() * WORDS.length)]: the product of two doubles
    is rounded to a double before the floor is taken. *)
Definition random_index (random : Q) : Z :=
  Qfloor (to_double (random * inject_Z (Z.of_nat (length WORDS)))).

(** [WORDS[Math.floor(Math.random() * WORDS.length)]]; [Math.random()] is
    a double in [0, 1), which keeps the index inside the list.  Past the
    list the code reads [undefined]; the empty text stands for it. *)
Definition random_word (random : Q) : string :=
  let index := random_index random in
  if bool_decide (0 ≤ index) then default "" (WORDS !! Z.to_nat index) else "".

Definition hideModal : JS unit :=
  m ← read modal;
  assign with_modal (m.1.1, m.1.2, false).

Definition resetToNewGame (skipBoardClear : bool) (random : Q) : JS unit :=
  (if negb skipBoardClear then hideModal else skip) ;;
  localStorage_removeItem GAME_STATE_KEY ;;
  localStorage_removeItem ACTIVE_GAME_KEY ;;
  assign with_targetWord (random_word random) ;;
  assign with_currentRow 0 ;;
  assign with_currentTile 0 ;;
  assign with_gameOver false ;;
  assign with_gameStarted false ;;
  assign with_isValidating false ;;
  assign with_inputEnabled true ;;
  if negb skipBoardClear then
    forEach board_ids (λ id,
      tile_update id (set_textContent "") ;;
      tile_update id (set_className ["tile"])) ;;
    forEach KEYBOARD_LAYOUT (λ key,
      keyboard ← read keys;
      match keyboard !! key with
      | Some _ => assign with_keys (<[key := key_className key]> keyboard)
      | None => skip
      end)
  else skip.

Definition resetGame (random : Q) : JS unit := resetToNewGame false random.

(** ** Input *)

Definition handleKeyPress (key : string) : JS unit :=
  over ← read gameOver;
  if over : bool then skip else
  enabled ← read inputEnabled;
  if negb enabled then skip else
  busy ← read isValidating;
  if busy && String.eqb key "ENTER" then skip else
  if busy && String.eqb key BACKSPACE then skip else
  if String.eqb key "ENTER" then submitGuess
  else if String.eqb key BACKSPACE then deleteLetter
  else
    tile ← read currentTile;
    if bool_decide (tile < WORD_LENGTH) then addLetter key else skip.

(** [/^[a-zA-Z]$/.test(key)] and [key.toUpperCase()] on such a key. *)
Definition is_letter_key (key : string) : bool :=
  match key with
  | String c EmptyString =>
      let n := nat_of_ascii c in
      bool_decide ((65 ≤ n ∧ n ≤ 90) ∨ (97 ≤ n ∧ n ≤ 122))%nat
  | _ => false
  end.
Definition toUpperCase (key : string) : string :=
  match key with
  | String c EmptyString =>
      let n := nat_of_ascii c in
      if bool_decide (97 ≤ n ∧ n ≤ 122)%nat then String (ascii_of_nat (n - 32)) "" else key
  | _ => key
  end.

(** The [keydown] listener for the physical keyboard; [tagName] is that of
    the event target. *)
Definition onKeyDown (tagName key : string) : JS unit :=
  if String.eqb tagName "INPUT" || String.eqb tagName "TEXTAREA" then skip else
  over ← read gameOver;
  if over : bool then skip else
  enabled ← read inputEnabled;
  if negb enabled then skip else
  busy ← read isValidating;
  if busy && String.eqb key "Enter" then skip else
  if String.eqb key "Enter" then handleKeyPress "ENTER"
  else if String.eqb key "Backspace" then handleKeyPress BACKSPACE
  else if is_letter_key key then handleKeyPress (toUpperCase key)
  else skip.

(** The [keydown] listener of [setupRefreshProtection]: during a game the
    keys that reload the page only show a message. *)
Definition onKeyDown_refresh (key : string) (ctrlKey metaKey shiftKey : bool) : JS unit :=
  started ← read gameStarted;
  over ← read gameOver;
  if started && negb over then
    if String.eqb key "F5" || (ctrlKey && String.eqb key "r")
       || (metaKey && String.eqb key "r") || (ctrlKey && shiftKey && String.eqb key "R")
    then showMessage "🚫 Cannot refresh during game"
    else skip
  else skip.
(** The object [saveCompleteGameState] pushes on [boardState] for the tile
    of row [id.1] and column [id.2]. *)
Definition boardTile_of (id : Z * Z) (tile : Tile) : boardTile.t :=
  {| boardTile.row := id.1;
     boardTile.col := id.2;
     boardTile.content := textContent tile;
     boardTile.className := className tile |}.

(** ** The environment of the page

    [JSON.parse] and [JSON.stringify] are the browser's; [JSON_parse] gives
    [None] where [JSON.parse] throws.  [saveStatsToSupabase_defined] tells
    whether the cloud script has defined that function, [SESSION_ID] is the
    identifier built at load time. *)
Section Game.

Variable JSON_parse : string → option gameState.t.
Variable JSON_stringify : gameState.t → string.
Variable JSON_stringify_stats : Stats → string.
Variable saveStatsToSupabase_defined : bool.
Variable SESSION_ID : string.

(** *** Game end states *)

(** What follows [await saveStatsToSupabase(...)] in [endGameWon] and
    [endGameLost]; [updateStats] only renders the counters. *)
Definition endGame_resume (won : bool) : JS unit :=
  current ← read stats;
  localStorage_setItem STATS_KEY (JSON_stringify_stats current) ;;
  assign with_gameStarted false ;;
  localStorage_removeItem GAME_STATE_KEY ;;
  localStorage_removeItem ACTIVE_GAME_KEY ;;
  target ← read targetWord;
  if won then showModal "🎉 You Won!" ("Great job! The word was " +:+ target)
  else showModal "😔 Game Over" ("The word was " +:+ target).

(** [await] on the cloud save suspends the call; without the cloud script
    the function runs on. *)
Definition await_saveStats (won : bool) : JS unit :=
  if saveStatsToSupabase_defined then
    waiting ← read saving;
    assign with_saving (waiting ++ [won])
  else endGame_resume won.

Definition endGameWon : JS unit :=
  assign with_gameOver true ;;
  st ← read stats; assign with_stats (stats_with_gamesPlayed (gamesPlayed st + 1) st) ;;
  st ← read stats; assign with_stats (stats_with_gamesWon (gamesWon st + 1) st) ;;
  st ← read stats; assign with_stats (stats_with_currentStreak (currentStreak st + 1) st) ;;
  st ← read stats;
  assign with_stats (stats_with_maxStreak (Z.max (maxStreak st) (currentStreak st)) st) ;;
  await_saveStats true.

Definition endGameLost : JS unit :=
  assign with_gameOver true ;;
  st ← read stats; assign with_stats (stats_with_gamesPlayed (gamesPlayed st + 1) st) ;;
  st ← read stats; assign with_stats (stats_with_currentStreak 0 st) ;;
  await_saveStats false.

Definition checkGameResult (guess : string) : JS unit :=
  target ← read targetWord;
  if String.eqb guess target then endGameWon
  else
    row ← read currentRow;
    if bool_decide (row = MAX_ATTEMPTS - 1) then endGameLost
    else
      assign with_currentRow (row + 1) ;;
      assign with_currentTile 0.

(** *** Session and refresh protection *)


Definition saveCompleteGameState (now : Z) : JS unit :=
  started ← read gameStarted;
  over ← read gameOver;
  if started && negb over then
    boardState ← collect board_ids (λ id, tile_get id (boardTile_of id));
    target ← read targetWord;
    row ← read currentRow;
    tile ← read currentTile;
    let gameState :=
      {| gameState.timestamp := now;
         gameState.active := true;
         gameState.targetWord := target;
         gameState.currentRow := row;
         gameState.currentTile := tile;
         gameState.gameOver := over;
         gameState.boardState := Some boardState;
         gameState.guesses := [] |} in
    localStorage_setItem GAME_STATE_KEY (JSON_stringify gameState) ;;
    localStorage_setItem ACTIVE_GAME_KEY "true"
  else skip.

Definition restoreGameState : JS bool :=
  savedGameState ← localStorage_getItem GAME_STATE_KEY;
  activeGame ← localStorage_getItem ACTIVE_GAME_KEY;
  if bool_decide (activeGame = Some "true") && truthy savedGameState then
    try_catch
      (match JSON_parse (default "" savedGameState) with
       | None => throw
       | Some state =>
           assign with_targetWord (gameState.targetWord state) ;;
           assign with_currentRow (gameState.currentRow state) ;;
           assign with_currentTile (gameState.currentTile state) ;;
           assign with_gameOver (gameState.gameOver state) ;;
           assign with_gameStarted true ;;
           match gameState.boardState state with
           | None => throw
           | Some boardState =>
               forEach boardState (λ tile,
                 let id := (boardTile.row tile, boardTile.col tile) in
                 board ← read tiles;
                 match board !! id with
                 | Some _ =>
                     tile_update id (set_textContent (boardTile.content tile)) ;;
                     tile_update id (set_className (boardTile.className tile))
                 | None => skip
                 end)
           end ;;
           showMessage "⚠️ Game refreshed but restored" ;;
           mret true
       end)
      (mret false)
  else mret false.

Definition initSessionProtection : JS unit :=
  currentSession ← sessionStorage_getItem SESSION_KEY;
  if negb (truthy currentSession) then
    sessionStorage_setItem SESSION_KEY SESSION_ID ;;
    restored ← restoreGameState;
    if negb restored then
      assign with_gameStarted false ;;
      localStorage_removeItem GAME_STATE_KEY ;;
      localStorage_removeItem ACTIVE_GAME_KEY
    else skip
  else skip.

(** *** Start of the page *)

(** The module-level initialisers, in a document that holds no tile yet;
    [loaded] stands for the statistics read from storage. *)
Definition initial (random : Q) (loaded : Stats)
    (local session : gmap string string) : Session :=
  {| targetWord := random_word random;
     currentRow := 0;
     currentTile := 0;
     gameOver := false;
     stats := loaded;
     isValidating := false;
     inputEnabled := true;
     gameStarted := false;
     tiles := ∅;
     keys := ∅;
     message := ("", false);
     modal := ("", "", false);
     localStorage := local;
     sessionStorage := session;
     validating := [];
     timers := [];
     saving := [] |}.

(** [initGame], after the statistics are loaded. *)
Definition initGame : JS unit :=
  initSessionProtection ;;
  createBoard ;;
  createKeyboard.

Definition boot (random : Q) (loaded : Stats)
    (local session : gmap string string) : Session :=
  exec initGame (initial random loaded local session).

(** *** Events *)

Inductive Event :=
| Click (key : string)
| KeyDown (tagName key : string) (ctrlKey metaKey shiftKey : bool)
| WordChecked (n : nat) (isValid : bool)
| WordCheckFailed (n : nat)
| TimerFired (n : nat)
| StatsSaved (n : nat)
| StatsSaveFailed (n : nat)
| BeforeUnload (now : Z)
| VisibilityChange (hidden : bool) (now : Z)
| Unload (now : Z)
| NewGame (skipBoardClear : bool) (random : Q).

(** The handler of [.catch] in [submitGuess]. *)
Definition validation_error : JS unit :=
  showMessage "Error validating word" ;;
  assign with_isValidating false.

(** The handler of [.then] in [submitGuess]. *)
Definition validation_done (guess : string) (isValid : bool) : JS unit :=
  if negb isValid then
    showMessage "Not in word list" ;;
    assign with_isValidating false
  else processGuess guess.

Definition run_timer (callback : Timer) : JS unit :=
  match callback with
  | RevealTile i guessArray letterStatus => revealTile i guessArray letterStatus
  | CheckResult guess =>
      async (checkGameResult guess) ;;
      assign with_isValidating false
  | HideMessage =>
      m ← read message;
      assign with_message (m.1, false)
  end.

(** One turn of the event loop.  Settling the [n]-th pending promise or
    running the [n]-th scheduled callback removes it from its list; an
    event that names none is no turn at all.  A key that goes down reaches
    both [keydown] listeners, first the one added when the script loads,
    then the one that [initGame] adds; an exception in the first does not
    keep the second from running. *)
Definition step (e : Event) : JS unit :=
  match e with
  | Click key => handleKeyPress key
  | KeyDown tagName key ctrlKey metaKey shiftKey =>
      try_catch (onKeyDown tagName key) skip ;;
      onKeyDown_refresh key ctrlKey metaKey shiftKey
  | WordChecked n isValid =>
      pending ← read validating;
      match pending !! n with
      | Some guess =>
          assign with_validating (delete n pending) ;;
          try_catch (validation_done guess isValid) validation_error
      | None => skip
      end
  | WordCheckFailed n =>
      pending ← read validating;
      match pending !! n with
      | Some guess =>
          assign with_validating (delete n pending) ;;
          validation_error
      | None => skip
      end
  | TimerFired n =>
      pending ← read timers;
      match pending !! n with
      | Some callback =>
          assign with_timers (delete n pending) ;;
          run_timer callback
      | None => skip
      end
  | StatsSaved n =>
      waiting ← read saving;
      match waiting !! n with
      | Some won =>
          assign with_saving (delete n waiting) ;;
          endGame_resume won
      | None => skip
      end
  | StatsSaveFailed n =>
      waiting ← read saving;
      assign with_saving (delete n waiting)
  | BeforeUnload now => saveCompleteGameState now
  | VisibilityChange hidden now =>
      started ← read gameStarted;
      over ← read gameOver;
      if hidden && started && negb over then saveCompleteGameState now else skip
  | Unload now => saveCompleteGameState now
  | NewGame skipBoardClear random => resetToNewGame skipBoardClear random
  end.

(** An exception that escapes a handler ends that turn only. *)
Definition handle (s : Session) (e : Event) : Session := exec (step e) s.

Definition run (s : Session) (events : list Event) : Session := foldl handle s events.

End Game.
(** ** Specification vocabulary *)

(** [Math.random()] returns a double in [0, 1). *)
Definition in_unit_interval (random : Q) : Prop :=
  (0 <= random)%Q ∧ (random < 1)%Q ∧ is_double random = true.

Definition well_formed_event (e : Event) : Prop :=
  match e with
  | NewGame _ random => in_unit_interval random
  | _ => True
  end.

Definition is_NewGame (e : Event) : bool :=
  match e with
  | NewGame _ _ => true
  | _ => false
  end.

(** Guess-processing pipelines under way: validations not yet answered and
    result checks not yet run. *)
Definition is_CheckResult (t : Timer) : bool :=
  match t with
  | CheckResult _ => true
  | _ => false
  end.
Definition pipelines (s : Session) : nat :=
  (length (validating s) + length (filter (λ t, is_CheckResult t = true) (timers s)))%nat.


(** A session in which nothing has been typed and nothing is pending. *)
Definition fresh (s : Session) : Prop :=
  currentRow s = 0 ∧ currentTile s = 0 ∧ gameOver s = false ∧ isValidating s = false ∧
  validating s = [] ∧ timers s = [] ∧ saving s = [].

(** The cursors are in range, and the gate is shut only on a full row. *)
Definition cursor_ok (s : Session) : Prop :=
  0 ≤ currentTile s ≤ WORD_LENGTH ∧ 0 ≤ currentRow s < MAX_ATTEMPTS ∧
  (isValidating s = true → currentTile s = WORD_LENGTH).

(** The gate is shut exactly while one pipeline is under way. *)
Definition gate_ok (s : Session) : Prop :=
  pipelines s = if isValidating s then 1%nat else 0%nat.

(** The part of the state that the input gate and the cursors depend on;
    of the timers only the pending result checks count. *)
Definition control (s : Session) :=
  (targetWord s, currentRow s, currentTile s, gameOver s, isValidating s,
   inputEnabled s, validating s, filter (λ t, is_CheckResult t = true) (timers s)).

(** The guess [submitGuess] reads from the tiles of the current row, if
    they all exist. *)
Definition row_guess (s : Session) : option string :=
  letters ← mapM (λ i, textContent <$> tiles s !! (currentRow s, i)) (seqZ 0 WORD_LENGTH);
  Some (foldl String.append "" letters).

#[global] Instance Tile_inhabited : Inhabited Tile :=
  populate {| textContent := ""; className := [] |}.

(** The object [saveCompleteGameState] builds at time [now] in a session
    whose board has all its tiles. *)
Definition snapshot (now : Z) (s : Session) : gameState.t :=
  {| gameState.timestamp := now;
     gameState.active := true;
     gameState.targetWord := targetWord s;
     gameState.currentRow := currentRow s;
     gameState.currentTile := currentTile s;
     gameState.gameOver := gameOver s;
     gameState.boardState := Some ((λ id, boardTile_of id (tiles s !!! id)) <$> board_ids);
     gameState.guesses := [] |}.

(** Every tile of the board exists in the document. *)
Definition board_complete (s : Session) : Prop :=
  ∀ id, id ∈ board_ids → is_Some (tiles s !! id).

(** A tile as [createBoard] makes it. *)
Definition blank_tile : Tile := {| textContent := ""; className := ["tile"] |}.

Definition is_upper (c : ascii) : bool :=
  bool_decide (65 ≤ nat_of_ascii c ≤ 90)%nat.

(** State of the two scoring loops over guess [G] and target [T] of [n]
    letters before position [k] is visited: every status is one of
    [allowed], and one of [todo] at the positions not yet visited; the
    letters credited so far and the letters left in the target array add up
    to the target. *)
Definition loop_inv (G T : list ascii) (n : nat) (allowed todo : list LetterStatus)
    (k : nat) (acc : list LetterStatus * list entry) : Prop :=
  length acc.1 = n ∧ length acc.2 = n ∧
  (∀ j s, acc.1 !! j = Some s → s ∈ allowed ∧ ((k ≤ j)%nat → s ∈ todo)) ∧
  (∀ L, (credited L G acc.1 + remaining L acc.2)%nat = count_occ ascii_dec T L).

(** ** Weakest preconditions

    [wp m Q E s]: run from [s], the computation [m] ends either normally in
    a result and state that satisfy [Q], or by an exception in a state that
    satisfies [E]. *)
Definition wp {A} (m : JS A) (Q : A → Session → Prop) (E : Session → Prop)
    (s : Session) : Prop :=
  match m s with
  | (Normal a, s') => Q a s'
  | (Throw, s') => E s'
  end.

(** [m] keeps [P], also when it throws. *)
Definition keeps {A} (P : Session → Prop) (m : JS A) : Prop :=
  ∀ s, P s → wp m (λ _, P) P s.

(** ** A codec that meets the assumptions on JSON

    The theorems about snapshots assume of [JSON.parse] and
    [JSON.stringify] only that parsing a stringified object gives the object
    back and that no object is written as the empty text.  The codec below
    meets both: an object is numbered by its fields and written as a sign
    followed by the binary digits of the number. *)

#[global] Instance boardTile_eq_dec : EqDecision boardTile.t.
Proof. solve_decision. Defined.
#[global] Instance gameState_eq_dec : EqDecision gameState.t.
Proof. solve_decision. Defined.

#[global] Instance boardTile_countable : Countable boardTile.t :=
  inj_countable'
    (λ b, (boardTile.row b, boardTile.col b, boardTile.content b, boardTile.className b))
    (λ '(r, c, x, k),
       {| boardTile.row := r; boardTile.col := c;
          boardTile.content := x; boardTile.className := k |})
    (λ b, match b with boardTile.Build_t _ _ _ _ => eq_refl end).

#[global] Instance gameState_countable : Countable gameState.t :=
  inj_countable'
    (λ g, (gameState.timestamp g, gameState.active g, gameState.targetWord g,
           gameState.currentRow g, gameState.currentTile g, gameState.gameOver g,
           gameState.boardState g, gameState.guesses g))
    (λ '(ts, a, w, r, t, o, b, gs),
       {| gameState.timestamp := ts; gameState.active := a; gameState.targetWord := w;
          gameState.currentRow := r; gameState.currentTile := t; gameState.gameOver := o;
          gameState.boardState := b; gameState.guesses := gs |})
    (λ g, match g with gameState.Build_t _ _ _ _ _ _ _ _ => eq_refl end).

Fixpoint digits (p : positive) : string :=
  match p with
  | xH => ""
  | xO q => String "0" (digits q)
  | xI q => String "1" (digits q)
  end.

Fixpoint undigits (s : string) : positive :=
  match s with
  | EmptyString => xH
  | String c s' => if Ascii.eqb c "1" then xI (undigits s') else xO (undigits s')
  end.

Definition codec_stringify (g : gameState.t) : string := String "#" (digits (encode g)).

Definition codec_parse (text : string) : option gameState.t :=
  match text with
  | String _ s => decode (undigits s)
  | EmptyString => None
  end.

(** The statistics as a text, for the examples. *)
Definition stats_text (st : Stats) : string :=
  "gamesPlayed=" +:+ pretty (gamesPlayed st) +:+ ",gamesWon=" +:+ pretty (gamesWon st)
  +:+ ",currentStreak=" +:+ pretty (currentStreak st)
  +:+ ",maxStreak=" +:+ pretty (maxStreak st).

(** ** Example sessions

    A page opened on empty storage with the first word of the list as
    target, without the cloud script, and what a few events make of it. *)
Definition example_run : Session → list Event → Session :=
  run codec_stringify stats_text false.
Definition example_page : Session :=
  boot codec_parse "sessionId_0_example" 0 DEFAULT_STATS ∅ ∅.
Definition type_word (letters : list string) : list Event := Click <$> letters.
Definition play_word (letters : list string) : list Event :=
  type_word letters ++ [Click "ENTER"; WordChecked 0 true] ++ replicate 6 (TimerFired 0).
Definition SLATE : list string := ["S"; "L"; "A"; "T"; "E"].
Definition CRANE : list string := ["C"; "R"; "A"; "N"; "E"].
Definition example_handle : Session → Event → Session :=
  handle codec_stringify stats_text false.

(** A stored object that lacks [boardState]. *)
Definition example_truncated : gameState.t :=
  {| gameState.timestamp := 1;
     gameState.active := true;
     gameState.targetWord := "ZZZZZ";
     gameState.currentRow := 4;
     gameState.currentTile := 3;
     gameState.gameOver := true;
     gameState.boardState := None;
     gameState.guesses := [] |}.
Definition example_storage : gmap string string :=
  <[ACTIVE_GAME_KEY := "true"]> (<[GAME_STATE_KEY := codec_stringify example_truncated]> ∅).

(** ** Vocabulary of the further properties *)

(** State of the first scoring loop before position [k]: the positions
    visited hold their verdict, the others are untouched. *)
Definition pass1_inv (G T : list ascii) (k : nat)
    (acc : list LetterStatus * list entry) : Prop :=
  length acc.1 = length G ∧ length acc.2 = length G ∧
  ∀ j g t, G !! j = Some g → T !! j = Some t →
    acc.1 !! j = Some (if bool_decide ((j < k)%nat ∧ g = t) then correct else absent) ∧
    acc.2 !! j = Some (if bool_decide ((j < k)%nat ∧ g = t) then Null else Letter t).

(** State of the second scoring loop before position [k]. *)
Definition pass2_inv (G T : list ascii) (k : nat)
    (acc : list LetterStatus * list entry) : Prop :=
  length acc.1 = length G ∧ length acc.2 = length G ∧
  (∀ j g t, G !! j = Some g → T !! j = Some t →
     (acc.1 !! j = Some correct ↔ g = t) ∧
     (acc.2 !! j = Some Null ∨ acc.2 !! j = Some (Letter t)) ∧
     (g = t → acc.2 !! j = Some Null)) ∧
  (∀ j, (k ≤ j)%nat → acc.1 !! j ≠ Some present) ∧
  (∀ j g, (j < k)%nat → G !! j = Some g → acc.1 !! j = Some absent →
     remaining g acc.2 = 0%nat) ∧
  (∀ j g, G !! j = Some g → acc.1 !! j = Some present →
     ∃ index, T !! index = Some g ∧ G !! index ≠ Some g).

(** The statistics after one more game won, and after one more game lost,
    as [endGameWon] and [endGameLost] count them. *)
Definition stats_won (st : Stats) : Stats :=
  {| gamesPlayed := gamesPlayed st + 1;
     gamesWon := gamesWon st + 1;
     currentStreak := currentStreak st + 1;
     maxStreak := Z.max (maxStreak st) (currentStreak st + 1) |}.
Definition stats_lost (st : Stats) : Stats :=
  {| gamesPlayed := gamesPlayed st + 1;
     gamesWon := gamesWon st;
     currentStreak := 0;
     maxStreak := maxStreak st |}.

(** Counters that fit together: the streaks are part of the games won,
    and those of the games played. *)
Definition stats_ok (st : Stats) : Prop :=
  0 ≤ currentStreak st ∧ currentStreak st ≤ maxStreak st ∧
  maxStreak st ≤ gamesWon st ∧ gamesWon st ≤ gamesPlayed st.

(** Counters that stay among the safe integers for [n] more games. *)
Definition counts_exactly (n : nat) (st : Stats) : Prop :=
  (- MAX_SAFE_INTEGER ≤ gamesPlayed st ∧ gamesPlayed st + Z.of_nat n ≤ MAX_SAFE_INTEGER) ∧
  (- MAX_SAFE_INTEGER ≤ gamesWon st ∧ gamesWon st + Z.of_nat n ≤ MAX_SAFE_INTEGER) ∧
  (- MAX_SAFE_INTEGER ≤ currentStreak st ∧ currentStreak st + Z.of_nat n ≤ MAX_SAFE_INTEGER).

(** Key presses, on the screen or on the keyboard. *)
Definition is_input (e : Event) : bool :=
  match e with
  | Click _ | KeyDown _ _ _ _ _ => true
  | _ => false
  end.

(** What typing leaves alone. *)
Definition beyond_typing (s : Session) :=
  (targetWord s, currentRow s, gameOver s, stats s, inputEnabled s, keys s, modal s,
   localStorage s, sessionStorage s, saving s).

(** Snapshot and marker go together in storage: both are absent, or the
    snapshot is there and the marker says ["true"]. *)
Definition paired (storage : gmap string string) : Prop :=
  (storage !! GAME_STATE_KEY = None ∧ storage !! ACTIVE_GAME_KEY = None) ∨
  (is_Some (storage !! GAME_STATE_KEY) ∧ storage !! ACTIVE_GAME_KEY = Some "true").

(** Pending work that is well formed: a guess on its way to the word
    check or to the result check has [WORD_LENGTH] characters, and a reveal
    names a position that holds a letter of the guess and has a status. *)
Definition timer_ok (t : Timer) : Prop :=
  match t with
  | RevealTile i guessArray letterStatus =>
      (∃ c, guessArray !! i = Some (Letter c)) ∧ (∃ status, letterStatus !! i = Some status)
  | CheckResult guess => String.length guess = Z.to_nat WORD_LENGTH
  | HideMessage => True
  end.
Definition pending_ok (s : Session) : Prop :=
  Forall (λ guess, String.length guess = Z.to_nat WORD_LENGTH) (validating s) ∧
  Forall timer_ok (timers s).

(** How much a key colour tells: correct over present over absent over
    none.  The colour of a key is the second entry of its class list. *)
Definition status_rank (status : string) : nat :=
  if String.eqb status "correct" then 3
  else if String.eqb status "present" then 2
  else if String.eqb status "absent" then 1
  else 0.
Definition key_rank (cl : list string) : nat := from_option status_rank 0%nat (cl !! 1%nat).

(** * Reasoning about computations *)

Section wp_rules.
Context {A B : Type}.
Implicit Types (Q : A → Session → Prop) (E : Session → Prop) (s : Session).

Lemma wp_ret (a : A) Q E s : Q a s → wp (mret a) Q E s.
Proof. done. Qed.

Lemma wp_bind (m : JS B) (f : B → JS A) Q E s :
  wp m (λ b, wp (f b) Q E) E s → wp (m ≫= f) Q E s.
Proof. unfold wp, mbind, JS_bind. by destruct (m s) as [[b|] s']. Qed.

Lemma wp_read (f : Session → A) Q E s : Q (f s) s → wp (read f) Q E s.
Proof. done. Qed.

Lemma wp_throw Q E s : E s → wp (throw : JS A) Q E s.
Proof. done. Qed.

Lemma wp_try_catch (body handler : JS A) Q E s :
  wp body Q (wp handler Q E) s → wp (try_catch body handler) Q E s.
Proof. unfold wp, try_catch. by destruct (body s) as [[a|] s']. Qed.

Lemma wp_mono (m : JS A) Q Q' E E' s :
  wp m Q E s → (∀ a s', Q a s' → Q' a s') → (∀ s', E s' → E' s') → wp m Q' E' s.
Proof. unfold wp. destruct (m s) as [[a|] s']; eauto. Qed.

Lemma wp_tile_get id (f : Tile → A) Q E s :
  (∀ t, tiles s !! id = Some t → Q (f t) s) → (tiles s !! id = None → E s) →
  wp (tile_get id f) Q E s.
Proof. unfold wp, tile_get. destruct (tiles s !! id); eauto. Qed.
End wp_rules.

Section wp_unit_rules.
Implicit Types (Q : unit → Session → Prop) (E : Session → Prop) (s : Session).

Lemma wp_skip Q E s : Q () s → wp skip Q E s.
Proof. done. Qed.

Lemma wp_assign {A} (set : A → Session → Session) v Q E s :
  Q () (set v s) → wp (assign set v) Q E s.
Proof. done. Qed.

Lemma wp_tile_update id f Q E s :
  (∀ t, tiles s !! id = Some t → Q () (with_tiles (<[id := f t]> (tiles s)) s)) →
  (tiles s !! id = None → E s) →
  wp (tile_update id f) Q E s.
Proof. unfold wp, tile_update. destruct (tiles s !! id); eauto. Qed.

Lemma wp_localStorage_setItem k v Q E s :
  Q () (with_localStorage (<[k := v]> (localStorage s)) s) →
  wp (localStorage_setItem k v) Q E s.
Proof. done. Qed.

Lemma wp_localStorage_removeItem k Q E s :
  Q () (with_localStorage (delete k (localStorage s)) s) →
  wp (localStorage_removeItem k) Q E s.
Proof. done. Qed.

Lemma wp_sessionStorage_setItem k v Q E s :
  Q () (with_sessionStorage (<[k := v]> (sessionStorage s)) s) →
  wp (sessionStorage_setItem k v) Q E s.
Proof. done. Qed.

(** A loop whose body keeps [I] and throws only into [X]. *)
Lemma wp_forEach {A} (l : list A) (f : A → JS unit) (I X : Session → Prop) Q E s :
  I s → (∀ x s', I s' → wp (f x) (λ _, I) X s') →
  (∀ s', I s' → Q () s') → (∀ s', X s' → E s') →
  wp (forEach l f) Q E s.
Proof.
  intros HI Hf HQ HE. revert s HI. induction l as [|x l IH]; intros s HI; simpl.
  - by apply wp_skip, HQ.
  - apply wp_bind. eapply wp_mono; [by apply Hf| |]; simpl; eauto.
Qed.

Lemma wp_exec {A} (m : JS A) (P : Session → Prop) s :
  wp m (λ _, P) P s → P (exec m s).
Proof. unfold wp, exec. by destruct (m s) as [[a|] s']. Qed.
End wp_unit_rules.

Lemma wp_collect {A B} (l : list A) (f : A → JS B) (I X : Session → Prop)
    (Q : list B → Session → Prop) E s :
  I s → (∀ x s', I s' → wp (f x) (λ _, I) X s') →
  (∀ r s', I s' → Q r s') → (∀ s', X s' → E s') →
  wp (collect l f) Q E s.
Proof.
  intros HI Hf HQ HE. revert s Q HQ HI. induction l as [|x l IH]; intros s Q HQ HI; simpl.
  - by apply wp_ret, HQ.
  - apply wp_bind. eapply wp_mono; [by apply Hf| |]; simpl; [|eauto].
    intros y s' HI'. apply wp_bind. apply IH; [|done].
    intros r s'' HI''. by apply wp_ret, HQ.
Qed.

Lemma wp_returns {A} (m : JS A) (a : A) s s' :
  wp m (λ b s'', b = a ∧ s'' = s') (λ _, False) s → m s = (Normal a, s').
Proof. unfold wp. destruct (m s) as [[b|] s'']; [by intros [-> ->] | done]. Qed.

Lemma wp_collect_tile_get_all {A B} (l : list A) (g : A → Z * Z) (f : A → Tile → B)
    (Q : list B → Session → Prop) E s :
  (∀ x, x ∈ l → is_Some (tiles s !! g x)) →
  Q ((λ x, f x (tiles s !!! g x)) <$> l) s →
  wp (collect l (λ x, tile_get (g x) (f x))) Q E s.
Proof.
  revert Q. induction l as [|x l IH]; intros Q Hl HQ; simpl; [done|].
  apply wp_bind. destruct (Hl x) as [t Ht]; [set_solver|].
  apply wp_tile_get; [|congruence]. intros t' Ht'. simplify_eq.
  apply wp_bind. apply IH; [intros; apply Hl; set_solver|].
  apply wp_ret. rewrite fmap_cons, (lookup_total_correct _ _ _ Ht) in HQ. exact HQ.
Qed.

Lemma bool_decide_ext_if {A} (P Q : Prop) `{Decision P, Decision Q} (x y : A) :
  (P ↔ Q) → (if bool_decide P then x else y) = (if bool_decide Q then x else y).
Proof. intros HPQ. by rewrite (bool_decide_ext P Q HPQ). Qed.

(** Symbolic execution of straight-line code. *)
Ltac wp_step :=
  lazymatch goal with
  | |- wp (mbind _ _) _ _ _ => apply wp_bind
  | |- wp (mret _) _ _ _ => apply wp_ret
  | |- wp skip _ _ _ => apply wp_skip
  | |- wp (read _) _ _ _ => apply wp_read
  | |- wp (assign _ _) _ _ _ => apply wp_assign
  | |- wp throw _ _ _ => apply wp_throw
  | |- wp (try_catch _ _) _ _ _ => apply wp_try_catch
  | |- wp (async _) _ _ _ => unfold async; apply wp_try_catch
  | |- wp (localStorage_setItem _ _) _ _ _ => apply wp_localStorage_setItem
  | |- wp (localStorage_removeItem _) _ _ _ => apply wp_localStorage_removeItem
  | |- wp (sessionStorage_setItem _ _) _ _ _ => apply wp_sessionStorage_setItem
  | |- wp (localStorage_getItem _) _ _ _ => apply wp_read
  | |- wp (sessionStorage_getItem _) _ _ _ => apply wp_read
  | |- wp (tile_update _ _) _ _ _ =>
      let t := fresh "t" in let Ht := fresh "Htile" in
      apply wp_tile_update; [intros t Ht | intros Ht]
  | |- wp (tile_get _ _) _ _ _ =>
      let t := fresh "t" in let Ht := fresh "Htile" in
      apply wp_tile_get; [intros t Ht | intros Ht]
  | |- wp (if ?b then _ else _) _ _ _ =>
      let Hb := fresh "Hb" in destruct b eqn:Hb
  | |- wp (match ?x with _ => _ end) _ _ _ =>
      let Hx := fresh "Hx" in destruct x eqn:Hx
  | |- wp (showMessage _) _ _ _ => unfold showMessage
  | |- wp (showModal _ _) _ _ _ => unfold showModal
  | |- wp (setTimeout _) _ _ _ => unfold setTimeout
  | |- wp hideModal _ _ _ => unfold hideModal
  end; cbn beta.

Ltac wp_run := repeat wp_step.

(** A loop that leaves the observation [f] of the state alone. *)
Lemma wp_forEach_frame {A B} (f : Session → B) (l : list A) (body : A → JS unit)
    (Q : unit → Session → Prop) E s :
  (∀ x s', wp (body x) (λ _ s'', f s'' = f s') (λ s'', f s'' = f s') s') →
  (∀ s', f s' = f s → Q () s') → (∀ s', f s' = f s → E s') →
  wp (forEach l body) Q E s.
Proof.
  intros Hbody HQ HE. apply (wp_forEach l body (λ s', f s' = f s) (λ s', f s' = f s)); [done| |done..].
  intros x s' Hs'. eapply wp_mono; [apply Hbody|..]; simpl; congruence.
Qed.

Lemma wp_collect_frame {A B C} (f : Session → C) (l : list A) (body : A → JS B)
    (Q : list B → Session → Prop) E s :
  (∀ x s', wp (body x) (λ _ s'', f s'' = f s') (λ s'', f s'' = f s') s') →
  (∀ r s', f s' = f s → Q r s') → (∀ s', f s' = f s → E s') →
  wp (collect l body) Q E s.
Proof.
  intros Hbody HQ HE. apply (wp_collect l body (λ s', f s' = f s) (λ s', f s' = f s)); [done| |done..].
  intros x s' Hs'. eapply wp_mono; [apply Hbody|..]; simpl; congruence.
Qed.

(** Reading tiles changes nothing. *)
Lemma wp_collect_tile_get {A B} (l : list A) (g : A → Z * Z) (f : A → Tile → B)
    (Q : list B → Session → Prop) E s :
  (∀ r, Q r s) → E s → wp (collect l (λ x, tile_get (g x) (f x))) Q E s.
Proof.
  intros HQ HE. apply (wp_collect_frame id); simpl.
  - intros x s'. by apply wp_tile_get.
  - by intros r s' ->.
  - by intros s' ->.
Qed.

Ltac wp_pure :=
  repeat match goal with
  | H : bool_decide _ = true |- _ => apply bool_decide_eq_true_1 in H
  | H : bool_decide _ = false |- _ => apply bool_decide_eq_false_1 in H
  | H : negb _ = true |- _ => apply negb_true_iff in H
  | H : negb _ = false |- _ => apply negb_false_iff in H
  | H : _ && _ = true |- _ => apply andb_true_iff in H as [? ?]
  | H : _ || _ = false |- _ => apply orb_false_iff in H as [? ?]
  end.

Lemma wp_result {A} (m : JS A) (Q : A → Session → Prop) s :
  wp m Q (λ _, False) s → ∃ a s', m s = (Normal a, s') ∧ Q a s'.
Proof. unfold wp. destruct (m s) as [[a|] s']; [eauto | done]. Qed.

Lemma wp_exec_normal {A} (m : JS A) (P : Session → Prop) s :
  wp m (λ _, P) (λ _, False) s → P (exec m s).
Proof. unfold wp, exec. by destruct (m s) as [[a|] s']. Qed.

(** Reading the texts of a list of tiles: all of them exist, or the call throws. *)
Lemma wp_collect_tile_get_mapM {A B} (l : list A) (g : A → Z * Z) (f : A → Tile → B)
    (Q : list B → Session → Prop) E s :
  (∀ r, mapM (λ x, f x <$> tiles s !! g x) l = Some r → Q r s) →
  (mapM (λ x, f x <$> tiles s !! g x) l = None → E s) →
  wp (collect l (λ x, tile_get (g x) (f x))) Q E s.
Proof.
  revert Q. induction l as [|x l IH]; intros Q HQ HE.
  - apply wp_ret. by apply HQ.
  - simpl collect. apply wp_bind. cbn [mapM] in HQ, HE.
    apply wp_tile_get.
    + intros t Ht. rewrite Ht in HQ, HE. simpl in HQ, HE.
      apply wp_bind. apply IH.
      * intros r Hr. apply wp_ret. apply HQ. by rewrite Hr.
      * intros Hr. apply HE. by rewrite Hr.
    + intros Ht. apply HE. by rewrite Ht.
Qed.

(** * Scoring *)

Example score_CRANE : score "CRANE" "CRANE" = [correct; correct; correct; correct; correct].
Proof. reflexivity. Qed.

Example score_AABBB : score "AABBB" "ABABA" = [correct; present; present; correct; absent].
Proof. reflexivity. Qed.

Example score_short_target : score "AAAAA" "AB" = [correct; absent; absent; absent; absent].
Proof. reflexivity. Qed.

Section Scoring.
Implicit Types (L g : ascii) (G T : list ascii) (ls : list LetterStatus) (ta : list entry).

Lemma credited_replicate_absent L G n : credited L G (replicate n absent) = 0%nat.
Proof.
  revert n; induction G as [|g G IH]; intros [|n]; simpl; try done.
  rewrite IH. rewrite bool_decide_eq_false_2; [done | naive_solver].
Qed.

Lemma credited_insert L G ls i g s :
  G !! i = Some g → ls !! i = Some absent →
  credited L G (<[i:=s]> ls)
  = (credited L G ls + (if bool_decide (g = L ∧ s ≠ absent) then 1 else 0))%nat.
Proof.
  revert ls i; induction G as [|g' G IH]; intros [|s' ls] [|i] HG Hls;
    simplify_eq/=; try done.
  - rewrite (bool_decide_eq_false_2 (g = L ∧ absent ≠ absent)); [lia | naive_solver].
  - rewrite (IH ls i) by done. lia.
Qed.

Lemma remaining_fmap_Letter L T :
  remaining L (Letter <$> T) = count_occ ascii_dec T L.
Proof.
  unfold remaining. induction T as [|t T IH]; [done|].
  rewrite fmap_cons, filter_cons. simpl count_occ.
  destruct (ascii_dec t L) as [->|Hne].
  - rewrite decide_True by done. simpl. by rewrite IH.
  - rewrite decide_False by congruence. done.
Qed.

Lemma remaining_insert_Null L ta i e :
  ta !! i = Some e →
  (remaining L (<[i:=Null]> ta) + (if bool_decide (e = Letter L) then 1 else 0))%nat
  = remaining L ta.
Proof.
  unfold remaining. revert i; induction ta as [|e' ta IH]; intros [|i] H; simplify_eq/=.
  - rewrite !filter_cons. rewrite decide_False by done.
    case_bool_decide; [rewrite decide_True by done | rewrite decide_False by done]; simpl; lia.
  - rewrite !filter_cons. specialize (IH i H).
    destruct (decide (e' = Letter L)); simpl; lia.
Qed.

Lemma indexOf_Some ta x i : indexOf ta x = Some i → ta !! i = Some x ∧ x ≠ Undefined.
Proof.
  revert i; induction ta as [|e ta IH]; intros i; simpl; [done|].
  case_bool_decide as Hd.
  - intros [= <-]. destruct Hd as [-> ?]. done.
  - destruct (indexOf ta x) as [j|] eqn:E; simpl; [|done].
    intros [= <-]. simpl. by apply IH.
Qed.

Lemma array_get_split (w : string) i :
  array_get (split w) i = from_option Letter Undefined (list_ascii_of_string w !! i).
Proof. unfold array_get, split. rewrite list_lookup_fmap. by destruct (_ !! i). Qed.

Lemma array_set_in_range ta i v : (i < length ta)%nat → array_set ta i v = <[i:=v]> ta.
Proof. intros. unfold array_set. by rewrite decide_True. Qed.
End Scoring.

Section ScoringInvariant.
Variables (G T : list ascii) (n : nat).
Hypothesis HG : length G = n.
Hypothesis HT : length T = n.

Lemma loop_inv_init :
  loop_inv G T n [correct; absent] [absent] 0 (replicate n absent, Letter <$> T).
Proof.
  split_and!; simpl.
  - by rewrite length_replicate.
  - by rewrite length_fmap.
  - intros j s [-> _]%lookup_replicate. set_solver.
  - intros L. by rewrite credited_replicate_absent, remaining_fmap_Letter.
Qed.

Lemma first_pass_inv k acc :
  (k < n)%nat → loop_inv G T n [correct; absent] [absent] k acc →
  loop_inv G T n [correct; absent] [absent] (S k) (first_pass (Letter <$> G) acc k).
Proof.
  destruct acc as [ls ta]. intros Hk (Hls & Hta & Hmarks & Hcount); simpl in *.
  unfold first_pass. case_bool_decide as Heq.
  2:{ split_and!; simpl; try done. intros j s Hs.
      destruct (Hmarks j s Hs). split; [done|]. intros; eauto with lia. }
  destruct (lookup_lt_is_Some_2 G k) as [g Hg]; [lia|].
  destruct (lookup_lt_is_Some_2 ta k) as [e He]; [lia|].
  destruct (lookup_lt_is_Some_2 ls k) as [s Hs]; [lia|].
  assert (s = absent) as ->.
  { destruct (Hmarks k s Hs) as [_ Hin]. specialize (Hin (le_n _)). set_solver. }
  unfold array_get in Heq. rewrite list_lookup_fmap, Hg, He in Heq. simpl in Heq. subst e.
  rewrite array_set_in_range by lia.
  split_and!; simpl.
  - by rewrite length_insert.
  - by rewrite length_insert.
  - intros j s. destruct (decide (j = k)) as [->|Hne].
    + rewrite list_lookup_insert_eq by lia. intros [= <-]. split; [set_solver | lia].
    + rewrite list_lookup_insert_ne by done. intros H.
      destruct (Hmarks j s H). split; [done|]. intros; eauto with lia.
  - intros L. rewrite (credited_insert L G ls k g correct) by done.
    pose proof (remaining_insert_Null L ta k (Letter g) He) as Hr.
    specialize (Hcount L).
    repeat case_bool_decide; naive_solver lia.
Qed.

Lemma second_pass_inv k acc :
  (k < n)%nat → loop_inv G T n [correct; present; absent] [correct; absent] k acc →
  loop_inv G T n [correct; present; absent] [correct; absent] (S k)
    (second_pass (Letter <$> G) acc k).
Proof.
  destruct acc as [ls ta]. intros Hk (Hls & Hta & Hmarks & Hcount); simpl in *.
  assert (∀ (ls' : list LetterStatus),
    (∀ j s, ls' !! j = Some s →
            s ∈ [correct; present; absent] ∧ ((k ≤ j)%nat → s ∈ [correct; absent])) →
    (∀ j s, ls' !! j = Some s →
            s ∈ [correct; present; absent] ∧ ((S k ≤ j)%nat → s ∈ [correct; absent]))) as Hstep.
  { intros ls' H j s Hs. destruct (H j s Hs). split; [done|]. intros; eauto with lia. }
  unfold second_pass. case_bool_decide as Hc.
  { split_and!; simpl; eauto. }
  destruct (indexOf ta (array_get (Letter <$> G) k)) as [index|] eqn:Hidx.
  2:{ split_and!; simpl; eauto. }
  destruct (lookup_lt_is_Some_2 G k) as [g Hg]; [lia|].
  destruct (lookup_lt_is_Some_2 ls k) as [s Hs]; [lia|].
  assert (s = absent) as ->.
  { destruct (Hmarks k s Hs) as [_ Hin]. specialize (Hin (le_n _)).
    rewrite Hs in Hc. set_solver. }
  unfold array_get in Hidx. rewrite list_lookup_fmap, Hg in Hidx. simpl in Hidx.
  apply indexOf_Some in Hidx as [He _].
  pose proof (lookup_lt_Some _ _ _ He) as Hlt.
  rewrite array_set_in_range by lia.
  split_and!; simpl.
  - by rewrite length_insert.
  - by rewrite length_insert.
  - intros j s. destruct (decide (j = k)) as [->|Hne].
    + rewrite list_lookup_insert_eq by lia. intros [= <-]. split; [set_solver | lia].
    + rewrite list_lookup_insert_ne by done. intros H.
      destruct (Hmarks j s H). split; [done|]. intros; eauto with lia.
  - intros L. rewrite (credited_insert L G ls k g present) by done.
    pose proof (remaining_insert_Null L ta index (Letter g) He) as Hr.
    specialize (Hcount L).
    repeat case_bool_decide; naive_solver lia.
Qed.

Lemma loop_inv_weaken allowed allowed' todo todo' k acc :
  allowed ⊆ allowed' → allowed ⊆ todo' →
  loop_inv G T n allowed todo k acc → loop_inv G T n allowed' todo' 0 acc.
Proof.
  intros Ha Ht (? & ? & Hmarks & ?). split_and!; try done.
  intros j s Hs. destruct (Hmarks j s Hs). split; [by apply Ha | intros; by apply Ht].
Qed.

Lemma first_pass_loop k acc :
  (k ≤ n)%nat → loop_inv G T n [correct; absent] [absent] 0 acc →
  loop_inv G T n [correct; absent] [absent] k (foldl (first_pass (Letter <$> G)) acc (seq 0 k)).
Proof.
  intros Hk Hacc. induction k as [|k IH]; [done|].
  rewrite seq_S, foldl_app. simpl. apply first_pass_inv; [lia|]. apply IH. lia.
Qed.

Lemma second_pass_loop k acc :
  (k ≤ n)%nat → loop_inv G T n [correct; present; absent] [correct; absent] 0 acc →
  loop_inv G T n [correct; present; absent] [correct; absent] k
    (foldl (second_pass (Letter <$> G)) acc (seq 0 k)).
Proof.
  intros Hk Hacc. induction k as [|k IH]; [done|].
  rewrite seq_S, foldl_app. simpl. apply second_pass_inv; [lia|]. apply IH. lia.
Qed.

(** Both loops, run over all [n] positions. *)
Lemma two_passes_inv :
  loop_inv G T n [correct; present; absent] [correct; absent] n
    (foldl (second_pass (Letter <$> G))
       (foldl (first_pass (Letter <$> G)) (replicate n absent, Letter <$> T) (seq 0 n))
       (seq 0 n)).
Proof.
  apply second_pass_loop; [done|].
  eapply (loop_inv_weaken [correct; absent]); [set_solver | set_solver |].
  apply first_pass_loop; [done | apply loop_inv_init].
Qed.
End ScoringInvariant.

Lemma length_list_ascii_of_string (w : string) :
  length (list_ascii_of_string w) = String.length w.
Proof. induction w as [|c w IH]; simpl; congruence. Qed.

(** C1. For a guess and a target of [WORD_LENGTH] letters each, the two
    passes of [processGuess] give every position exactly one status, one of
    correct, present and absent, and for every letter the positions of the
    guess that hold it and are marked correct or present are no more than
    its occurrences in the target. *)
Theorem score_statuses_bounded (guess target : string) :
  String.length guess = Z.to_nat WORD_LENGTH →
  String.length target = Z.to_nat WORD_LENGTH →
  length (score guess target) = Z.to_nat WORD_LENGTH ∧
  (∀ i, (i < Z.to_nat WORD_LENGTH)%nat →
        ∃ status, score guess target !! i = Some status ∧
                  status ∈ [correct; present; absent] ∧
                  ∀ status', score guess target !! i = Some status' → status' = status) ∧
  (∀ L, (credited L (list_ascii_of_string guess) (score guess target)
         ≤ occurrences L target)%nat).
Proof.
  intros Hg Ht. rewrite <- length_list_ascii_of_string in Hg, Ht.
  destruct (two_passes_inv (list_ascii_of_string guess) (list_ascii_of_string target)
              (Z.to_nat WORD_LENGTH) Hg Ht) as (Hlen & _ & Hmarks & Hcount).
  unfold score, split, positions. split_and!.
  - exact Hlen.
  - intros i Hi. destruct (lookup_lt_is_Some_2 _ i ltac:(rewrite Hlen; exact Hi)) as [status Hs].
    exists status. split_and!; [exact Hs | by apply (Hmarks i) | congruence].
  - intros L. unfold occurrences. rewrite <- (Hcount L). lia.
Qed.

(** * Invariants of the session *)

Ltac unfold_game :=
  unfold step, onKeyDown, onKeyDown_refresh, validation_done, validation_error, run_timer, revealTile,
    checkGameResult, endGameWon, endGameLost, await_saveStats, endGame_resume,
    saveCompleteGameState, resetToNewGame.

(** Turn a goal about the state a call leaves behind into a [wp] goal;
    the second form also asks that the call does not throw. *)
Ltac wp_enter :=
  unfold handle;
  lazymatch goal with
  | |- context [exec ?m ?s] => pattern (exec m s); apply wp_exec
  end.
Ltac wp_enter_normal :=
  unfold handle;
  lazymatch goal with
  | |- context [exec ?m ?s] => pattern (exec m s); apply wp_exec_normal
  end.

(** Branches that a comparison of two literal strings rules out. *)
Ltac wp_absurd :=
  match goal with
  | H : String.eqb _ _ = _ |- _ => vm_compute in H; discriminate H
  end.

(** Compute the fields of a state given by assignments, and nothing else. *)
Ltac fields :=
  cbn [targetWord currentRow currentTile gameOver stats isValidating inputEnabled gameStarted tiles keys message modal localStorage sessionStorage validating timers saving
       with_targetWord with_currentRow with_currentTile with_gameOver with_stats with_isValidating with_inputEnabled with_gameStarted with_tiles
       with_keys with_message with_modal with_localStorage with_sessionStorage with_validating with_timers with_saving
       initial fst snd] in *.

(** Branches whose condition was decided the other way. *)
Ltac wp_false :=
  match goal with
  | H : negb true = true |- _ => discriminate H
  | H : negb false = false |- _ => discriminate H
  | H : true = false |- _ => discriminate H
  | H : false = true |- _ => discriminate H
  end.

(** [createBoard] makes every tile of the board blank and leaves the other
    tiles alone; [createKeyboard] touches the keys only. *)
Lemma wp_createBoard (Q : unit → Session → Prop) E s :
  (∀ m, (∀ id, id ∈ board_ids → m !! id = Some blank_tile) →
        (∀ id, id ∉ board_ids → m !! id = tiles s !! id) → Q () (with_tiles m s)) →
  wp createBoard Q E s.
Proof.
  unfold createBoard. generalize board_ids. intros ids. revert s Q.
  induction ids as [|id ids IH]; intros s Q HQ; simpl.
  - apply wp_skip. replace s with (with_tiles (tiles s) s) by by destruct s.
    apply HQ; [|done]. intros id Hin. by apply elem_of_nil in Hin.
  - wp_run. apply IH. intros m Hin Hout.
    replace (with_tiles m _) with (with_tiles m s) by done.
    apply HQ.
    + intros id' [->|Hid']%elem_of_cons.
      * destruct (decide (id ∈ ids)); [by apply Hin|].
        rewrite Hout by done. simpl. by rewrite lookup_insert_eq.
      * by apply Hin.
    + intros id' Hid'. apply not_elem_of_cons in Hid' as [Hne Hid'].
      rewrite Hout by done. simpl. by rewrite lookup_insert_ne.
Qed.

Lemma wp_createKeyboard (Q : unit → Session → Prop) E s :
  (∀ k, Q () (with_keys k s)) → wp createKeyboard Q E s.
Proof.
  unfold createKeyboard. generalize KEYBOARD_LAYOUT. intros l. revert s Q.
  induction l as [|key l IH]; intros s Q HQ; simpl.
  - apply wp_skip. replace s with (with_keys (keys s) s) by by destruct s. apply HQ.
  - wp_run. apply IH. intros k.
    replace (with_keys k _) with (with_keys k s) by done. apply HQ.
Qed.

Ltac wp_board :=
  lazymatch goal with
  | |- wp createBoard _ _ _ => apply wp_createBoard; intros ? ? ?
  | |- wp createKeyboard _ _ _ => apply wp_createKeyboard; intros ?
  end.

(** * Invariants of the session *)

Ltac wp_call lem :=
  eapply wp_mono; [apply lem; try done | intros ? ? ?; cbn beta in * | intros ? ?; cbn beta in * ].

Ltac use_fields :=
  repeat match goal with
  | H : _ ?s' = _ |- _ => is_var s'; progress (rewrite H in * )
  end.

Ltac cursor_leaf :=
  unfold cursor_ok, WORD_LENGTH, MAX_ATTEMPTS in *; simpl in *; wp_pure;
  repeat match goal with
  | H : isValidating ?s && _ = false |- _ => destruct (isValidating s) eqn:?; simpl in H
  end;
  simplify_eq/=; use_fields; try (split_and!; first [lia | done | naive_solver lia]).

Lemma handleKeyPress_cursor_ok key : keeps cursor_ok (handleKeyPress key).
Proof.
  intros s Hs.
  unfold handleKeyPress, submitGuess, deleteLetter, addLetter. wp_run; try done.
  all: try (apply wp_collect_tile_get; [intros r|]; wp_run).
  all: cursor_leaf.
Qed.

Ltac control_eqs :=
  repeat match goal with
  | H : control _ = control _ |- _ => unfold control in H; simpl in H; simplify_eq
  end.

Ltac wp_loop :=
  lazymatch goal with
  | |- wp (forEach _ _) _ _ _ =>
      apply (wp_forEach_frame control); [intros ? ?; wp_run | intros ? ? | intros ? ?]
  | |- wp (collect _ _) _ _ _ =>
      apply (wp_collect_frame control); [intros ? ?; wp_run | intros ? ? ? | intros ? ?]
  end.

Lemma updateKeyColor_control letter status s :
  wp (updateKeyColor letter status) (λ _ s', control s' = control s)
    (λ s', control s' = control s) s.
Proof. unfold updateKeyColor. wp_run; done. Qed.

Lemma processGuess_control guess s :
  wp (processGuess guess)
    (λ _ s', control s' = control (with_timers (timers s ++ [CheckResult guess]) s))
    (λ _, False) s.
Proof.
  unfold processGuess. wp_run.
  apply (wp_forEach _ _ (λ s', control s' = control s) (λ _, False)); [done| |intros s' Hs'|done].
  - intros i s' Hs'. wp_run. rewrite <- Hs'. unfold control; simpl.
    by rewrite filter_app, filter_cons_False, filter_nil, app_nil_r.
  - wp_run. control_eqs. unfold control; simpl.
    rewrite !filter_app. simpl. congruence.
Qed.

Lemma filter_delete_length {A} (P : A → Prop) `{∀ x, Decision (P x)} (l : list A) n x :
  l !! n = Some x →
  length (filter P l) = (length (filter P (delete n l)) + (if decide (P x) then 1 else 0))%nat.
Proof.
  revert n. induction l as [|y l IH]; intros [|n] Hn; simplify_eq/=.
  - rewrite filter_cons. destruct (decide (P x)); simpl; lia.
  - rewrite !filter_cons. specialize (IH n Hn). destruct (decide (P y)); simpl; lia.
Qed.

Lemma length_delete_Some {A} (l : list A) n x :
  l !! n = Some x → length l = S (length (delete n l)).
Proof.
  intros Hn. rewrite length_delete by eauto.
  apply lookup_lt_Some in Hn. lia.
Qed.

Lemma round_half_even_bounds (q : Q) :
  (q - (1 # 2) <= inject_Z (round_half_even q))%Q ∧
  (inject_Z (round_half_even q) <= q + (1 # 2))%Q.
Proof.
  unfold round_half_even.
  pose proof (Qfloor_le q) as Hlo. pose proof (Qlt_floor q) as Hhi.
  rewrite inject_Z_plus in Hhi. change (inject_Z 1) with 1%Q in Hhi.
  destruct (q - inject_Z (Qfloor q) ?= 1 # 2)%Q eqn:Hc.
  - apply Qeq_alt in Hc.
    destruct (Z.even (Qfloor q)); rewrite ?inject_Z_plus; change (inject_Z 1) with 1%Q;
      split; lra.
  - apply Qlt_alt in Hc. split; lra.
  - apply Qgt_alt in Hc. rewrite inject_Z_plus. change (inject_Z 1) with 1%Q. split; lra.
Qed.

(** The mantissa and the unit of the double nearest to [x * 2^-1074]. *)
Lemma to_double_nonneg_bounds (q : Q) :
  (0 <= q)%Q →
  (0 <= to_double_nonneg q)%Q ∧
  (to_double_nonneg q * inject_Z (2 ^ 1074)
   <= q * inject_Z (2 ^ 1074) * (9007199254740993 # 9007199254740992) + (1 # 2))%Q.
Proof.
  intros Hq. unfold to_double_nonneg.
  set (S := 2 ^ 1074). set (x := (q * inject_Z S)%Q).
  set (shift := Z.max 0 (Z.log2 (Qfloor x) - 52)).
  set (T := 2 ^ shift). set (m := round_half_even (x / inject_Z T)).
  assert (0 < S) as HS by (by apply Z.pow_pos_nonneg).
  assert (0 < T) as HT by (apply Z.pow_pos_nonneg; [done | apply Z.le_max_l]).
  assert (0 < inject_Z S)%Q as HSq by (by rewrite <- (Zlt_Qlt 0)).
  assert (0 < inject_Z T)%Q as HTq by (by rewrite <- (Zlt_Qlt 0)).
  assert (0 <= x)%Q as Hx by (unfold x; nra).
  assert ((x / inject_Z T) * inject_Z T == x)%Q as Hdiv by (field; lra).
  destruct (round_half_even_bounds (x / inject_Z T)) as [Hlo Hhi]. fold m in Hlo, Hhi.
  assert (0 <= x / inject_Z T)%Q as Hy.
  { apply Qle_shift_div_l; [done | lra]. }
  assert (0 ≤ m) as Hm.
  { apply Z.lt_pred_le. rewrite Zlt_Qlt. change (inject_Z (Z.pred 0)) with (-1 # 1)%Q. lra. }
  assert (inject_Z T <= 1 \/ inject_Z T * inject_Z (2 ^ 52) <= x)%Q as Hunit.
  { unfold T, shift. destruct (Z.max_spec 0 (Z.log2 (Qfloor x) - 52)) as [[Hpos ->]|[Hneg ->]].
    - right. assert (0 < Qfloor x) as Hfl.
      { destruct (Z.lt_ge_cases 0 (Qfloor x)) as [|Hle]; [done|].
        rewrite (Z.log2_nonpos _ Hle) in Hpos. lia. }
      pose proof (proj1 (Z.log2_spec _ Hfl)) as Hlog.
      rewrite <- inject_Z_mult, <- Z.pow_add_r by lia.
      replace (Z.log2 (Qfloor x) - 52 + 52) with (Z.log2 (Qfloor x)) by lia.
      eapply Qle_trans; [|apply Qfloor_le]. by rewrite <- Zle_Qle.
    - left. done. }
  rewrite inject_Z_mult. split.
  - apply Qle_shift_div_l; [done|]. rewrite Qmult_0_l.
    apply Qmult_le_0_compat; [|lra]. by rewrite <- (Zle_Qle 0).
  - assert (inject_Z m * inject_Z T / inject_Z S * inject_Z S
            == inject_Z m * inject_Z T)%Q as -> by (field; lra).
    assert (inject_Z m * inject_Z T <= x + inject_Z T * (1 # 2))%Q as Hmt by nra.
    change (inject_Z (2 ^ 52)) with (4503599627370496 # 1)%Q in Hunit.
    fold x. clearbody x m T S. clear Hdiv Hlo Hhi Hy.
    generalize dependent (inject_Z m * inject_Z T)%Q. generalize dependent (inject_Z T).
    intros t _ Hunit a Ha. destruct Hunit as [Hunit|Hunit]; lra.
Qed.

Lemma to_double_of_nonneg (q : Q) : (0 <= q)%Q → to_double q = to_double_nonneg q.
Proof. intros Hq. unfold to_double. by rewrite (proj2 (Qle_bool_iff 0 q) Hq). Qed.

(** The doubles below 1 end at [1 - 2^-53]. *)
Lemma double_below_one (q : Q) :
  (0 <= q)%Q → (q < 1)%Q → is_double q = true →
  (q <= 9007199254740991 # 9007199254740992)%Q.
Proof.
  intros H0 H1 Hd. destruct (Qlt_le_dec (1 # 2) q) as [Hhalf|Hhalf]; [|lra].
  apply Qeq_bool_iff in Hd. rewrite to_double_of_nonneg in Hd by done.
  unfold to_double_nonneg in Hd.
  replace (2 ^ 1074) with (2 ^ 1021 * 2 ^ 53) in Hd by (by rewrite <- Z.pow_add_r).
  set (T := 2 ^ 1021) in *. set (x := (q * inject_Z (T * 2 ^ 53))%Q) in *.
  assert (0 < T) as HT by (by apply Z.pow_pos_nonneg).
  assert (0 < inject_Z T)%Q as HTq by (by rewrite <- (Zlt_Qlt 0)).
  assert (x == q * inject_Z T * (9007199254740992 # 1))%Q as Hxq.
  { unfold x. rewrite (inject_Z_mult T (2 ^ 53)). change (inject_Z (2 ^ 53)) with (9007199254740992 # 1)%Q.
    ring. }
  assert (Z.log2 (Qfloor x) = 1073) as Hlog.
  { apply Z.log2_unique; [done|]. change (Z.succ 1073) with 1074.
    replace (2 ^ 1074) with (T * 2 ^ 53) by (unfold T; by rewrite <- Z.pow_add_r).
    replace (2 ^ 1073) with (T * 2 ^ 52) by (unfold T; by rewrite <- Z.pow_add_r).
    split.
    - rewrite <- (Qfloor_Z (T * 2 ^ 52)). apply Qfloor_resp_le.
      rewrite (inject_Z_mult T (2 ^ 52)). change (inject_Z (2 ^ 52)) with (4503599627370496 # 1)%Q.
      rewrite Hxq. nra.
    - rewrite Zlt_Qlt. eapply Qle_lt_trans; [apply Qfloor_le|].
      rewrite (inject_Z_mult T (2 ^ 53)). change (inject_Z (2 ^ 53)) with (9007199254740992 # 1)%Q.
      rewrite Hxq. nra. }
  rewrite Hlog in Hd. change (0 `max` (1073 - 52)) with 1021 in Hd. fold T in Hd.
  set (m := round_half_even (x / inject_Z T)) in *.
  assert (inject_Z m == q * (9007199254740992 # 1))%Q as Hm.
  { rewrite !inject_Z_mult in Hd.
    change (inject_Z (2 ^ 53)) with (9007199254740992 # 1)%Q in Hd.
    assert (inject_Z m * inject_Z T == q * (9007199254740992 # 1) * inject_Z T)%Q as Hmt.
    { rewrite <- Hd. field. lra. }
    by apply Qmult_inj_r in Hmt; [|lra]. }
  assert (m ≤ 9007199254740991) as Hle.
  { apply Z.lt_succ_r. rewrite Zlt_Qlt, Hm.
    change (inject_Z (Z.succ 9007199254740991)) with (9007199254740992 # 1)%Q. lra. }
  rewrite Zle_Qle, Hm in Hle.
  change (inject_Z 9007199254740991) with (9007199254740991 # 1)%Q in Hle. lra.
Qed.

(** The product of a double below 1 and 40 rounds to a double below 40. *)
Lemma to_double_times_40 (q : Q) :
  (0 <= q)%Q → (q <= 9007199254740991 # 9007199254740992)%Q →
  (0 <= to_double (q * (40 # 1)) ∧ to_double (q * (40 # 1)) < 40 # 1)%Q.
Proof.
  intros H0 H1. rewrite to_double_of_nonneg by nra.
  destruct (to_double_nonneg_bounds (q * (40 # 1))) as [Hlo Hhi]; [nra|].
  split; [done|].
  set (R := to_double_nonneg (q * (40 # 1))) in *.
  assert (2 ^ 106 ≤ 2 ^ 1074) as HS by (by apply Z.pow_le_mono_r).
  rewrite Zle_Qle in HS.
  change (inject_Z (2 ^ 106)) with (81129638414606681695789005144064 # 1)%Q in HS.
  generalize dependent (inject_Z (2 ^ 1074)). intros S Hhi HS.
  assert (q * S <= (9007199254740991 # 9007199254740992) * S)%Q as Hq.
  { apply Qmult_le_compat_r; lra. }
  destruct (Qlt_le_dec R (40 # 1)) as [|Hge]; [done|]. exfalso.
  assert ((40 # 1) * S <= R * S)%Q as HR by (apply Qmult_le_compat_r; lra).
  lra.
Qed.

Lemma random_index_range random :
  in_unit_interval random → 0 ≤ random_index random < Z.of_nat (length WORDS).
Proof.
  intros (H0 & H1 & Hd). unfold random_index.
  change (inject_Z (Z.of_nat (length WORDS))) with (40 # 1)%Q.
  destruct (to_double_times_40 random H0 (double_below_one _ H0 H1 Hd)) as [Hlo Hhi].
  split.
  - change 0 with (Qfloor 0). by apply Qfloor_resp_le.
  - rewrite Zlt_Qlt. eapply Qle_lt_trans; [apply Qfloor_le | exact Hhi].
Qed.

Lemma random_word_WORDS random : in_unit_interval random → random_word random ∈ WORDS.
Proof.
  intros Hr. destruct (random_index_range random Hr) as [Hge Hlt]. unfold random_word.
  rewrite bool_decide_eq_true_2 by done.
  destruct (lookup_lt_is_Some_2 WORDS (Z.to_nat (random_index random))) as [w Hw]; [lia|].
  rewrite Hw. simpl. by eapply list_elem_of_lookup_2.
Qed.

Ltac wp_all :=
  repeat first [wp_loop | progress wp_run | progress control_eqs].

Ltac gate_leaf :=
  unfold gate_ok, pipelines in *; simpl in *; wp_pure;
  repeat match goal with
  | H : timers _ !! _ = Some _ |- _ =>
      pose proof (filter_delete_length (λ t, is_CheckResult t = true) _ _ _ H);
      apply length_delete_Some in H
  | H : validating _ !! _ = Some _ |- _ => apply length_delete_Some in H
  end;
  use_fields;
  repeat match goal with
  | H : filter _ (timers ?s') = _ |- _ => is_var s'; rewrite H in *; clear H
  end;
  rewrite ?filter_app, ?length_app in *; simpl in *;
  repeat case_match; simplify_eq/=; try lia.

Section Invariants.
Context (JSON_stringify : gameState.t → string) (JSON_stringify_stats : Stats → string)
  (saveStatsToSupabase_defined : bool).

#[local] Abbreviation step := (step JSON_stringify JSON_stringify_stats saveStatsToSupabase_defined).
#[local] Abbreviation handle := (handle JSON_stringify JSON_stringify_stats saveStatsToSupabase_defined).
#[local] Abbreviation run := (run JSON_stringify JSON_stringify_stats saveStatsToSupabase_defined).

Lemma step_cursor_ok e : keeps cursor_ok (step e).
Proof.
  intros s Hs. destruct e; unfold_game; wp_run.
  all: try done.
  all: try (wp_call handleKeyPress_cursor_ok; wp_run; try done).
  all: try (wp_call processGuess_control; [control_eqs|done]).
  all: try (wp_call updateKeyColor_control; control_eqs).
  all: wp_all.
  all: try (wp_call updateKeyColor_control; control_eqs).
  all: try (unfold control; simpl; done).
  all: try cursor_leaf.
Qed.

Lemma handleKeyPress_targetWord key s :
  wp (handleKeyPress key) (λ _ s', targetWord s' = targetWord s)
    (λ s', targetWord s' = targetWord s) s.
Proof.
  unfold handleKeyPress, submitGuess, deleteLetter, addLetter. wp_run; try done.
  all: try (apply wp_collect_tile_get; [intros r|]; wp_run); done.
Qed.

(** Only a new game assigns the target word. *)
Lemma step_targetWord e s :
  is_NewGame e = false →
  wp (step e) (λ _ s', targetWord s' = targetWord s) (λ s', targetWord s' = targetWord s) s.
Proof.
  intros He. destruct e; try done; unfold_game; wp_run.
  all: try done.
  all: try (wp_call handleKeyPress_targetWord; wp_run; try done).
  all: try (wp_call processGuess_control; [control_eqs|done]).
  all: try (wp_call updateKeyColor_control; control_eqs).
  all: wp_all.
  all: try (wp_call updateKeyColor_control; control_eqs).
  all: try (unfold control; simpl; done).
  all: simpl; congruence.
Qed.

Lemma step_target_WORDS e :
  well_formed_event e → keeps (λ s, targetWord s ∈ WORDS) (step e).
Proof.
  intros He s Hs. destruct (is_NewGame e) eqn:Hnew.
  - destruct e; try done. simpl in He. unfold_game. wp_run; wp_all.
    all: try (unfold control; simpl; done).
    all: simpl; use_fields; by apply random_word_WORDS.
  - eapply wp_mono; [by apply step_targetWord|..]; simpl; congruence.
Qed.
Lemma handleKeyPress_gate_ok key : keeps gate_ok (handleKeyPress key).
Proof.
  intros s Hs.
  unfold handleKeyPress, submitGuess, deleteLetter, addLetter. wp_run; try done.
  all: try (apply wp_collect_tile_get; [intros r|]; wp_run).
  all: gate_leaf.
Qed.

(** Without a reset in between, every handler keeps the gate in step with
    the pipelines. *)
Lemma step_gate_ok e : is_NewGame e = false → keeps gate_ok (step e).
Proof.
  intros He s Hs. destruct e; try done; unfold_game; wp_run.
  all: try done.
  all: try (wp_call handleKeyPress_gate_ok; wp_run; try done).
  all: try (wp_call processGuess_control; [control_eqs|done]).
  all: try (wp_call updateKeyColor_control; control_eqs).
  all: wp_all.
  all: try (wp_call updateKeyColor_control; control_eqs).
  all: try (unfold control; simpl; done).
  all: gate_leaf.
Qed.
End Invariants.

(** * The input gate and the end of a game *)

Section Theorems.
Context (JSON_stringify : gameState.t → string) (JSON_stringify_stats : Stats → string)
  (saveStatsToSupabase_defined : bool).

#[local] Abbreviation step := (step JSON_stringify JSON_stringify_stats saveStatsToSupabase_defined).
#[local] Abbreviation handle := (handle JSON_stringify JSON_stringify_stats saveStatsToSupabase_defined).
#[local] Abbreviation run := (run JSON_stringify JSON_stringify_stats saveStatsToSupabase_defined).

Lemma fresh_cursor_ok s : fresh s → cursor_ok s.
Proof. intros (Hr & Ht & _ & Hv & _). unfold cursor_ok. rewrite Hr, Ht, Hv. done. Qed.

Lemma fresh_gate_ok s : fresh s → gate_ok s.
Proof.
  intros (_ & _ & _ & Hv & Hp & Hti & _). unfold gate_ok, pipelines.
  by rewrite Hv, Hp, Hti.
Qed.

Lemma run_snoc s events e : run s (events ++ [e]) = handle (run s events) e.
Proof. unfold run. by rewrite foldl_app. Qed.

Lemma run_cursor_ok s events : cursor_ok s → cursor_ok (run s events).
Proof.
  intros Hs. induction events as [|e events IH] using rev_ind; [done|].
  rewrite run_snoc. unfold handle. by apply wp_exec, step_cursor_ok.
Qed.

Lemma run_gate_ok s events :
  Forall (λ e, is_NewGame e = false) events → gate_ok s → gate_ok (run s events).
Proof.
  intros Hev Hs. induction events as [|e events IH] using rev_ind; [done|].
  apply Forall_app in Hev as [Hev He]. apply Forall_inv in He.
  rewrite run_snoc. unfold handle. apply wp_exec, step_gate_ok; [exact He | by apply IH].
Qed.

Lemma run_target_WORDS s events :
  Forall well_formed_event events → targetWord s ∈ WORDS → targetWord (run s events) ∈ WORDS.
Proof.
  intros Hev Hs. induction events as [|e events IH] using rev_ind; [done|].
  apply Forall_app in Hev as [Hev He]. apply Forall_inv in He.
  rewrite run_snoc. unfold handle.
  apply (wp_exec _ (λ s, targetWord s ∈ WORDS)), step_target_WORDS; [exact He | by apply IH].
Qed.

(** While the gate is shut on a full row, a key changes nothing, whatever
    the key. *)
Lemma handleKeyPress_shut key s :
  isValidating s = true → currentTile s = WORD_LENGTH → exec (handleKeyPress key) s = s.
Proof.
  intros Hv Ht. apply (wp_exec _ (λ s', s' = s)).
  unfold handleKeyPress, submitGuess. wp_run; try done.
  all: wp_pure; simpl in *; try congruence; try lia.
  all: rewrite Hv in *; simpl in *; congruence.
Qed.

Lemma onKeyDown_shut tagName key s :
  isValidating s = true → currentTile s = WORD_LENGTH → exec (onKeyDown tagName key) s = s.
Proof.
  intros Hv Ht. unfold onKeyDown, exec.
  destruct (_ || _); [done|]. unfold mbind, JS_bind, read. simpl.
  destruct (gameOver s); [done|]. destruct (inputEnabled s); [|done]. simpl.
  rewrite Hv. simpl. destruct (String.eqb key "Enter"); [done|].
  destruct (String.eqb key "Backspace"); [by apply handleKeyPress_shut|].
  destruct (is_letter_key key); [by apply handleKeyPress_shut|done].
Qed.

(** C3. A submitted guess that the word check answers with [false], or
    whose check fails with an error, is not consumed: the row, the cursor,
    the tiles, the statistics and the terminal flag are as they were, and
    the same handler reopens the gate. *)
Theorem rejected_guess_not_consumed (s : Session) (n : nat) (guess : string) (e : Event) :
  validating s !! n = Some guess →
  e = WordChecked n false ∨ e = WordCheckFailed n →
  let s' := handle s e in
  currentRow s' = currentRow s ∧ currentTile s' = currentTile s ∧
  tiles s' = tiles s ∧ stats s' = stats s ∧ gameOver s' = gameOver s ∧
  isValidating s' = false.
Proof.
  intros Hn He s'. subst s'. wp_enter_normal.
  destruct He as [-> | ->]; unfold step, validation_done, validation_error;
    wp_run; simplify_eq; done.
Qed.

(** C5. When the result check finds the guess equal to the target word the
    session is won: [gamesPlayed], [gamesWon] and [currentStreak] grow by
    one and [maxStreak] becomes the larger of its old value and the new
    streak.  The counters are taken among the safe integers, where the
    increments of the code are exact. *)
Theorem won_updates_stats (s : Session) (n : nat) (guess : string) :
  timers s !! n = Some (CheckResult guess) →
  guess = targetWord s →
  safe_integer (gamesPlayed (stats s)) →
  safe_integer (gamesWon (stats s)) →
  safe_integer (currentStreak (stats s)) →
  let s' := handle s (TimerFired n) in
  gameOver s' = true ∧
  gamesPlayed (stats s') = gamesPlayed (stats s) + 1 ∧
  gamesWon (stats s') = gamesWon (stats s) + 1 ∧
  currentStreak (stats s') = currentStreak (stats s) + 1 ∧
  maxStreak (stats s') = Z.max (maxStreak (stats s)) (currentStreak (stats s')).
Proof.
  intros Hn -> _ _ _ s'. subst s'. wp_enter_normal.
  unfold step, run_timer, checkGameResult, endGameWon, await_saveStats, endGame_resume.
  wp_run; simplify_eq; try done.
  all: simpl in *; by rewrite String.eqb_refl in *.
Qed.

(** C6. When the result check of the last attempt finds the guess different
    from the target word the session is lost: [gamesPlayed] grows by one,
    [currentStreak] becomes 0, [gamesWon] and [maxStreak] stay.  The counter
    is taken among the safe integers, where the increment of the code is
    exact. *)
Theorem lost_updates_stats (s : Session) (n : nat) (guess : string) :
  timers s !! n = Some (CheckResult guess) →
  guess ≠ targetWord s →
  currentRow s = MAX_ATTEMPTS - 1 →
  safe_integer (gamesPlayed (stats s)) →
  let s' := handle s (TimerFired n) in
  gameOver s' = true ∧
  gamesPlayed (stats s') = gamesPlayed (stats s) + 1 ∧
  currentStreak (stats s') = 0 ∧
  gamesWon (stats s') = gamesWon (stats s) ∧
  maxStreak (stats s') = maxStreak (stats s).
Proof.
  intros Hn Hne Hrow _ s'. subst s'. wp_enter_normal.
  unfold step, run_timer, checkGameResult, endGameLost, await_saveStats, endGame_resume.
  wp_run; simplify_eq; try done.
  all: simpl in *; wp_pure; try done.
  all: apply String.eqb_eq in Hb; done.
Qed.

Lemma deleteLetter_at_start s : currentTile s = 0 → exec deleteLetter s = s.
Proof.
  intros Ht. apply (wp_exec _ (λ s', s' = s)). unfold deleteLetter.
  wp_run; wp_pure; solve [done | lia].
Qed.

Lemma addLetter_at_end letter s : currentTile s = WORD_LENGTH → exec (addLetter letter) s = s.
Proof.
  intros Ht. apply (wp_exec _ (λ s', s' = s)). unfold addLetter.
  wp_run; wp_pure; solve [done | lia].
Qed.

(** C4. From a fresh session, whatever keys are pressed and however the
    submitted guesses are answered and scored, the cursor stays in
    [0, WORD_LENGTH] and, while the game is not over, the row stays in
    [0, MAX_ATTEMPTS); deleting at cursor 0 and adding at a full cursor
    change nothing. *)
Theorem cursor_bounds (s0 : Session) (events : list Event) :
  fresh s0 →
  let s := run s0 events in
  0 ≤ currentTile s ≤ WORD_LENGTH ∧
  (gameOver s = false → 0 ≤ currentRow s < MAX_ATTEMPTS) ∧
  (currentTile s = 0 → exec deleteLetter s = s) ∧
  (currentTile s = WORD_LENGTH → ∀ letter, exec (addLetter letter) s = s).
Proof.
  intros Hs0 s. destruct (run_cursor_ok s0 events (fresh_cursor_ok _ Hs0)) as (Ht & Hr & _).
  split_and!; [apply Ht.. | done | apply deleteLetter_at_start | ].
  intros ? ?. by apply addLetter_at_end.
Qed.

Lemma handleKeyPress_ENTER_shut s :
  isValidating s = true → exec (handleKeyPress "ENTER") s = s.
Proof.
  intros Hv. apply (wp_exec _ (λ s', s' = s)).
  unfold handleKeyPress. wp_run; try done.
  all: rewrite Hv in *; done.
Qed.


(** An ENTER that shuts the gate has handed the text of the current row to
    the word check, and nothing else. *)
Lemma handleKeyPress_ENTER_accepted s :
  isValidating s = false →
  isValidating (exec (handleKeyPress "ENTER") s) = true →
  ∃ guess, row_guess s = Some guess ∧
    validating (exec (handleKeyPress "ENTER") s) = validating s ++ [guess].
Proof.
  intros Hv. apply (wp_exec _ (λ s', isValidating s' = true → ∃ guess, _ ∧ validating s' = _)).
  unfold handleKeyPress, submitGuess. wp_run; try (simpl; congruence); try wp_absurd.
  apply (wp_collect_tile_get_mapM _ (pair (currentRow s)) (λ _, textContent));
    [|simpl; congruence].
  intros letters Hletters. wp_run; [simpl; congruence|].
  intros _. exists (foldl append "" letters). split; [|done].
  unfold row_guess. by rewrite Hletters.
Qed.

(** A key that goes down runs the typing listener and then the listener
    that guards the reload keys. *)
Lemma handle_KeyDown tagName key ctrlKey metaKey shiftKey s :
  handle s (KeyDown tagName key ctrlKey metaKey shiftKey)
  = exec (onKeyDown_refresh key ctrlKey metaKey shiftKey) (exec (onKeyDown tagName key) s).
Proof.
  unfold handle, exec. cbn [step]. unfold mbind, JS_bind, try_catch, skip, mret, JS_ret.
  by destruct (onKeyDown tagName key s) as [[[]|] s'].
Qed.

(** The guard of the reload keys shows its message or does nothing. *)
Lemma onKeyDown_refresh_cases key ctrlKey metaKey shiftKey s :
  exec (onKeyDown_refresh key ctrlKey metaKey shiftKey) s = s ∨
  exec (onKeyDown_refresh key ctrlKey metaKey shiftKey) s
  = with_timers (timers s ++ [HideMessage])
      (with_message ("🚫 Cannot refresh during game", true) s).
Proof.
  pattern (exec (onKeyDown_refresh key ctrlKey metaKey shiftKey) s) at 1 2.
  apply wp_exec_normal. unfold onKeyDown_refresh. wp_run; auto.
Qed.


(** C9. In any run from a session whose cursors are in range and whose
    gate is shut only on a full row, resets included, the gate stays shut
    only on a full row; so while a validation is under way and the game is
    not over no key changes the row: ENTER and the erase key are refused by
    the gate, a letter by the full cursor.  A key of the screen changes
    nothing at all; a key of the keyboard can at most bring up the message
    of the reload keys. *)
Theorem validating_row_full (s0 : Session) (events : list Event) :
  cursor_ok s0 →
  let s := run s0 events in
  isValidating s = true → gameOver s = false →
  currentTile s = WORD_LENGTH ∧
  (∀ key, handle s (Click key) = s) ∧
  (∀ tagName key ctrlKey metaKey shiftKey,
     handle s (KeyDown tagName key ctrlKey metaKey shiftKey) = s ∨
     handle s (KeyDown tagName key ctrlKey metaKey shiftKey)
     = with_timers (timers s ++ [HideMessage])
         (with_message ("🚫 Cannot refresh during game", true) s)) ∧
  (∀ letter, exec (addLetter letter) s = s).
Proof.
  intros Hs0 s Hv Hover.
  destruct (run_cursor_ok s0 events Hs0) as (_ & _ & Hfull).
  specialize (Hfull Hv). split_and!; [done| | |].
  - intros key. by apply handleKeyPress_shut.
  - intros tagName key ctrlKey metaKey shiftKey.
    rewrite handle_KeyDown, onKeyDown_shut by done. apply onKeyDown_refresh_cases.
  - intros letter. by apply addLetter_at_end.
Qed.
End Theorems.

(** * Snapshots *)

(** * Snapshots *)

Lemma set_content_className (t : Tile) (b : boardTile.t) :
  set_className (boardTile.className b) (set_textContent (boardTile.content b) t)
  = {| textContent := boardTile.content b; className := boardTile.className b |}.
Proof. done. Qed.

Section Snapshots.
Context (JSON_parse : string → option gameState.t) (JSON_stringify : gameState.t → string).

#[local] Abbreviation saveCompleteGameState := (saveCompleteGameState JSON_stringify).
#[local] Abbreviation restoreGameState := (restoreGameState JSON_parse).

Lemma saveCompleteGameState_started now s :
  gameStarted s = true → gameOver s = false → board_complete s →
  saveCompleteGameState now s
  = (Normal (),
     with_localStorage
       (<[ACTIVE_GAME_KEY := "true"]>
          (<[GAME_STATE_KEY := JSON_stringify (snapshot now s)]> (localStorage s))) s).
Proof.
  intros Hst Hov Hb. apply wp_returns. unfold saveCompleteGameState.
  wp_run; [|by rewrite Hst, Hov in *].
  apply (wp_collect_tile_get_all board_ids (λ id, id) boardTile_of); [done|].
  wp_run. split; [done|]. unfold snapshot. simpl. by rewrite Hov.
Qed.

(** Outside a started, unfinished game nothing is written. *)
Lemma saveCompleteGameState_idle now s :
  gameStarted s && negb (gameOver s) = false → saveCompleteGameState now s = (Normal (), s).
Proof.
  intros H. apply wp_returns. unfold saveCompleteGameState.
  wp_run; [congruence | done].
Qed.

(** The loop of [restoreGameState] over entries that were read off the
    tiles [old]: it overwrites the tiles that exist and skips the others. *)
Lemma wp_restore_loop (old : gmap (Z * Z) Tile) (ids : list (Z * Z))
    (Q : unit → Session → Prop) E s :
  (∀ m, (∀ id, m !! id =
               if bool_decide (id ∈ ids ∧ is_Some (tiles s !! id))
               then Some (old !!! id) else tiles s !! id) →
        Q () (with_tiles m s)) →
  wp (forEach ((λ id, boardTile_of id (old !!! id)) <$> ids)
        (λ tile,
           let id := (boardTile.row tile, boardTile.col tile) in
           board ← read tiles;
           match board !! id with
           | Some _ =>
               tile_update id (set_textContent (boardTile.content tile)) ;;
               tile_update id (set_className (boardTile.className tile))
           | None => skip
           end)) Q E s.
Proof.
  revert s Q. induction ids as [|[i j] ids IH]; intros s Q HQ.
  - apply wp_skip. replace s with (with_tiles (tiles s) s) by by destruct s.
    apply HQ. intros id. rewrite bool_decide_eq_false_2; [done|].
    intros [Hin _]. by apply elem_of_nil in Hin.
  - rewrite fmap_cons. simpl forEach. apply wp_bind. cbn zeta. simpl boardTile.row.
    simpl boardTile.col. simpl boardTile.content. simpl boardTile.className.
    wp_run.
    + simpl in *. rewrite lookup_insert_eq in Htile0. simplify_eq.
      apply IH. intros m Hm.
      replace (with_tiles m _) with (with_tiles m s) by done.
      apply HQ. intros id. rewrite Hm. simpl. rewrite insert_insert_eq.
      destruct (decide (id = (i, j))) as [->|Hne].
      * rewrite lookup_insert_eq.
        rewrite (bool_decide_eq_true_2 (_ ∈ (i, j) :: ids ∧ _)) by (split; [apply elem_of_cons; auto | eauto]).
        case_bool_decide; [done|]. simpl. by destruct (old !!! (i, j)).
      * rewrite lookup_insert_ne by done.
        apply bool_decide_ext_if. rewrite elem_of_cons. naive_solver.
    + simpl in *. by rewrite lookup_insert_eq in Htile0.
    + congruence.
    + apply IH. intros m Hm. apply HQ. intros id. rewrite Hm.
      destruct (decide (id = (i, j))) as [->|Hne].
      * rewrite Hb. rewrite !bool_decide_eq_false_2; [done|..]; intros [_ []]; done.
      * apply bool_decide_ext_if. rewrite elem_of_cons. naive_solver.
Qed.

(** What [restoreGameState] does with a snapshot that [saveCompleteGameState]
    wrote in session [s0]. *)
Lemma wp_restoreGameState_snapshot now s0 s (Q : bool → Session → Prop) E :
  JSON_parse (JSON_stringify (snapshot now s0)) = Some (snapshot now s0) →
  JSON_stringify (snapshot now s0) ≠ "" →
  localStorage s !! GAME_STATE_KEY = Some (JSON_stringify (snapshot now s0)) →
  localStorage s !! ACTIVE_GAME_KEY = Some "true" →
  (∀ s', targetWord s' = targetWord s0 → currentRow s' = currentRow s0 →
         currentTile s' = currentTile s0 → gameOver s' = gameOver s0 →
         gameStarted s' = true → localStorage s' = localStorage s →
         sessionStorage s' = sessionStorage s →
         (∀ id, tiles s' !! id =
                if bool_decide (id ∈ board_ids ∧ is_Some (tiles s !! id))
                then Some (tiles s0 !!! id) else tiles s !! id) →
         Q true s') →
  wp restoreGameState Q E s.
Proof.
  intros Hparse Hne Hstate Hactive HQ. unfold restoreGameState.
  do 2 (apply wp_bind, wp_read). rewrite Hstate, Hactive.
  change (default "" (Some ?x)) with x. rewrite Hparse.
  rewrite bool_decide_eq_true_2 by done.
  replace (truthy _) with true
    by (symmetry; by apply negb_true_iff, String.eqb_neq).
  cbn [andb gameState.boardState snapshot].
  wp_run. apply wp_restore_loop. intros m Hm. wp_run. apply HQ; done.
Qed.
End Snapshots.

Section Restore.
Context (JSON_parse : string → option gameState.t) (JSON_stringify : gameState.t → string)
  (SESSION_ID : string).

#[local] Abbreviation saveCompleteGameState := (saveCompleteGameState JSON_stringify).
#[local] Abbreviation restoreGameState := (restoreGameState JSON_parse).
#[local] Abbreviation initSessionProtection := (initSessionProtection JSON_parse SESSION_ID).
#[local] Abbreviation boot := (boot JSON_parse SESSION_ID).

(** The two functions round-trip through storage when the document that
    restores holds the tiles of the board. *)
Lemma save_restore_roundtrip (now : Z) (s s' : Session) :
  (∀ g, JSON_parse (JSON_stringify g) = Some g) → (∀ g, JSON_stringify g ≠ "") →
  gameStarted s = true → gameOver s = false → board_complete s →
  localStorage s' = localStorage (exec (saveCompleteGameState now) s) →
  board_complete s' →
  ∃ s'', restoreGameState s' = (Normal true, s'') ∧
    targetWord s'' = targetWord s ∧ currentRow s'' = currentRow s ∧
    currentTile s'' = currentTile s ∧ gameOver s'' = gameOver s ∧
    ∀ id, id ∈ board_ids → tiles s'' !! id = tiles s !! id.
Proof.
  intros Hlaw Hne Hst Hov Hb Hls Hb'.
  unfold exec in Hls. rewrite saveCompleteGameState_started in Hls by done. simpl in Hls.
  destruct (wp_result restoreGameState
    (λ r s'', r = true ∧ targetWord s'' = targetWord s ∧ currentRow s'' = currentRow s ∧
       currentTile s'' = currentTile s ∧ gameOver s'' = gameOver s ∧
       ∀ id, id ∈ board_ids → tiles s'' !! id = tiles s !! id) s') as (r & s'' & Hr & -> & H);
    [|by eauto].
  apply (wp_restoreGameState_snapshot JSON_parse JSON_stringify now s); [done..| | |].
  - rewrite Hls. rewrite lookup_insert_ne by done. by rewrite lookup_insert_eq.
  - rewrite Hls. by rewrite lookup_insert_eq.
  - intros s'' ? ? ? ? _ _ _ Htiles. split_and!; try done.
    intros id Hid. rewrite Htiles. rewrite bool_decide_eq_true_2 by (split; auto).
    destruct (Hb id Hid) as [t Ht]. by rewrite (lookup_total_correct _ _ _ Ht).
Qed.

(** C7. The claim asks that a snapshot, once restored, gives back the
    target word, the row, the cursor and the tiles.  The two functions do so
    in a document that holds the tiles (the lemma above); but the page calls
    [restoreGameState] before [createBoard], in a document without tiles:
    the variables come back, every tile is skipped, and the board is then
    created blank. *)
Theorem boot_after_save (now : Z) (s : Session) random loaded session :
  (∀ g, JSON_parse (JSON_stringify g) = Some g) → (∀ g, JSON_stringify g ≠ "") →
  gameStarted s = true → gameOver s = false → board_complete s →
  session !! SESSION_KEY = None →
  let s' := boot random loaded (localStorage (exec (saveCompleteGameState now) s)) session in
  targetWord s' = targetWord s ∧ currentRow s' = currentRow s ∧
  currentTile s' = currentTile s ∧ gameStarted s' = true ∧
  ∀ id, id ∈ board_ids → tiles s' !! id = Some blank_tile.
Proof.
  intros Hlaw Hne Hst Hov Hb Hsess s'. subst s'.
  assert (exec (saveCompleteGameState now) s
          = with_localStorage
              (<[ACTIVE_GAME_KEY := "true"]>
                 (<[GAME_STATE_KEY := JSON_stringify (snapshot now s)]> (localStorage s))) s)
    as -> by (unfold exec; by rewrite saveCompleteGameState_started).
  unfold boot. wp_enter_normal.
  unfold initGame, initSessionProtection. wp_run.
  2:{ fields. rewrite Hsess in Hb0. discriminate Hb0. }
  eapply (wp_restoreGameState_snapshot JSON_parse JSON_stringify now s); [done..| | |].
  - fields. rewrite lookup_insert_ne by done. by rewrite lookup_insert_eq.
  - fields. by rewrite lookup_insert_eq.
  - intros s1 ? ? ? ? ? _ _ Htiles. wp_run; try wp_false.
    apply wp_createBoard. intros m Hin Hout. apply wp_createKeyboard. intros k.
    fields. split_and!; auto.
Qed.
End Restore.

Section Corrupt.
Context (JSON_parse : string → option gameState.t) (SESSION_ID : string).

#[local] Abbreviation initSessionProtection := (initSessionProtection JSON_parse SESSION_ID).

(** A stored text that [JSON.parse] rejects: the variables keep their
    values, and snapshot and marker are removed. *)
Lemma initSessionProtection_unparseable (s : Session) (text : string) :
  sessionStorage s !! SESSION_KEY = None →
  localStorage s !! ACTIVE_GAME_KEY = Some "true" →
  localStorage s !! GAME_STATE_KEY = Some text →
  JSON_parse text = None →
  gameStarted s = false →
  exec initSessionProtection s
  = with_localStorage (delete ACTIVE_GAME_KEY (delete GAME_STATE_KEY (localStorage s)))
      (with_sessionStorage (<[SESSION_KEY := SESSION_ID]> (sessionStorage s)) s).
Proof.
  intros Hsess Hactive Hstate Hparse Hstarted.
  wp_enter_normal.
  unfold initSessionProtection, restoreGameState. wp_run; fields.
  all: rewrite ?Hsess, ?Hstate, ?Hactive in *; cbn [default from_option id truthy] in *.
  all: try wp_false; try congruence.
  all: unfold with_localStorage, with_gameStarted, with_sessionStorage; fields.
  all: by rewrite Hstarted.
Qed.

(** C2. The claim asks that a snapshot which fails to restore leaves the
    session as it was.  The code does so for a text that does not parse (the
    lemma above), not for one that parses to an object without [boardState]:
    the four variables are assigned before the loop throws and stay
    assigned, while snapshot and marker are removed. *)
Theorem initSessionProtection_half_applies (s : Session) (text : string) (state : gameState.t) :
  sessionStorage s !! SESSION_KEY = None →
  localStorage s !! ACTIVE_GAME_KEY = Some "true" →
  localStorage s !! GAME_STATE_KEY = Some text →
  text ≠ "" →
  JSON_parse text = Some state →
  gameState.boardState state = None →
  let s' := exec initSessionProtection s in
  targetWord s' = gameState.targetWord state ∧
  currentRow s' = gameState.currentRow state ∧
  currentTile s' = gameState.currentTile state ∧
  gameOver s' = gameState.gameOver state ∧
  tiles s' = tiles s ∧
  localStorage s' !! GAME_STATE_KEY = None ∧
  localStorage s' !! ACTIVE_GAME_KEY = None.
Proof.
  intros Hsess Hactive Hstate Hne Hparse Hboard s'. subst s'.
  wp_enter_normal.
  unfold initSessionProtection, restoreGameState. wp_run; fields.
  all: rewrite ?Hsess, ?Hstate, ?Hactive in *; cbn [default from_option id truthy] in *.
  all: try wp_false; try congruence.
  - rewrite Hparse in Hx. injection Hx as <-. split_and!; try done.
    + rewrite lookup_delete_ne by done. by rewrite lookup_delete_eq.
    + by rewrite lookup_delete_eq.
  - rewrite bool_decide_eq_true_2 in Hb0 by done. cbn [andb] in Hb0.
    apply negb_false_iff, String.eqb_eq in Hb0. done.
Qed.
End Corrupt.

(** * The target word *)

Section Boot.
Context (JSON_parse : string → option gameState.t) (JSON_stringify : gameState.t → string)
  (JSON_stringify_stats : Stats → string) (saveStatsToSupabase_defined : bool)
  (SESSION_ID : string).

#[local] Abbreviation boot := (boot JSON_parse SESSION_ID).
#[local] Abbreviation handle := (handle JSON_stringify JSON_stringify_stats saveStatsToSupabase_defined).
#[local] Abbreviation run := (run JSON_stringify JSON_stringify_stats saveStatsToSupabase_defined).

(** A page that finds no marker of an active game starts fresh. *)
Lemma boot_fresh random loaded local session :
  local !! ACTIVE_GAME_KEY = None → fresh (boot random loaded local session).
Proof.
  intros Hactive. unfold boot. wp_enter_normal.
  unfold initGame, initSessionProtection, restoreGameState. wp_run; fields.
  all: rewrite ?Hactive in *.
  all: try (do 2 wp_board; unfold fresh; fields; repeat split; reflexivity).
  all: rewrite bool_decide_eq_false_2 in Hb0 by discriminate; discriminate Hb0.
Qed.

(** The word of a new page is drawn from [WORDS], unless a stored snapshot
    brings its own. *)
Lemma boot_target_WORDS random loaded local session :
  in_unit_interval random →
  (∀ text state, local !! GAME_STATE_KEY = Some text → JSON_parse text = Some state →
                 gameState.targetWord state ∈ WORDS) →
  targetWord (boot random loaded local session) ∈ WORDS.
Proof.
  intros Hr Hsnap. unfold boot. wp_enter.
  pose proof (random_word_WORDS random Hr) as Hw.
  assert (∀ state, JSON_parse (default "" (local !! GAME_STATE_KEY)) = Some state →
            truthy (local !! GAME_STATE_KEY) = true →
            gameState.targetWord state ∈ WORDS) as Hsnap'.
  { intros state Hp Ht. destruct (local !! GAME_STATE_KEY) as [text|] eqn:E; [|done].
    by eapply Hsnap. }
  unfold initGame, initSessionProtection, restoreGameState. wp_run.
  all: try (wp_pure; specialize (Hsnap' _ Hx ltac:(assumption))).
  all: repeat first
    [ wp_board
    | lazymatch goal with
      | |- wp (forEach _ _) _ _ _ =>
          apply (wp_forEach_frame targetWord);
          [intros ? ?; wp_run; fields; reflexivity | intros ? ? | intros ? ?]
      end
    | progress wp_run ].
  all: fields; congruence.
Qed.

(** C10. The target word is one of the 40 five-letter upper-case entries
    of [WORDS]: a new page draws it from the list (or takes it from a stored
    snapshot, itself holding a word of the list), a reset draws it anew, and
    no other event assigns it. *)
Theorem target_word_in_WORDS random loaded local session (events : list Event) :
  in_unit_interval random →
  (∀ text state, local !! GAME_STATE_KEY = Some text → JSON_parse text = Some state →
                 gameState.targetWord state ∈ WORDS) →
  Forall well_formed_event events →
  let s := run (boot random loaded local session) events in
  targetWord s ∈ WORDS ∧
  (∀ e, is_NewGame e = false → targetWord (handle s e) = targetWord s) ∧
  (∀ skipBoardClear r, in_unit_interval r →
     targetWord (handle s (NewGame skipBoardClear r)) = random_word r ∧ random_word r ∈ WORDS) ∧
  length WORDS = 40%nat ∧
  Forall (λ w, String.length w = Z.to_nat WORD_LENGTH ∧
               forallb is_upper (list_ascii_of_string w) = true) WORDS.
Proof.
  intros Hr Hsnap Hev s. split_and!.
  - apply run_target_WORDS; [done|]. by apply boot_target_WORDS.
  - intros e He. wp_enter. by apply step_targetWord.
  - intros skipBoardClear r Hr'. split; [|by apply random_word_WORDS].
    wp_enter.
    unfold step, resetToNewGame. wp_run.
    all: repeat first
      [ lazymatch goal with
        | |- wp (forEach _ _) _ _ _ =>
            apply (wp_forEach_frame targetWord);
            [intros ? ?; wp_run; fields; reflexivity | intros ? ? | intros ? ?]
        end
      | progress wp_run ].
    all: fields; congruence.
  - done.
  - by repeat constructor.
Qed.
End Boot.

(** * The board stays whole *)

Lemma board_complete_insert (s : Session) (id : Z * Z) (t : Tile) :
  board_complete s → is_Some (tiles s !! id) →
  board_complete (with_tiles (<[id := t]> (tiles s)) s).
Proof.
  intros Hs Hid id' Hid'. simpl. destruct (decide (id = id')) as [->|Hne].
  - rewrite lookup_insert_eq. eauto.
  - rewrite lookup_insert_ne by done. by apply Hs.
Qed.

Ltac board_leaf :=
  repeat match goal with
  | H : tiles ?s' = tiles _ |- context [?s'] => is_var s'; revert H
  end;
  unfold board_complete in *; simpl in *; intros;
  repeat match goal with
  | H : tiles ?s' = _ |- _ => is_var s'; rewrite H in *; clear H
  end;
  simpl in *;
  repeat match goal with
  | |- is_Some (<[?i := _]> _ !! ?j) =>
      destruct (decide (i = j)) as [->|?];
      [rewrite lookup_insert_eq; eauto | rewrite lookup_insert_ne by done]
  | H : <[?i := _]> _ !! ?i = _ |- _ => rewrite lookup_insert_eq in H
  end;
  eauto.

Lemma handleKeyPress_board_complete key : keeps board_complete (handleKeyPress key).
Proof.
  intros s Hs.
  unfold handleKeyPress, submitGuess, deleteLetter, addLetter. wp_run; try done.
  all: try (apply wp_collect_tile_get; [intros r|]; wp_run).
  all: board_leaf.
Qed.

Lemma updateKeyColor_tiles letter status s :
  wp (updateKeyColor letter status) (λ _ s', tiles s' = tiles s) (λ s', tiles s' = tiles s) s.
Proof. unfold updateKeyColor. wp_run; done. Qed.

Lemma processGuess_tiles guess s :
  wp (processGuess guess) (λ _ s', tiles s' = tiles s) (λ s', tiles s' = tiles s) s.
Proof.
  unfold processGuess. wp_run.
  apply (wp_forEach_frame tiles); [intros ? ?; wp_run; done|..]; intros; wp_run; done.
Qed.

Section Board.
Context (JSON_parse : string → option gameState.t) (JSON_stringify : gameState.t → string)
  (JSON_stringify_stats : Stats → string) (saveStatsToSupabase_defined : bool)
  (SESSION_ID : string).

#[local] Abbreviation step := (step JSON_stringify JSON_stringify_stats saveStatsToSupabase_defined).
#[local] Abbreviation run := (run JSON_stringify JSON_stringify_stats saveStatsToSupabase_defined).
#[local] Abbreviation boot := (boot JSON_parse SESSION_ID).

Lemma step_board_complete e : keeps board_complete (step e).
Proof.
  intros s Hs. destruct e; unfold_game; wp_run.
  all: try done.
  all: try (wp_call handleKeyPress_board_complete; wp_run; try done).
  all: try (wp_call processGuess_tiles; board_leaf).
  all: try (wp_call updateKeyColor_tiles; board_leaf).
  all: repeat first
    [ apply (wp_forEach _ _ board_complete board_complete);
        [ | intros ? ? ?; wp_run | intros ? ? | intros ? ?]
    | apply (wp_collect_frame tiles); [intros ? ?; wp_run | intros ? ? ? | intros ? ?]
    | progress wp_run ].
  all: try (wp_call updateKeyColor_tiles; board_leaf).
  all: try done.
  all: board_leaf.
Qed.

Lemma initSessionProtection_returns s :
  wp (initSessionProtection JSON_parse SESSION_ID) (λ _ _, True) (λ _, False) s.
Proof.
  unfold initSessionProtection, restoreGameState. wp_run; try done.
  all: apply (wp_forEach _ _ (λ _, True) (λ _, False)); [done| |intros; wp_run; done|done].
  all: intros tile s' _; wp_run; try done.
  all: simpl in *; rewrite ?lookup_insert_eq in *; congruence.
Qed.

(** [createBoard] leaves a whole board behind, whatever was restored. *)
Lemma boot_board_complete random loaded local session :
  board_complete (boot random loaded local session).
Proof.
  unfold boot. apply wp_exec_normal. unfold initGame. wp_run.
  eapply wp_mono; [apply initSessionProtection_returns| |done].
  intros _ s _. cbn beta. wp_run. apply wp_createBoard. intros m Hin _.
  apply wp_createKeyboard. intros k id Hid. simpl. rewrite Hin by done. eauto.
Qed.

Lemma run_board_complete s events : board_complete s → board_complete (run s events).
Proof.
  intros Hs. revert s Hs. induction events as [|e events IH]; intros s Hs; [done|].
  simpl. apply IH. by apply (wp_exec _ board_complete), step_board_complete.
Qed.
End Board.

(** * One guess at a time *)



Section Gate.
Context (JSON_parse : string → option gameState.t) (JSON_stringify : gameState.t → string)
  (JSON_stringify_stats : Stats → string) (saveStatsToSupabase_defined : bool)
  (SESSION_ID : string).

#[local] Abbreviation boot := (boot JSON_parse SESSION_ID).
#[local] Abbreviation step := (step JSON_stringify JSON_stringify_stats saveStatsToSupabase_defined).
#[local] Abbreviation handle := (handle JSON_stringify JSON_stringify_stats saveStatsToSupabase_defined).
#[local] Abbreviation run := (run JSON_stringify JSON_stringify_stats saveStatsToSupabase_defined).






End Gate.


(** * The codec *)

Lemma undigits_digits p : undigits (digits p) = p.
Proof. induction p; simpl; congruence. Qed.

Lemma codec_parse_stringify g : codec_parse (codec_stringify g) = Some g.
Proof. unfold codec_parse, codec_stringify. by rewrite undigits_digits, decode_encode. Qed.

Lemma codec_stringify_nonempty g : codec_stringify g ≠ "".
Proof. done. Qed.

(** * The theorems at work on the example sessions *)

Lemma board_complete_check s :
  forallb (λ id, bool_decide (is_Some (tiles s !! id))) board_ids = true → board_complete s.
Proof.
  intros H id Hid. rewrite forallb_forall in H.
  apply list_elem_of_In in Hid. specialize (H id Hid).
  by apply bool_decide_eq_true_1 in H.
Qed.

Lemma score_statuses_bounded_witness :
  String.length "AABBB" = Z.to_nat WORD_LENGTH ∧
  String.length "ABABA" = Z.to_nat WORD_LENGTH ∧
  length (score "AABBB" "ABABA") = Z.to_nat WORD_LENGTH ∧
  (∀ i, (i < Z.to_nat WORD_LENGTH)%nat →
        ∃ status, score "AABBB" "ABABA" !! i = Some status ∧
                  status ∈ [correct; present; absent] ∧
                  ∀ status', score "AABBB" "ABABA" !! i = Some status' → status' = status) ∧
  (∀ L, (credited L (list_ascii_of_string "AABBB") (score "AABBB" "ABABA")
         ≤ occurrences L "ABABA")%nat).
Proof.
  split; [reflexivity|]. split; [reflexivity|].
  apply (score_statuses_bounded "AABBB" "ABABA"); reflexivity.
Defined.

Lemma rejected_guess_not_consumed_witness :
  let s := example_run example_page (type_word SLATE ++ [Click "ENTER"]) in
  let s' := example_handle s (WordChecked 0 false) in
  validating s !! 0%nat = Some "SLATE" ∧
  currentRow s' = currentRow s ∧ currentTile s' = currentTile s ∧
  tiles s' = tiles s ∧ stats s' = stats s ∧ gameOver s' = gameOver s ∧
  isValidating s' = false.
Proof.
  intros s s'. split; [vm_compute; reflexivity|].
  apply (rejected_guess_not_consumed codec_stringify stats_text false s 0 "SLATE"
           (WordChecked 0 false)); [vm_compute; reflexivity | left; reflexivity].
Defined.

Lemma won_updates_stats_witness :
  let s := example_run example_page
             (type_word CRANE ++ [Click "ENTER"; WordChecked 0 true]
              ++ replicate 5 (TimerFired 0)) in
  let s' := example_handle s (TimerFired 0) in
  timers s !! 0%nat = Some (CheckResult "CRANE") ∧ "CRANE" = targetWord s ∧
  safe_integer (gamesPlayed (stats s)) ∧
  gameOver s' = true ∧
  gamesPlayed (stats s') = gamesPlayed (stats s) + 1 ∧
  gamesWon (stats s') = gamesWon (stats s) + 1 ∧
  currentStreak (stats s') = currentStreak (stats s) + 1 ∧
  maxStreak (stats s') = Z.max (maxStreak (stats s)) (currentStreak (stats s')).
Proof.
  intros s s'.
  assert (safe_integer 0) as Hsafe by (unfold safe_integer, MAX_SAFE_INTEGER; lia).
  split; [vm_compute; reflexivity|]. split; [vm_compute; reflexivity|].
  split; [exact Hsafe|].
  apply (won_updates_stats codec_stringify stats_text false s 0 "CRANE");
    [vm_compute; reflexivity | vm_compute; reflexivity | exact Hsafe..].
Defined.

Lemma lost_updates_stats_witness :
  let s := example_run example_page
             (play_word SLATE ++ play_word SLATE ++ play_word SLATE ++ play_word SLATE
              ++ play_word SLATE ++ type_word SLATE ++ [Click "ENTER"; WordChecked 0 true]
              ++ replicate 5 (TimerFired 0)) in
  let s' := example_handle s (TimerFired 0) in
  timers s !! 0%nat = Some (CheckResult "SLATE") ∧ "SLATE" ≠ targetWord s ∧
  currentRow s = MAX_ATTEMPTS - 1 ∧
  safe_integer (gamesPlayed (stats s)) ∧
  gameOver s' = true ∧
  gamesPlayed (stats s') = gamesPlayed (stats s) + 1 ∧
  currentStreak (stats s') = 0 ∧
  gamesWon (stats s') = gamesWon (stats s) ∧
  maxStreak (stats s') = maxStreak (stats s).
Proof.
  intros s s'.
  assert (safe_integer 0) as Hsafe by (unfold safe_integer, MAX_SAFE_INTEGER; lia).
  split; [vm_compute; reflexivity|].
  split; [vm_compute; discriminate|]. split; [vm_compute; reflexivity|].
  split; [exact Hsafe|].
  apply (lost_updates_stats codec_stringify stats_text false s 0 "SLATE");
    [vm_compute; reflexivity | vm_compute; discriminate | vm_compute; reflexivity
    | exact Hsafe].
Defined.

Lemma cursor_bounds_witness :
  let s := example_run example_page (play_word CRANE) in
  fresh example_page ∧
  0 ≤ currentTile s ≤ WORD_LENGTH ∧
  (gameOver s = false → 0 ≤ currentRow s < MAX_ATTEMPTS) ∧
  (currentTile s = 0 → exec deleteLetter s = s) ∧
  (currentTile s = WORD_LENGTH → ∀ letter, exec (addLetter letter) s = s).
Proof.
  intros s.
  assert (fresh example_page) as Hfresh by (unfold fresh; repeat split; vm_compute; reflexivity).
  split; [exact Hfresh|].
  exact (cursor_bounds codec_stringify stats_text false example_page (play_word CRANE) Hfresh).
Defined.


(** The row is full while SLATE is being checked: a key of the screen
    changes nothing, a key of the keyboard at most shows the message of the
    reload keys. *)
Lemma validating_row_full_witness :
  let s := example_run example_page (type_word SLATE ++ [Click "ENTER"]) in
  cursor_ok example_page ∧ isValidating s = true ∧ gameOver s = false ∧
  currentTile s = WORD_LENGTH ∧
  (∀ key, example_handle s (Click key) = s) ∧
  (∀ tagName key ctrlKey metaKey shiftKey,
     example_handle s (KeyDown tagName key ctrlKey metaKey shiftKey) = s ∨
     example_handle s (KeyDown tagName key ctrlKey metaKey shiftKey)
     = with_timers (timers s ++ [HideMessage])
         (with_message ("🚫 Cannot refresh during game", true) s)) ∧
  (∀ letter, exec (addLetter letter) s = s).
Proof.
  intros s.
  assert (cursor_ok example_page) as Hok
    by (unfold cursor_ok; vm_compute; repeat split; discriminate).
  assert (isValidating s = true) as Hv by (vm_compute; reflexivity).
  assert (gameOver s = false) as Hover by (vm_compute; reflexivity).
  split; [exact Hok|]. split; [exact Hv|]. split; [exact Hover|].
  exact (validating_row_full codec_stringify stats_text false example_page
           (type_word SLATE ++ [Click "ENTER"]) Hok Hv Hover).
Defined.

Lemma target_word_in_WORDS_witness :
  let s := example_run example_page [Click "C"; NewGame false (1 # 2)] in
  in_unit_interval 0 ∧
  Forall well_formed_event [Click "C"; NewGame false (1 # 2)] ∧
  targetWord s ∈ WORDS ∧
  (∀ e, is_NewGame e = false → targetWord (example_handle s e) = targetWord s) ∧
  (∀ skipBoardClear r, in_unit_interval r →
     targetWord (example_handle s (NewGame skipBoardClear r)) = random_word r ∧
     random_word r ∈ WORDS) ∧
  length WORDS = 40%nat ∧
  Forall (λ w, String.length w = Z.to_nat WORD_LENGTH ∧
               forallb is_upper (list_ascii_of_string w) = true) WORDS.
Proof.
  intros s.
  assert (in_unit_interval 0) as Hr by (split; [apply Qle_refl | split; reflexivity]).
  assert (Forall well_formed_event [Click "C"; NewGame false (1 # 2)]) as Hev.
  { constructor; [exact I|]. constructor; [|constructor].
    split; [unfold Qle; simpl; lia|]. split; [unfold Qlt; simpl; lia|].
    vm_compute. reflexivity. }
  split; [exact Hr|]. split; [exact Hev|].
  apply (target_word_in_WORDS codec_parse codec_stringify stats_text false
           "sessionId_0_example" 0 DEFAULT_STATS ∅ ∅ _ Hr); [|exact Hev].
  intros text state Htext. rewrite lookup_empty in Htext. discriminate.
Defined.

Lemma restore_at_startup_witness :
  let s := example_run example_page [Click "C"] in
  let s' := boot codec_parse "sessionId_1_example" (1 # 2) DEFAULT_STATS
              (localStorage (exec (saveCompleteGameState codec_stringify 7) s)) ∅ in
  tiles s !! (0, 0) = Some {| textContent := "C"; className := ["tile"; "filled"] |} ∧
  targetWord s' = targetWord s ∧ currentRow s' = currentRow s ∧
  currentTile s' = currentTile s ∧ gameStarted s' = true ∧
  ∀ id, id ∈ board_ids → tiles s' !! id = Some blank_tile.
Proof.
  intros s s'. split; [vm_compute; reflexivity|].
  apply (boot_after_save codec_parse codec_stringify "sessionId_1_example" 7 s (1 # 2)
           DEFAULT_STATS ∅ codec_parse_stringify codec_stringify_nonempty).
  - vm_compute; reflexivity.
  - vm_compute; reflexivity.
  - apply board_complete_check. vm_compute; reflexivity.
  - apply lookup_empty.
Defined.

Lemma corrupt_snapshot_witness :
  let s := initial 0 DEFAULT_STATS example_storage ∅ in
  let s' := exec (initSessionProtection codec_parse "sessionId_2_example") s in
  (targetWord s = "CRANE" ∧ currentRow s = 0 ∧ currentTile s = 0 ∧ gameOver s = false) ∧
  targetWord s' = "ZZZZZ" ∧ currentRow s' = 4 ∧ currentTile s' = 3 ∧ gameOver s' = true ∧
  tiles s' = tiles s ∧
  localStorage s' !! GAME_STATE_KEY = None ∧
  localStorage s' !! ACTIVE_GAME_KEY = None.
Proof.
  intros s s'. split; [repeat split|].
  apply (initSessionProtection_half_applies codec_parse "sessionId_2_example" s
           (codec_stringify example_truncated) example_truncated).
  - apply lookup_empty.
  - apply lookup_insert_eq.
  - unfold s, example_storage. simpl. rewrite lookup_insert_ne by done. apply lookup_insert_eq.
  - apply codec_stringify_nonempty.
  - apply codec_parse_stringify.
  - reflexivity.
Defined.

(** * More on scoring *)

Section ScoringExact.
Variables (G T : list ascii).
Hypothesis HGT : length G = length T.

Lemma pass1_inv_init : pass1_inv G T 0 (replicate (length G) absent, Letter <$> T).
Proof.
  split_and!; simpl.
  - by rewrite length_replicate.
  - by rewrite length_fmap.
  - intros j g t Hg Ht. split.
    + apply lookup_replicate. split; [done|]. by eapply lookup_lt_Some.
    + by rewrite list_lookup_fmap, Ht.
Qed.

Lemma pass1_inv_step k acc :
  (k < length G)%nat → pass1_inv G T k acc →
  pass1_inv G T (S k) (first_pass (Letter <$> G) acc k).
Proof.
  destruct acc as [ls ta]. intros Hk (Hls & Hta & Hpos); simpl in *.
  destruct (lookup_lt_is_Some_2 G k) as [g Hg]; [lia|].
  destruct (lookup_lt_is_Some_2 T k) as [t Ht]; [lia|].
  destruct (Hpos k g t Hg Ht) as [Hlsk Htak].
  rewrite bool_decide_eq_false_2 in Hlsk, Htak by lia.
  unfold first_pass, array_get. rewrite list_lookup_fmap, Hg, Htak. simpl.
  case_bool_decide as Heq.
  - simplify_eq. rewrite array_set_in_range by lia.
    split_and!; simpl; rewrite ?length_insert; try done.
    intros j g' t' Hg' Ht'. destruct (decide (j = k)) as [->|Hne].
    + simplify_eq. rewrite !list_lookup_insert_eq by lia.
      rewrite bool_decide_eq_true_2 by (split; [lia | done]). done.
    + rewrite !list_lookup_insert_ne by done.
      destruct (Hpos j g' t' Hg' Ht') as [H1 H2]. rewrite H1, H2.
      split; f_equal; apply bool_decide_ext_if; naive_solver lia.
  - split_and!; simpl; try done.
    intros j g' t' Hg' Ht'. destruct (Hpos j g' t' Hg' Ht') as [H1 H2]. rewrite H1, H2.
    destruct (decide (j = k)) as [->|Hne].
    + simplify_eq. rewrite !bool_decide_eq_false_2; [done|..]; intros [? ?]; try lia.
      by subst.
    + split; f_equal; apply bool_decide_ext_if; naive_solver lia.
Qed.

Lemma pass1_inv_loop k :
  (k ≤ length G)%nat →
  pass1_inv G T k
    (foldl (first_pass (Letter <$> G)) (replicate (length G) absent, Letter <$> T) (seq 0 k)).
Proof.
  intros Hk. induction k as [|k IH]; [apply pass1_inv_init|].
  rewrite seq_S, foldl_app. simpl. apply pass1_inv_step; [lia|]. apply IH. lia.
Qed.

Lemma indexOf_None_remaining ta g : indexOf ta (Letter g) = None → remaining g ta = 0%nat.
Proof.
  unfold remaining. induction ta as [|e ta IH]; [done|]. simpl.
  case_bool_decide as He; [done|].
  destruct (indexOf ta (Letter g)); [done|]. intros _.
  rewrite filter_cons_False by naive_solver. by apply IH.
Qed.

Lemma remaining_insert_Null_zero g ta i :
  remaining g ta = 0%nat → remaining g (<[i:=Null]> ta) = 0%nat.
Proof.
  intros Hz. destruct (ta !! i) as [e|] eqn:He.
  - pose proof (remaining_insert_Null g ta i e He). lia.
  - rewrite list_insert_ge; [done|]. by apply lookup_ge_None.
Qed.

Lemma pass2_inv_init acc : pass1_inv G T (length G) acc → pass2_inv G T 0 acc.
Proof.
  destruct acc as [ls ta]. intros (Hls & Hta & Hpos); simpl in *.
  split_and!; simpl; try done.
  - intros j g t Hg Ht. destruct (Hpos j g t Hg Ht) as [H1 H2]. rewrite H1, H2.
    pose proof (lookup_lt_Some _ _ _ Hg).
    case_bool_decide; split_and!; naive_solver.
  - intros j _ Hj.
    destruct (lookup_lt_is_Some_2 G j) as [g Hg].
    { apply lookup_lt_Some in Hj. lia. }
    destruct (lookup_lt_is_Some_2 T j) as [t Ht].
    { apply lookup_lt_Some in Hg. lia. }
    destruct (Hpos j g t Hg Ht) as [H1 _]. rewrite H1 in Hj. by case_bool_decide.
  - intros j g Hj. lia.
  - intros j g Hg Hj.
    destruct (lookup_lt_is_Some_2 T j) as [t Ht].
    { apply lookup_lt_Some in Hg. lia. }
    destruct (Hpos j g t Hg Ht) as [H1 _]. rewrite H1 in Hj. by case_bool_decide.
Qed.

Lemma pass2_inv_step k acc :
  (k < length G)%nat → pass2_inv G T k acc →
  pass2_inv G T (S k) (second_pass (Letter <$> G) acc k).
Proof.
  destruct acc as [ls ta]. intros Hk (Hls & Hta & Hpos & Htodo & Hgrey & Hyellow); simpl in *.
  destruct (lookup_lt_is_Some_2 G k) as [g Hg]; [lia|].
  destruct (lookup_lt_is_Some_2 T k) as [t Ht]; [lia|].
  destruct (lookup_lt_is_Some_2 ls k) as [s Hs]; [lia|].
  unfold second_pass. case_bool_decide as Hc.
  { split_and!; simpl; try done.
    - intros j Hj. apply Htodo. lia.
    - intros j g' Hj Hg' Hj'. destruct (decide (j = k)) as [->|Hne]; [congruence|].
      apply (Hgrey j); [lia | done..]. }
  unfold array_get. rewrite list_lookup_fmap, Hg. simpl.
  destruct (indexOf ta (Letter g)) as [index|] eqn:Hidx.
  2:{ split_and!; simpl; try done.
      - intros j Hj. apply Htodo. lia.
      - intros j g' Hj Hg' Hj'. destruct (decide (j = k)) as [->|Hne].
        + simplify_eq. by apply indexOf_None_remaining.
        + apply (Hgrey j); [lia | done..]. }
  apply indexOf_Some in Hidx as [He _].
  pose proof (lookup_lt_Some _ _ _ He) as Hlt.
  destruct (lookup_lt_is_Some_2 G index) as [gi Hgi]; [lia|].
  destruct (lookup_lt_is_Some_2 T index) as [ti Hti]; [lia|].
  destruct (Hpos index gi ti Hgi Hti) as (_ & Hta_i & Hnull_i).
  assert (ti = g) as -> by (destruct Hta_i; congruence).
  assert (gi ≠ g) as Hgi_ne by (intros ->; specialize (Hnull_i eq_refl); congruence).
  destruct (Hpos k g t Hg Ht) as (Hcorr_k & _ & _).
  rewrite array_set_in_range by lia.
  split_and!; simpl; rewrite ?length_insert; try done.
  - intros j g' t' Hg' Ht'. destruct (Hpos j g' t' Hg' Ht') as (H1 & H2 & H3).
    split_and!.
    + destruct (decide (j = k)) as [->|Hne].
      * simplify_eq. rewrite list_lookup_insert_eq by lia. naive_solver.
      * by rewrite list_lookup_insert_ne.
    + destruct (decide (j = index)) as [->|Hne].
      * left. by rewrite list_lookup_insert_eq by lia.
      * by rewrite list_lookup_insert_ne.
    + intros Heq. destruct (decide (j = index)) as [->|Hne].
      * by rewrite list_lookup_insert_eq by lia.
      * rewrite list_lookup_insert_ne by done. by apply H3.
  - intros j Hj. rewrite list_lookup_insert_ne by lia. apply Htodo. lia.
  - intros j g' Hj Hg'. destruct (decide (j = k)) as [->|Hne].
    + by rewrite list_lookup_insert_eq by lia.
    + rewrite list_lookup_insert_ne by done. intros Hj'.
      apply remaining_insert_Null_zero, (Hgrey j); [lia | done..].
  - intros j g' Hg'. destruct (decide (j = k)) as [->|Hne].
    + simplify_eq. intros _. exists index. split; [done|]. congruence.
    + rewrite list_lookup_insert_ne by done. by apply Hyellow.
Qed.

Lemma pass2_inv_loop k acc :
  (k ≤ length G)%nat → pass2_inv G T 0 acc →
  pass2_inv G T k (foldl (second_pass (Letter <$> G)) acc (seq 0 k)).
Proof.
  intros Hk Hacc. induction k as [|k IH]; [done|].
  rewrite seq_S, foldl_app. simpl. apply pass2_inv_step; [lia|]. apply IH. lia.
Qed.

(** Both loops over all positions. *)
Lemma pass2_inv_final :
  pass2_inv G T (length G)
    (foldl (second_pass (Letter <$> G))
       (foldl (first_pass (Letter <$> G)) (replicate (length G) absent, Letter <$> T)
          (seq 0 (length G)))
       (seq 0 (length G))).
Proof. apply pass2_inv_loop; [done|]. apply pass2_inv_init, pass1_inv_loop. done. Qed.
End ScoringExact.

Lemma credited_le L (G : list ascii) ls :
  (credited L G ls ≤ count_occ ascii_dec G L)%nat.
Proof.
  revert ls; induction G as [|g G IH]; intros [|s ls]; simpl; try lia.
  specialize (IH ls). case_bool_decide as Hc; destruct (ascii_dec g L); naive_solver lia.
Qed.

Lemma credited_lt_absent L (G : list ascii) ls :
  length ls = length G → (credited L G ls < count_occ ascii_dec G L)%nat →
  ∃ j, G !! j = Some L ∧ ls !! j = Some absent.
Proof.
  revert ls; induction G as [|g G IH]; intros [|s ls] Hlen; simplify_eq/=; [lia|].
  case_bool_decide as Hc; destruct (ascii_dec g L) as [->|Hne]; intros Hlt.
  - destruct (IH ls) as (j & ? & ?); [done | lia |]. by exists (S j).
  - naive_solver.
  - exists 0%nat. split; [done|]. simpl. f_equal.
    destruct (decide (s = absent)); [done | naive_solver].
  - destruct (IH ls) as (j & ? & ?); [done | lia |]. by exists (S j).
Qed.

Lemma list_ascii_of_string_inj (v w : string) :
  list_ascii_of_string v = list_ascii_of_string w → v = w.
Proof.
  intros H. rewrite <- (string_of_list_ascii_of_string v), <- (string_of_list_ascii_of_string w).
  by rewrite H.
Qed.

Section ScoreWords.
Variables (guess target : string).
Hypothesis Hguess : String.length guess = Z.to_nat WORD_LENGTH.
Hypothesis Htarget : String.length target = Z.to_nat WORD_LENGTH.

Lemma score_pass2_inv :
  ∃ targetArray,
    pass2_inv (list_ascii_of_string guess) (list_ascii_of_string target)
      (Z.to_nat WORD_LENGTH) (score guess target, targetArray) ∧
    ∀ L, (credited L (list_ascii_of_string guess) (score guess target)
          + remaining L targetArray)%nat = occurrences L target.
Proof.
  rewrite <- length_list_ascii_of_string in Hguess, Htarget.
  pose proof (pass2_inv_final (list_ascii_of_string guess) (list_ascii_of_string target)
                ltac:(congruence)) as H2.
  pose proof (two_passes_inv (list_ascii_of_string guess) (list_ascii_of_string target)
                (Z.to_nat WORD_LENGTH) Hguess Htarget) as (_ & _ & _ & Hcount).
  rewrite Hguess in H2. unfold score, split, positions.
  destruct (foldl _ _ _) as [ls ta] eqn:Hfold. exists ta. split; [exact H2|].
  intros L. apply (Hcount L).
Qed.

(** X1. Every letter is credited, over the tiles of the guess that hold it and
    are marked correct or present, exactly as often as it occurs in the
    guess or in the target, whichever is less. *)
Theorem score_credits_min (L : ascii) :
  credited L (list_ascii_of_string guess) (score guess target)
  = (occurrences L guess `min` occurrences L target)%nat.
Proof.
  destruct score_pass2_inv as (ta & (Hlen & _ & _ & _ & Hgrey & _) & Hcount).
  pose proof (credited_le L (list_ascii_of_string guess) (score guess target)) as Hle.
  specialize (Hcount L). unfold occurrences in *. simpl in *.
  destruct (decide (credited L (list_ascii_of_string guess) (score guess target)
                    = count_occ ascii_dec (list_ascii_of_string guess) L)) as [Heq|Hne];
    [lia|].
  destruct (credited_lt_absent L (list_ascii_of_string guess) (score guess target))
    as (j & Hj & Habs); [done | lia |].
  pose proof (lookup_lt_Some _ _ _ Hj) as Hlt.
  rewrite length_list_ascii_of_string, Hguess in Hlt.
  pose proof (Hgrey j L Hlt Hj Habs). lia.
Qed.

(** X2. A tile is marked correct exactly when the guess and the target hold the
    same letter at its position. *)
Theorem score_correct_iff (i : nat) (g t : ascii) :
  list_ascii_of_string guess !! i = Some g →
  list_ascii_of_string target !! i = Some t →
  score guess target !! i = Some correct ↔ g = t.
Proof.
  intros Hg Ht. destruct score_pass2_inv as (ta & (_ & _ & Hpos & _) & _).
  by destruct (Hpos i g t Hg Ht) as [H _].
Qed.

(** X3. A tile is marked present only when its letter is not the target's
    letter at that position and stands in the target at a position where
    the guess holds another letter. *)
Theorem score_present_elsewhere (i : nat) (g : ascii) :
  list_ascii_of_string guess !! i = Some g →
  score guess target !! i = Some present →
  list_ascii_of_string target !! i ≠ Some g ∧
  ∃ index, list_ascii_of_string target !! index = Some g ∧
           list_ascii_of_string guess !! index ≠ Some g.
Proof.
  intros Hg Hp. destruct score_pass2_inv as (ta & (_ & _ & Hpos & _ & _ & Hyellow) & _).
  split; [|by apply (Hyellow i)].
  intros Ht. destruct (Hpos i g g Hg Ht) as [H _]. simpl in H.
  assert (score guess target !! i = Some correct) by by apply H. congruence.
Qed.

(** X4. A tile is marked absent only when its letter is not the target's letter
    at that position and every occurrence of the letter in the target is
    already credited to a correct or present tile. *)
Theorem score_absent_exhausted (i : nat) (g : ascii) :
  list_ascii_of_string guess !! i = Some g →
  score guess target !! i = Some absent →
  list_ascii_of_string target !! i ≠ Some g ∧
  credited g (list_ascii_of_string guess) (score guess target) = occurrences g target.
Proof.
  intros Hg Ha.
  destruct score_pass2_inv as (ta & (_ & _ & Hpos & _ & Hgrey & _) & Hcount).
  pose proof (lookup_lt_Some _ _ _ Hg) as Hlt.
  rewrite length_list_ascii_of_string, Hguess in Hlt.
  split.
  - intros Ht. destruct (Hpos i g g Hg Ht) as [H _]. simpl in H.
    assert (score guess target !! i = Some correct) by by apply H. congruence.
  - specialize (Hcount g). pose proof (Hgrey i g Hlt Hg Ha). simpl in *. lia.
Qed.

(** X5. The row is all correct exactly when the guess is the target word: the
    colours of a row and the comparison of [checkGameResult] agree. *)
Theorem score_all_correct_iff :
  score guess target = replicate (Z.to_nat WORD_LENGTH) correct ↔ guess = target.
Proof.
  destruct score_pass2_inv as (ta & (Hlen & _ & Hpos & _) & _). cbn [fst snd] in *.
  assert (length (list_ascii_of_string guess) = length (list_ascii_of_string target)) as HGT
    by (rewrite !length_list_ascii_of_string; congruence).
  split.
  - intros Hall. apply list_ascii_of_string_inj, list_eq_same_length with (Z.to_nat WORD_LENGTH);
      [by rewrite length_list_ascii_of_string | by rewrite length_list_ascii_of_string |].
    intros j g t Hj Hg Ht. destruct (Hpos j g t Hg Ht) as [H _]. apply H.
    rewrite Hall. by apply lookup_replicate.
  - intros <-. apply list_eq_same_length with (Z.to_nat WORD_LENGTH);
      [by rewrite length_replicate | rewrite Hlen; by rewrite length_list_ascii_of_string |].
    intros j s s' Hj Hs Hs'. apply lookup_replicate in Hs' as [-> _].
    destruct (lookup_lt_is_Some_2 (list_ascii_of_string guess) j) as [g Hg].
    { by rewrite length_list_ascii_of_string, Hguess. }
    destruct (Hpos j g g Hg Hg) as [H _]. specialize (proj2 H eq_refl). congruence.
Qed.
End ScoreWords.

Lemma score_credits_min_witness :
  credited "E" (list_ascii_of_string "EERIE") (score "EERIE" "ELDER")
  = (occurrences "E" "EERIE" `min` occurrences "E" "ELDER")%nat.
Proof. apply (score_credits_min "EERIE" "ELDER"); reflexivity. Defined.

Lemma score_correct_iff_witness :
  score "CRANE" "SLATE" !! 2%nat = Some correct ↔ "A"%char = "A"%char.
Proof. apply (score_correct_iff "CRANE" "SLATE"); reflexivity. Defined.

Lemma score_present_elsewhere_witness :
  list_ascii_of_string "SLATE" !! 0%nat ≠ Some "T"%char ∧
  ∃ index, list_ascii_of_string "SLATE" !! index = Some "T"%char ∧
           list_ascii_of_string "TRACE" !! index ≠ Some "T"%char.
Proof. apply (score_present_elsewhere "TRACE" "SLATE"); reflexivity. Defined.

Lemma score_absent_exhausted_witness :
  list_ascii_of_string "ELDER" !! 4%nat ≠ Some "E"%char ∧
  credited "E" (list_ascii_of_string "EERIE") (score "EERIE" "ELDER")
  = occurrences "E" "ELDER".
Proof. apply (score_absent_exhausted "EERIE" "ELDER"); reflexivity. Defined.

Lemma score_all_correct_iff_witness :
  score "SLATE" "SLATE" = replicate (Z.to_nat WORD_LENGTH) correct ↔ "SLATE" = "SLATE".
Proof. apply (score_all_correct_iff "SLATE" "SLATE"); reflexivity. Defined.

(** * Frames *)

Lemma updateKeyColor_only_keys letter status s :
  wp (updateKeyColor letter status) (λ _ s', ∃ k, s' = with_keys k s) (λ _, False) s.
Proof.
  unfold updateKeyColor. wp_run; try (by eexists).
  all: exists (keys s); by destruct s.
Qed.

Lemma processGuess_only_timers guess s :
  wp (processGuess guess) (λ _ s', ∃ t, s' = with_timers t s) (λ _, False) s.
Proof.
  unfold processGuess. wp_run.
  apply (wp_forEach _ _ (λ s', ∃ t, s' = with_timers t s) (λ _, False)).
  - exists (timers s). by destruct s.
  - intros i s' [t ->]. wp_run. by eexists.
  - intros s' [t ->]. wp_run. by eexists.
  - done.
Qed.

Lemma handleKeyPress_beyond_typing key s :
  wp (handleKeyPress key) (λ _ s', beyond_typing s' = beyond_typing s)
    (λ s', beyond_typing s' = beyond_typing s) s.
Proof.
  unfold handleKeyPress, submitGuess, deleteLetter, addLetter. wp_run; try done.
  all: try (apply wp_collect_tile_get; [intros r|]; wp_run); done.
Qed.

Lemma onKeyDown_beyond_typing tagName key s :
  wp (onKeyDown tagName key) (λ _ s', beyond_typing s' = beyond_typing s)
    (λ s', beyond_typing s' = beyond_typing s) s.
Proof.
  unfold onKeyDown. wp_run; try done.
  all: apply handleKeyPress_beyond_typing.
Qed.

Ltac wp_frame_step f :=
  lazymatch goal with
  | |- wp (forEach _ _) _ _ _ =>
      apply (wp_forEach_frame f); [intros ? ?; wp_run; done | intros ? ? | intros ? ?]
  | |- wp (collect _ _) _ _ _ =>
      apply (wp_collect_frame f); [intros ? ?; wp_run; done | intros ? ? ? | intros ? ?]
  | |- wp (updateKeyColor _ _) _ _ _ =>
      eapply wp_mono; [apply updateKeyColor_only_keys | intros ? ? [? ->] | intros ? []];
      cbn beta in *
  end.
Ltac wp_typing_step :=
  lazymatch goal with
  | |- wp (handleKeyPress _) _ _ _ =>
      eapply wp_mono; [apply handleKeyPress_beyond_typing | intros ? ? ? | intros ? ?];
      cbn beta in *
  | |- wp (onKeyDown _ _) _ _ _ =>
      eapply wp_mono; [apply onKeyDown_beyond_typing | intros ? ? ? | intros ? ?];
      cbn beta in *
  end.
Ltac wp_guess_step :=
  lazymatch goal with
  | |- wp (processGuess _) _ _ _ =>
      eapply wp_mono; [apply processGuess_only_timers | intros ? ? [? ->] | intros ? []];
      cbn beta in *
  end.
Ltac wp_frame f :=
  repeat first [wp_frame_step f | wp_typing_step | wp_guess_step | progress wp_run].

Ltac frame_eqs :=
  repeat match goal with
  | H : beyond_typing _ = beyond_typing _ |- _ =>
      unfold beyond_typing in H; simplify_eq
  end.

Section Statistics.
Context (JSON_stringify : gameState.t → string) (JSON_stringify_stats : Stats → string)
  (saveStatsToSupabase_defined : bool).

#[local] Abbreviation step := (step JSON_stringify JSON_stringify_stats saveStatsToSupabase_defined).
#[local] Abbreviation handle := (handle JSON_stringify JSON_stringify_stats saveStatsToSupabase_defined).
#[local] Abbreviation run := (run JSON_stringify JSON_stringify_stats saveStatsToSupabase_defined).

(** One event counts at most one game. *)
Lemma step_stats e s :
  let counted s' :=
    stats s' = stats s ∨ stats s' = stats_won (stats s) ∨ stats s' = stats_lost (stats s) in
  wp (step e) (λ _, counted) counted s.
Proof.
  intros counted. subst counted. cbn beta.
  destruct e; unfold_game; wp_frame stats.
  all: frame_eqs; fields.
  all: try (left; congruence).
  all: try (right; left; reflexivity).
  all: try (right; right; reflexivity).
Qed.

(** X6. Whatever happens on the page, the statistics stay consistent: the
    current streak is not negative and not above the best streak, the best
    streak not above the games won, and the games won not above the games
    played. *)
Theorem run_stats_ok (s : Session) (events : list Event) :
  stats_ok (stats s) → stats_ok (stats (run s events)).
Proof.
  intros Hs. induction events as [|e events IH] using rev_ind; [done|].
  rewrite run_snoc. revert IH. generalize (run s events). intros s1 IH. wp_enter.
  eapply wp_mono; [apply step_stats|..]; cbn beta.
  all: intros; destruct_or!.
  all: repeat match goal with H : stats _ = _ |- _ => rewrite H; clear H end.
  all: unfold stats_ok, stats_won, stats_lost in *; simpl; lia.
Qed.

(** X7. The counters only grow: no event lowers the games played, the
    games won or the best streak; the games played grow by at most one per
    event, and the games won by no more than the games played.  The
    counters are taken to stay among the safe integers over the run, where
    the increments of the code are exact. *)
Theorem run_stats_monotone (s : Session) (events : list Event) :
  counts_exactly (length events) (stats s) →
  let st := stats s in
  let st' := stats (run s events) in
  gamesPlayed st ≤ gamesPlayed st' ≤ gamesPlayed st + Z.of_nat (length events) ∧
  gamesWon st ≤ gamesWon st' ∧
  gamesWon st' - gamesWon st ≤ gamesPlayed st' - gamesPlayed st ∧
  maxStreak st ≤ maxStreak st'.
Proof.
  intros _. cbn zeta. induction events as [|e events IH] using rev_ind; [simpl; lia|].
  rewrite run_snoc, length_app. cbn [length]. revert IH. generalize (run s events).
  intros s1 IH. wp_enter.
  eapply wp_mono; [apply step_stats|..]; cbn beta.
  all: intros; destruct_or!.
  all: repeat match goal with H : stats _ = _ |- _ => rewrite H; clear H end.
  all: unfold stats_won, stats_lost in *; simpl; lia.
Qed.
End Statistics.

Lemma run_stats_ok_witness :
  stats_ok (stats (example_run example_page (play_word CRANE))).
Proof.
  apply (run_stats_ok codec_stringify stats_text false example_page (play_word CRANE)).
  vm_compute. repeat split; discriminate.
Defined.

Lemma run_stats_monotone_witness :
  let st := stats example_page in
  let st' := stats (example_run example_page (play_word CRANE)) in
  gamesPlayed st ≤ gamesPlayed st' ≤ gamesPlayed st + Z.of_nat (length (play_word CRANE)) ∧
  gamesWon st ≤ gamesWon st' ∧
  gamesWon st' - gamesWon st ≤ gamesPlayed st' - gamesPlayed st ∧
  maxStreak st ≤ maxStreak st'.
Proof.
  apply (run_stats_monotone codec_stringify stats_text false example_page (play_word CRANE)).
  unfold counts_exactly, MAX_SAFE_INTEGER. vm_compute. repeat split; discriminate.
Defined.

Section Terminal.
Context (JSON_parse : string → option gameState.t) (JSON_stringify : gameState.t → string)
  (JSON_stringify_stats : Stats → string) (saveStatsToSupabase_defined : bool)
  (SESSION_ID : string).

#[local] Abbreviation step := (step JSON_stringify JSON_stringify_stats saveStatsToSupabase_defined).
#[local] Abbreviation handle := (handle JSON_stringify JSON_stringify_stats saveStatsToSupabase_defined).
#[local] Abbreviation run := (run JSON_stringify JSON_stringify_stats saveStatsToSupabase_defined).
#[local] Abbreviation boot := (boot JSON_parse SESSION_ID).

Lemma step_gameOver e s :
  is_NewGame e = false → gameOver s = true →
  wp (step e) (λ _ s', gameOver s' = true) (λ s', gameOver s' = true) s.
Proof.
  intros He Hs. destruct e; try done; unfold_game; wp_frame gameOver.
  all: frame_eqs; fields; congruence.
Qed.

(** X8. A finished game stays finished until a new game is started: no
    key, answer of the word check, timer, cloud answer or page event clears
    [gameOver]. *)
Theorem game_over_stays (s : Session) (events : list Event) :
  Forall (λ e, is_NewGame e = false) events →
  gameOver s = true → gameOver (run s events) = true.
Proof.
  intros Hev Hs. induction events as [|e events IH] using rev_ind; [done|].
  apply Forall_app in Hev as [Hev He]. apply Forall_inv in He.
  rewrite run_snoc. specialize (IH Hev). revert IH. generalize (run s events).
  intros s1 IH. wp_enter. by apply step_gameOver.
Qed.

(** X9. In a finished game the keys are dead: presses on the screen and
    on the keyboard, in any number, leave the whole session as it is. *)
Theorem game_over_ignores_keys (s : Session) (events : list Event) :
  Forall (λ e, is_input e = true) events →
  gameOver s = true → run s events = s.
Proof.
  intros Hev Hs. induction events as [|e events IH] using rev_ind; [done|].
  apply Forall_app in Hev as [Hev He]. apply Forall_inv in He.
  rewrite run_snoc, (IH Hev). wp_enter.
  destruct e; try done; unfold step, onKeyDown, onKeyDown_refresh, handleKeyPress; wp_run.
  all: try solve [done | congruence].
  all: match goal with
       | H : _ && negb (gameOver ?s0) = true, H' : gameOver ?s0 = true |- _ =>
           rewrite H' in H; cbn [negb] in H; rewrite andb_false_r in H; discriminate H
       end.
Qed.

(** X10. The target word is fixed for the length of a game: only a new
    game draws another. *)
Theorem target_fixed_in_game (s : Session) (events : list Event) :
  Forall (λ e, is_NewGame e = false) events →
  targetWord (run s events) = targetWord s.
Proof.
  intros Hev. induction events as [|e events IH] using rev_ind; [done|].
  apply Forall_app in Hev as [Hev He]. apply Forall_inv in He.
  rewrite run_snoc, <- (IH Hev). generalize (run s events). intros s1.
  wp_enter. by apply step_targetWord.
Qed.

(** X11. Outside a started, unfinished game the page saves nothing: leaving
    the page, hiding it and unloading it leave session and storage as they
    are. *)
Theorem no_snapshot_outside_game (s : Session) (now : Z) (hidden : bool) :
  gameStarted s && negb (gameOver s) = false →
  handle s (BeforeUnload now) = s ∧ handle s (VisibilityChange hidden now) = s ∧
  handle s (Unload now) = s.
Proof.
  intros Hidle. unfold handle, exec. cbn [step]. split_and!.
  - by rewrite saveCompleteGameState_idle.
  - unfold mbind, JS_bind, read.
    rewrite <- andb_assoc, Hidle, andb_false_r. done.
  - by rewrite saveCompleteGameState_idle.
Qed.

(** X12. On a page that was started by [initGame], in a game that is
    started and not finished, leaving the page stores the snapshot of the
    session together with the marker, and changes nothing else: after any
    events the board still has all its tiles, so the loop over the tiles
    does not throw. *)
Theorem snapshot_stored_in_game random loaded local session (events : list Event) (now : Z) :
  let s := run (boot random loaded local session) events in
  gameStarted s = true → gameOver s = false →
  handle s (BeforeUnload now)
  = with_localStorage
      (<[ACTIVE_GAME_KEY := "true"]>
         (<[GAME_STATE_KEY := JSON_stringify (snapshot now s)]> (localStorage s))) s ∧
  handle s (Unload now) = handle s (BeforeUnload now) ∧
  handle s (VisibilityChange true now) = handle s (BeforeUnload now) ∧
  handle s (VisibilityChange false now) = s.
Proof.
  intros s Hst Hov.
  assert (board_complete s) as Hb.
  { apply run_board_complete, boot_board_complete. }
  unfold handle, exec. cbn [step]. unfold mbind, JS_bind, read. rewrite Hst, Hov. cbn [andb negb].
  by rewrite saveCompleteGameState_started.
Qed.
End Terminal.

Lemma game_over_stays_witness :
  gameOver (example_run (example_run example_page (play_word CRANE))
              [Click "A"; TimerFired 0; BeforeUnload 7]) = true.
Proof.
  apply (game_over_stays codec_stringify stats_text false
           (example_run example_page (play_word CRANE))); [repeat constructor|].
  vm_compute. reflexivity.
Defined.

Lemma game_over_ignores_keys_witness :
  example_run (example_run example_page (play_word CRANE))
    [Click "A"; KeyDown "BODY" "F5" false false false; Click BACKSPACE]
  = example_run example_page (play_word CRANE).
Proof.
  apply (game_over_ignores_keys codec_stringify stats_text false
           (example_run example_page (play_word CRANE))); [repeat constructor|].
  vm_compute. reflexivity.
Defined.

Lemma target_fixed_in_game_witness :
  targetWord (example_run example_page (play_word SLATE)) = targetWord example_page.
Proof.
  apply (target_fixed_in_game codec_stringify stats_text false example_page (play_word SLATE)).
  repeat constructor.
Defined.

Lemma no_snapshot_outside_game_witness :
  example_handle example_page (BeforeUnload 7) = example_page ∧
  example_handle example_page (VisibilityChange true 7) = example_page ∧
  example_handle example_page (Unload 7) = example_page.
Proof.
  apply (no_snapshot_outside_game codec_stringify stats_text false example_page 7 true).
  vm_compute. reflexivity.
Defined.

Lemma snapshot_stored_in_game_witness :
  let s := example_run example_page (type_word SLATE) in
  example_handle s (BeforeUnload 7)
  = with_localStorage
      (<[ACTIVE_GAME_KEY := "true"]>
         (<[GAME_STATE_KEY := codec_stringify (snapshot 7 s)]> (localStorage s))) s ∧
  example_handle s (Unload 7) = example_handle s (BeforeUnload 7) ∧
  example_handle s (VisibilityChange true 7) = example_handle s (BeforeUnload 7) ∧
  example_handle s (VisibilityChange false 7) = s.
Proof.
  apply (snapshot_stored_in_game codec_parse codec_stringify stats_text false
           "sessionId_0_example" 0 DEFAULT_STATS ∅ ∅ (type_word SLATE) 7);
    vm_compute; reflexivity.
Defined.

Ltac storage_leaf :=
  unfold paired in *; fields;
  repeat match goal with
  | H : localStorage ?s' = _ |- _ => is_var s'; rewrite H in *; clear H
  end;
  fields;
  repeat first
    [ rewrite lookup_insert_eq | rewrite lookup_delete_eq
    | rewrite lookup_insert_ne by discriminate | rewrite lookup_delete_ne by discriminate ].

Section Pairing.
Context (JSON_parse : string → option gameState.t) (JSON_stringify : gameState.t → string)
  (JSON_stringify_stats : Stats → string) (saveStatsToSupabase_defined : bool)
  (SESSION_ID : string).

#[local] Abbreviation step := (step JSON_stringify JSON_stringify_stats saveStatsToSupabase_defined).
#[local] Abbreviation handle := (handle JSON_stringify JSON_stringify_stats saveStatsToSupabase_defined).
#[local] Abbreviation run := (run JSON_stringify JSON_stringify_stats saveStatsToSupabase_defined).
#[local] Abbreviation boot := (boot JSON_parse SESSION_ID).

Lemma step_paired e : keeps (λ s, paired (localStorage s)) (step e).
Proof.
  intros s Hs. destruct e; unfold_game; wp_frame localStorage.
  all: frame_eqs; storage_leaf; eauto.
Qed.

Lemma boot_paired random loaded local session :
  truthy (session !! SESSION_KEY) = false ∨ paired local →
  paired (localStorage (boot random loaded local session)).
Proof.
  intros Hnew. unfold boot. wp_enter.
  unfold initGame, initSessionProtection, restoreGameState. wp_run.
  all: repeat first
    [ wp_board
    | lazymatch goal with
      | |- wp (forEach _ _) _ _ _ =>
          apply (wp_forEach_frame localStorage);
          [intros ? ?; wp_run; fields; reflexivity | intros ? ? | intros ? ?]
      end
    | progress wp_run ].
  all: fields; try wp_false.
  all: try (destruct Hnew as [Hnew|Hnew]; [rewrite Hnew in *; discriminate | exact Hnew]).
  all: storage_leaf; eauto.
  all: wp_pure; right; split; [|done].
  all: destruct (local !! GAME_STATE_KEY); [eauto | discriminate].
Qed.

(** X13. Snapshot and marker are written together and removed together.
    On a page opened in a new tab, or on storage that holds both or
    neither, they stay paired whatever happens: both absent, or the
    snapshot present and the marker ["true"]. *)
Theorem snapshot_and_marker_paired random loaded local session (events : list Event) :
  truthy (session !! SESSION_KEY) = false ∨ paired local →
  paired (localStorage (run (boot random loaded local session) events)).
Proof.
  intros Hnew. induction events as [|e events IH] using rev_ind.
  - by apply boot_paired.
  - rewrite run_snoc. revert IH. generalize (run (boot random loaded local session) events).
    intros s1 IH. wp_enter. by apply step_paired.
Qed.
End Pairing.

Lemma snapshot_and_marker_paired_witness :
  paired (localStorage
            (example_run (boot codec_parse "sessionId_0_example" 0 DEFAULT_STATS
                            example_storage ∅)
               (type_word SLATE ++ [BeforeUnload 7]))).
Proof.
  apply (snapshot_and_marker_paired codec_parse codec_stringify stats_text false
           "sessionId_0_example" 0 DEFAULT_STATS example_storage ∅).
  left. reflexivity.
Defined.

(** * Pending work *)

Lemma score_length guess target : length (score guess target) = Z.to_nat WORD_LENGTH.
Proof.
  unfold score.
  assert (∀ (f : list LetterStatus * list entry → nat → list LetterStatus * list entry) l acc,
            (∀ a i, length (f a i).1 = length a.1) →
            length (foldl f acc l).1 = length acc.1) as Hfold.
  { intros f l. induction l as [|i l IH]; intros acc Hf; [done|].
    simpl. rewrite IH by done. apply Hf. }
  rewrite !Hfold.
  - cbn [fst]. by rewrite length_replicate.
  - intros [ls ta] i. unfold first_pass. case_bool_decide; simpl; by rewrite ?length_insert.
  - intros [ls ta] i. unfold second_pass. case_bool_decide; [done|].
    destruct (indexOf _ _); simpl; by rewrite ?length_insert.
Qed.

Lemma split_lookup guess i :
  (i < String.length guess)%nat → ∃ c, split guess !! i = Some (Letter c).
Proof.
  intros Hi. unfold split. rewrite list_lookup_fmap.
  destruct (lookup_lt_is_Some_2 (list_ascii_of_string guess) i) as [c Hc].
  { by rewrite length_list_ascii_of_string. }
  exists c. by rewrite Hc.
Qed.

Lemma timer_ok_RevealTile guess target i :
  String.length guess = Z.to_nat WORD_LENGTH → (i < Z.to_nat WORD_LENGTH)%nat →
  timer_ok (RevealTile i (split guess) (score guess target)).
Proof.
  intros Hg Hi. split.
  - apply split_lookup. by rewrite Hg.
  - apply lookup_lt_is_Some_2. by rewrite score_length.
Qed.

Ltac pending_leaf :=
  unfold pending_ok in *; fields;
  repeat match goal with
  | H : (_, _) = (_, _) |- _ => injection H as ? ?
  | H : _ ∧ _ |- _ => destruct H
  | H : validating ?s' = _ |- _ => is_var s'; rewrite H in *; clear H
  | H : timers ?s' = _ |- _ => is_var s'; rewrite H in *; clear H
  end;
  fields; rewrite ?Forall_app;
  repeat split; eauto using Forall_delete, Forall_nil_2, Forall_cons_2;
  try (apply Forall_singleton; exact I).

Lemma handleKeyPress_pending_ok key : keeps pending_ok (handleKeyPress key).
Proof.
  intros s Hs.
  unfold handleKeyPress, submitGuess, deleteLetter, addLetter. wp_run; try done.
  all: try (apply wp_collect_tile_get; [intros r|]; wp_run).
  all: try done.
  all: pending_leaf.
  all: try (apply Forall_singleton; done).
  apply Forall_singleton.
  match goal with H : _ || _ = false |- _ => apply orb_false_iff in H as [Hlen _] end.
  apply bool_decide_eq_false_1 in Hlen.
  by destruct (decide (String.length (foldl append "" r) = Z.to_nat WORD_LENGTH)).
Qed.

Lemma processGuess_pending_ok guess s :
  String.length guess = Z.to_nat WORD_LENGTH → pending_ok s →
  wp (processGuess guess) (λ _, pending_ok) (λ _, False) s.
Proof.
  intros Hg Hs. unfold processGuess. wp_run.
  change positions with [0; 1; 2; 3; 4]%nat. cbn [forEach]. wp_run.
  pending_leaf.
  all: try (apply Forall_singleton).
  all: try (apply timer_ok_RevealTile; [done | vm_compute; lia]).
  all: try done.
Qed.

Section Pending.
Context (JSON_stringify : gameState.t → string) (JSON_stringify_stats : Stats → string)
  (saveStatsToSupabase_defined : bool).

#[local] Abbreviation step := (step JSON_stringify JSON_stringify_stats saveStatsToSupabase_defined).
#[local] Abbreviation handle := (handle JSON_stringify JSON_stringify_stats saveStatsToSupabase_defined).
#[local] Abbreviation run := (run JSON_stringify JSON_stringify_stats saveStatsToSupabase_defined).

Lemma step_pending_ok e : keeps pending_ok (step e).
Proof.
  intros s Hs. destruct e; unfold_game.
  all: repeat first
    [ lazymatch goal with
      | |- wp (handleKeyPress _) _ _ _ =>
          eapply wp_mono; [by apply handleKeyPress_pending_ok | intros ? ? ? | intros ? ?];
          cbn beta in *
      | |- wp (processGuess _) _ _ _ =>
          eapply wp_mono; [apply processGuess_pending_ok | intros ? ? ? | intros ? ?];
          cbn beta in *
      | |- wp (forEach _ _) _ _ _ =>
          apply (wp_forEach_frame (λ s, (validating s, timers s)));
          [intros ? ?; wp_run; done | intros ? ? | intros ? ?]
      | |- wp (collect _ _) _ _ _ =>
          apply (wp_collect_frame (λ s, (validating s, timers s)));
          [intros ? ?; wp_run; done | intros ? ? ? | intros ? ?]
      | |- wp (updateKeyColor _ _) _ _ _ =>
          eapply wp_mono; [apply updateKeyColor_only_keys | intros ? ? [? ->] | intros ? []];
          cbn beta in *
      end
    | progress wp_run ].
  all: try done.
  all: try (destruct Hs as [Hv _]; eapply (Forall_lookup_1 _ _ _ _ Hv); eassumption).
  all: pending_leaf.
Qed.

Lemma run_pending_ok s events : pending_ok s → pending_ok (run s events).
Proof.
  intros Hs. induction events as [|e events IH] using rev_ind; [done|].
  rewrite run_snoc. revert IH. generalize (run s events). intros s1 IH.
  wp_enter. by apply step_pending_ok.
Qed.

(** X14. Only texts of exactly [WORD_LENGTH] characters reach the word
    check and the result check: [submitGuess] hands over nothing else, and
    the handlers pass on what they were given. *)
Theorem guesses_have_word_length (s : Session) (events : list Event) (guess : string) :
  pending_ok s →
  guess ∈ validating (run s events) ∨ CheckResult guess ∈ timers (run s events) →
  String.length guess = Z.to_nat WORD_LENGTH.
Proof.
  intros Hs Hin. destruct (run_pending_ok s events Hs) as [Hv Ht].
  rewrite Forall_forall in Hv. rewrite Forall_forall in Ht. destruct Hin as [Hin|Hin]; [by apply Hv|].
  by apply (Ht _ Hin).
Qed.

(** X15. Every scheduled reveal is well formed: the class it adds to its
    tile is one of correct, present and absent, never the text of a missing
    status, and the key it colours is named by one letter of the guess. *)
Theorem reveals_well_formed (s : Session) (events : list Event) (n i : nat)
    (guessArray : list entry) (letterStatus : list LetterStatus) :
  pending_ok s →
  timers (run s events) !! n = Some (RevealTile i guessArray letterStatus) →
  status_class (letterStatus !! i) ∈ ["correct"; "present"; "absent"] ∧
  ∃ c, entry_name (array_get guessArray i) = String c "".
Proof.
  intros Hs Hn. destruct (run_pending_ok s events Hs) as [_ Ht].
  destruct (Forall_lookup_1 _ _ _ _ Ht Hn) as [[c Hc] [status Hst]]. split.
  - rewrite Hst. destruct status; simpl; set_solver.
  - exists c. unfold array_get. by rewrite Hc.
Qed.
End Pending.

Lemma example_page_pending_ok : pending_ok example_page.
Proof. split; vm_compute; constructor. Qed.

Lemma guesses_have_word_length_witness :
  String.length "SLATE" = Z.to_nat WORD_LENGTH.
Proof.
  apply (guesses_have_word_length codec_stringify stats_text false example_page
           (type_word SLATE ++ [Click "ENTER"]) "SLATE" example_page_pending_ok).
  left. vm_compute. apply list_elem_of_here.
Defined.

Lemma reveals_well_formed_witness :
  status_class (score "SLATE" "CRANE" !! 2%nat) ∈ ["correct"; "present"; "absent"] ∧
  ∃ c, entry_name (array_get (split "SLATE") 2) = String c "".
Proof.
  apply (reveals_well_formed codec_stringify stats_text false example_page
           (type_word SLATE ++ [Click "ENTER"; WordChecked 0 true]) 2 2
           (split "SLATE") (score "SLATE" "CRANE") example_page_pending_ok).
  vm_compute. reflexivity.
Defined.

(** * Rows *)

Ltac rows_leaf :=
  fields;
  repeat match goal with
  | H : (_, _) = (_, _) |- _ => injection H as ? ?
  | H : currentRow ?s' = _ |- _ => is_var s'; rewrite H in *; clear H
  | H : tiles ?s' = _ |- _ => is_var s'; rewrite H in *; clear H
  end;
  fields;
  split; [lia|]; intros ? ? ?;
  rewrite ?lookup_insert_ne by congruence; try done.

Lemma handleKeyPress_rows key s :
  let kept s' :=
    currentRow s ≤ currentRow s' ∧
    ∀ i j, i ≠ currentRow s → tiles s' !! (i, j) = tiles s !! (i, j) in
  wp (handleKeyPress key) (λ _, kept) kept s.
Proof.
  intros kept. subst kept. cbn beta.
  unfold handleKeyPress, submitGuess, deleteLetter, addLetter. wp_run; try done.
  all: try (apply wp_collect_tile_get; [intros r|]; wp_run).
  all: rows_leaf.
Qed.

Section Rows.
Context (JSON_stringify : gameState.t → string) (JSON_stringify_stats : Stats → string)
  (saveStatsToSupabase_defined : bool).

#[local] Abbreviation step := (step JSON_stringify JSON_stringify_stats saveStatsToSupabase_defined).
#[local] Abbreviation handle := (handle JSON_stringify JSON_stringify_stats saveStatsToSupabase_defined).
#[local] Abbreviation run := (run JSON_stringify JSON_stringify_stats saveStatsToSupabase_defined).

Lemma step_rows e s :
  is_NewGame e = false →
  let kept s' :=
    currentRow s ≤ currentRow s' ∧
    ∀ i j, i ≠ currentRow s → tiles s' !! (i, j) = tiles s !! (i, j) in
  wp (step e) (λ _, kept) kept s.
Proof.
  intros He kept. subst kept. cbn beta. destruct e; try done; unfold_game.
  all: repeat first
    [ lazymatch goal with
      | |- wp (handleKeyPress _) _ _ _ =>
          eapply wp_mono; [by apply handleKeyPress_rows | intros ? ? ? | intros ? ?];
          cbn beta in *
      | |- wp (processGuess _) _ _ _ =>
          eapply wp_mono; [apply processGuess_only_timers | intros ? ? [? ->] | intros ? []];
          cbn beta in *
      | |- wp (collect _ _) _ _ _ =>
          apply (wp_collect_frame (λ s, (currentRow s, tiles s)));
          [intros ? ?; wp_run; done | intros ? ? ? | intros ? ?]
      | |- wp (updateKeyColor _ _) _ _ _ =>
          eapply wp_mono; [apply updateKeyColor_only_keys | intros ? ? [? ->] | intros ? []];
          cbn beta in *
      end
    | progress wp_run ].
  all: try done.
  all: rows_leaf.
Qed.

(** X16. Within a game the row never goes back, and the rows above the
    current one are frozen: no key, answer, timer or page event changes the
    text or the classes of a tile in a row that was already submitted. *)
Theorem submitted_rows_frozen (s : Session) (events : list Event) (i j : Z) :
  Forall (λ e, is_NewGame e = false) events →
  i < currentRow s →
  currentRow s ≤ currentRow (run s events) ∧
  tiles (run s events) !! (i, j) = tiles s !! (i, j).
Proof.
  intros Hev Hi. induction events as [|e events IH] using rev_ind; [done|].
  apply Forall_app in Hev as [Hev He]. apply Forall_inv in He.
  rewrite run_snoc. specialize (IH Hev). revert IH. generalize (run s events).
  intros s1 [Hrow Htile]. wp_enter.
  eapply wp_mono; [by apply step_rows|..]; cbn beta.
  all: intros; destruct_and!; split; [lia|].
  all: rewrite <- Htile; auto with lia.
Qed.
End Rows.

Lemma submitted_rows_frozen_witness :
  let s := example_run example_page (play_word SLATE) in
  currentRow s ≤ currentRow (example_run s (play_word SLATE)) ∧
  tiles (example_run s (play_word SLATE)) !! (0, 3) = tiles s !! (0, 3).
Proof.
  apply (submitted_rows_frozen codec_stringify stats_text false
           (example_run example_page (play_word SLATE)) (play_word SLATE) 0 3).
  - repeat constructor.
  - vm_compute. reflexivity.
Defined.

(** * Key colours *)

(** X17. A key keeps the best colour it was given.  A key without colour,
    or with one of the three, that is coloured again holds afterwards
    exactly one colour: the better of the old and the new one. *)
Theorem updateKeyColor_keeps_best (letter status : string) (cl : list string) (s : Session) :
  keys s !! letter = Some cl →
  cl = ["key"] ∨ (∃ old, old ∈ ["correct"; "present"; "absent"] ∧ cl = ["key"; old]) →
  status ∈ ["correct"; "present"; "absent"] →
  ∃ best, keys (exec (updateKeyColor letter status) s) !! letter = Some ["key"; best] ∧
          status_rank best = (key_rank cl `max` status_rank status)%nat.
Proof.
  intros Hk Hcl Hst.
  assert (∃ best, wp (updateKeyColor letter status)
            (λ _ s', keys s' !! letter = Some ["key"; best]) (λ _, False) s ∧
            status_rank best = (key_rank cl `max` status_rank status)%nat)
    as (best & Hwp & Hrank).
  2:{ exists best. split; [|done]. by wp_enter_normal. }
  unfold updateKeyColor.
  repeat (apply elem_of_cons in Hst as [->|Hst]); [..|by apply elem_of_nil in Hst].
  all: destruct Hcl as [->|(old & Hold & ->)];
    [|repeat (apply elem_of_cons in Hold as [->|Hold]); [..|by apply elem_of_nil in Hold]].
  all: match goal with
       | |- context [(key_rank ?l `max` status_rank ?st)%nat] =>
           let r := eval vm_compute in (key_rank l `max` status_rank st)%nat in
           match r with
           | 3%nat => exists "correct"
           | 2%nat => exists "present"
           | _ => exists "absent"
           end
       end.
  all: split; [|vm_compute; reflexivity].
  all: wp_run; wp_pure; simplify_eq/=; fields.
  all: try (rewrite lookup_insert_eq; f_equal; vm_compute; reflexivity).
  all: try (destruct_and?; discriminate).
  all: try done.
  all: try (exfalso; match goal with H : ¬ _ |- _ => apply H; done end).
Qed.

Lemma updateKeyColor_correct_kept k cl letter status s :
  keys s !! k = Some cl → cl !! 1%nat = Some "correct" →
  wp (updateKeyColor letter status)
    (λ _ s', keys s' !! k = Some cl ∧ ∃ ks, s' = with_keys ks s) (λ _, False) s.
Proof.
  intros Hk Hcl. unfold updateKeyColor. wp_run; wp_pure.
  all: try (split; [done|]; exists (keys s); by destruct s).
  split; [|by eexists]. fields.
  rewrite lookup_insert_ne; [done|]. intros ->. congruence.
Qed.

Section KeyColours.
Context (JSON_stringify : gameState.t → string) (JSON_stringify_stats : Stats → string)
  (saveStatsToSupabase_defined : bool).

#[local] Abbreviation step := (step JSON_stringify JSON_stringify_stats saveStatsToSupabase_defined).
#[local] Abbreviation handle := (handle JSON_stringify JSON_stringify_stats saveStatsToSupabase_defined).
#[local] Abbreviation run := (run JSON_stringify JSON_stringify_stats saveStatsToSupabase_defined).

Lemma step_correct_key e k cl :
  is_NewGame e = false → cl !! 1%nat = Some "correct" →
  keeps (λ s, keys s !! k = Some cl) (step e).
Proof.
  intros He Hcl s Hs. destruct e; try done; unfold_game.
  all: repeat first
    [ lazymatch goal with
      | |- wp (updateKeyColor _ _) _ _ _ =>
          eapply wp_mono;
          [by apply (updateKeyColor_correct_kept k cl)
          | intros ? ? [? [? ->]] | intros ? []];
          cbn beta in *
      end
    | wp_frame_step keys | wp_typing_step | wp_guess_step
    | progress wp_run ].
  all: frame_eqs; fields; congruence.
Qed.

(** X18. A key that has turned green stays green for the rest of the
    game: no later reveal and no other event changes its classes. *)
Theorem correct_key_stays (s : Session) (events : list Event) (k : string)
    (cl : list string) :
  Forall (λ e, is_NewGame e = false) events →
  keys s !! k = Some cl → cl !! 1%nat = Some "correct" →
  keys (run s events) !! k = Some cl.
Proof.
  intros Hev Hk Hcl. induction events as [|e events IH] using rev_ind; [done|].
  apply Forall_app in Hev as [Hev He]. apply Forall_inv in He.
  rewrite run_snoc. specialize (IH Hev). revert IH. generalize (run s events).
  intros s1 IH. wp_enter. by apply step_correct_key.
Qed.
End KeyColours.

Lemma updateKeyColor_keeps_best_witness :
  ∃ best, keys (exec (updateKeyColor "A" "present") example_page) !! "A"
          = Some ["key"; best] ∧
          status_rank best = (key_rank ["key"] `max` status_rank "present")%nat.
Proof.
  apply (updateKeyColor_keeps_best "A" "present" ["key"] example_page).
  - vm_compute. reflexivity.
  - left. reflexivity.
  - apply elem_of_cons. right. apply list_elem_of_here.
Defined.

Lemma correct_key_stays_witness :
  let s := example_run example_page (play_word ["C"; "A"; "R"; "G"; "O"]) in
  keys (example_run s (play_word SLATE)) !! "C" = Some ["key"; "correct"].
Proof.
  apply (correct_key_stays codec_stringify stats_text false
           (example_run example_page (play_word ["C"; "A"; "R"; "G"; "O"]))
           (play_word SLATE) "C" ["key"; "correct"]).
  - repeat constructor.
  - vm_compute. reflexivity.
  - reflexivity.
Defined.

(** * Typing *)

Lemma classList_remove_add c cl : c ∉ cl → classList_remove c (classList_add c cl) = cl.
Proof.
  intros Hc. unfold classList_remove, classList_add. rewrite decide_False by done.
  rewrite filter_app, filter_cons_False, filter_nil, app_nil_r by naive_solver.
  induction cl as [|x cl IH]; [done|].
  apply not_elem_of_cons in Hc as [Hx Hc].
  rewrite filter_cons_True by done. by rewrite IH.
Qed.

(** X19. Backspace undoes a letter: on a free tile, blank and not marked
    filled, adding a letter and deleting it gives back the session, but for
    [gameStarted], which the first letter of the first row has set. *)
Theorem addLetter_deleteLetter (letter : string) (s : Session) (t : Tile) :
  0 ≤ currentTile s < WORD_LENGTH →
  tiles s !! (currentRow s, currentTile s) = Some t →
  textContent t = "" → "filled" ∉ className t →
  exec deleteLetter (exec (addLetter letter) s)
  = if bool_decide (currentTile s = 0 ∧ currentRow s = 0) then with_gameStarted true s else s.
Proof.
  intros Hcur Ht Htext Hclass.
  pattern (exec (addLetter letter) s). apply wp_exec_normal.
  unfold addLetter. wp_run; wp_pure; fields; try lia; try congruence.
  all: rewrite lookup_insert_eq in *; simplify_eq.
  all: match goal with
       | |- exec deleteLetter ?s1 = _ => pattern (exec deleteLetter s1); apply wp_exec_normal
       end.
  all: unfold deleteLetter; wp_run; wp_pure; fields; try lia.
  all: repeat match goal with
       | H : <[?i := _]> _ !! ?j = _ |- _ =>
           replace j with i in H by (f_equal; lia); rewrite lookup_insert_eq in H
       | H : _ !! _ = None |- _ => discriminate H
       end; simplify_eq.
  all: replace (currentTile s + 1 - 1) with (currentTile s) by lia.
  all: rewrite !insert_insert_eq.
  all: unfold set_className, set_textContent; cbn [className textContent].
  all: rewrite classList_remove_add by done.
  all: rewrite <- Htext.
  all: replace {| textContent := textContent t; className := className t |} with t
         by (by destruct t).
  all: rewrite (insert_id (tiles s)) by done.
  all: try rewrite bool_decide_eq_true_2 by done.
  all: try rewrite bool_decide_eq_false_2 by done.
  all: by destruct s.
Qed.

Lemma addLetter_deleteLetter_witness :
  exec deleteLetter (exec (addLetter "Q") example_page)
  = if bool_decide (currentTile example_page = 0 ∧ currentRow example_page = 0)
    then with_gameStarted true example_page else example_page.
Proof.
  apply (addLetter_deleteLetter "Q" example_page blank_tile).
  - vm_compute. split; [discriminate | reflexivity].
  - vm_compute. reflexivity.
  - reflexivity.
  - intros H. cbn in H. apply elem_of_cons in H as [H|H]; [discriminate H|].
    by apply elem_of_nil in H.
Defined.


Lemma wp_exec_eq {A} (m : JS A) s :
  wp m (λ _ s', s' = exec m s) (λ s', s' = exec m s) s.
Proof. unfold wp, exec. by destruct (m s) as [[a|] s']. Qed.

Lemma handleKeyPress_dead key s :
  gameOver s = true ∨ inputEnabled s = false → exec (handleKeyPress key) s = s.
Proof.
  intros Hdead. apply (wp_exec _ (λ s', s' = s)). unfold handleKeyPress.
  wp_run; try done.
  all: destruct Hdead as [Hdead|Hdead]; rewrite Hdead in *; discriminate.
Qed.

(** X20. The keyboard is another way to press the keys of the screen.
    In the typing listener, outside input fields, Enter acts as the ENTER
    key, Backspace as the erase key and a letter as the key of its
    upper-case form; every other key, and every key pressed in an input
    field, does nothing there.  The listener's own checks of [gameOver], [inputEnabled] and [isValidating] add nothing
    to those of [handleKeyPress]. *)
Theorem keyboard_as_screen (tagName key : string) (s : Session) :
  exec (onKeyDown tagName key) s
  = if String.eqb tagName "INPUT" || String.eqb tagName "TEXTAREA" then s
    else if String.eqb key "Enter" then exec (handleKeyPress "ENTER") s
    else if String.eqb key "Backspace" then exec (handleKeyPress BACKSPACE) s
    else if is_letter_key key then exec (handleKeyPress (toUpperCase key)) s
    else s.
Proof.
  pattern (exec (onKeyDown tagName key) s) at 1. apply wp_exec.
  unfold onKeyDown. wp_run.
  all: wp_pure.
  all: rewrite ?(handleKeyPress_dead _ s) by auto.
  all: try (by repeat case_match).
  all: try apply wp_exec_eq.
  all: repeat match goal with H : String.eqb _ _ = _ |- _ => rewrite H; clear H end.
  all: by rewrite handleKeyPress_ENTER_shut.
Qed.

(** X21. A letter typed on the keyboard is entered as a key of the screen:
    its upper-case form is one capital letter, and the keyboard layout has
    a key for it. *)
Theorem keyboard_letters_on_screen (key : string) :
  is_letter_key key = true →
  toUpperCase key ∈ KEYBOARD_LAYOUT ∧
  ∃ c, toUpperCase key = String c "" ∧ is_upper c = true.
Proof.
  destruct key as [|c [|]]; try discriminate. intros Hc.
  assert (bool_decide (toUpperCase (String c "") ∈ KEYBOARD_LAYOUT) = true ∧
          match toUpperCase (String c "") with
          | String c' EmptyString => is_upper c'
          | _ => false
          end = true) as [Hin Hup].
  { revert Hc. destruct c as [[] [] [] [] [] [] [] []]; vm_compute; auto; discriminate. }
  split; [by apply bool_decide_eq_true_1 in Hin|].
  destruct (toUpperCase (String c "")) as [|c' [|]]; try discriminate. by exists c'.
Qed.

Lemma keyboard_letters_on_screen_witness :
  toUpperCase "q" ∈ KEYBOARD_LAYOUT ∧ ∃ c, toUpperCase "q" = String c "" ∧ is_upper c = true.
Proof. apply (keyboard_letters_on_screen "q"). reflexivity. Defined.

(** * Turns of a game *)

(** Equality of two sessions built from [s] by assignments. *)
Ltac session_eq s :=
  destruct s;
  cbv [targetWord currentRow currentTile gameOver stats isValidating inputEnabled gameStarted tiles keys message modal localStorage sessionStorage validating timers saving
       with_targetWord with_currentRow with_currentTile with_gameOver with_stats with_isValidating with_inputEnabled with_gameStarted with_tiles
       with_keys with_message with_modal with_localStorage with_sessionStorage with_validating with_timers with_saving];
  reflexivity.

Lemma delete_length_snoc {A} (l : list A) x : delete (length l) (l ++ [x]) = l.
Proof. induction l as [|y l IH]; simpl; [done|]. by rewrite IH. Qed.

Section Turns.
Context (JSON_stringify : gameState.t → string) (JSON_stringify_stats : Stats → string).

#[local] Abbreviation step b := (step JSON_stringify JSON_stringify_stats b).
#[local] Abbreviation handle b := (handle JSON_stringify JSON_stringify_stats b).

(** X22. A wrong guess before the last attempt moves the game to the start
    of the next row and reopens the gate; statistics, tiles, storage and
    everything else stay as they are. *)
Theorem wrong_guess_next_row (cloud : bool) (s : Session) (n : nat) (guess : string) :
  timers s !! n = Some (CheckResult guess) →
  guess ≠ targetWord s →
  currentRow s ≠ MAX_ATTEMPTS - 1 →
  handle cloud s (TimerFired n)
  = with_isValidating false
      (with_currentTile 0
         (with_currentRow (currentRow s + 1) (with_timers (delete n (timers s)) s))).
Proof.
  intros Hn Hne Hrow. wp_enter_normal.
  unfold step, run_timer, checkGameResult. wp_run; simplify_eq; fields; wp_pure; try done.
  all: apply String.eqb_eq in Hb; done.
Qed.

(** X23. ENTER on a row that is not full only shows a message: nothing is
    handed to the word check, the gate stays open, and the cursor and the
    tiles stay as they are. *)
Theorem enter_on_short_row (cloud : bool) (s : Session) :
  gameOver s = false → inputEnabled s = true → isValidating s = false →
  currentTile s < WORD_LENGTH →
  handle cloud s (Click "ENTER")
  = with_timers (timers s ++ [HideMessage]) (with_message ("Not enough letters", true) s).
Proof.
  intros Hover Hen Hv Ht. wp_enter_normal.
  unfold step, handleKeyPress, submitGuess. wp_run; fields; wp_pure; try wp_absurd.
  all: try congruence; try lia; try done.
Qed.

(** X24. The cloud save only delays the end of a game.  With the cloud
    script the call that ends the game is suspended at the save; once the
    save is answered, the session is the one that the page without the
    cloud script reaches at once. *)
Theorem cloud_save_only_delays (s : Session) (n : nat) (guess : string) :
  timers s !! n = Some (CheckResult guess) →
  handle true (handle true s (TimerFired n)) (StatsSaved (length (saving s)))
  = handle false s (TimerFired n).
Proof.
  intros Hn. unfold handle.
  pattern (exec (step false (TimerFired n)) s). apply wp_exec_normal.
  unfold step at 1. unfold run_timer, checkGameResult, endGameWon, endGameLost,
    await_saveStats, endGame_resume.
  wp_run; simplify_eq; fields.
  all: match goal with
       | |- context [exec (step true (TimerFired ?m)) ?s0] =>
           pattern (exec (step true (TimerFired m)) s0); apply wp_exec_normal
       end.
  all: unfold step at 1; unfold run_timer, checkGameResult, endGameWon, endGameLost,
         await_saveStats, endGame_resume.
  all: wp_run; simplify_eq; fields; try congruence.
  all: wp_enter_normal; unfold step, endGame_resume; wp_run; fields.
  all: repeat match goal with
       | H : (?l ++ [_]) !! length ?l = _ |- _ =>
           rewrite lookup_app_r, Nat.sub_diag in H by lia; cbn [lookup list_lookup] in H
       | H : ?l !! length ?l = Some _ |- _ => apply lookup_lt_Some in H; lia
       end; simplify_eq.
  all: rewrite ?delete_length_snoc.
  all: repeat match goal with
       | |- context [with_stats ?st _] =>
           lazymatch st with _ _ => generalize st; intro end
       end.
  all: session_eq s.
Qed.
End Turns.

Lemma wrong_guess_next_row_witness :
  let s := example_run example_page
             (type_word SLATE ++ [Click "ENTER"; WordChecked 0 true]
              ++ replicate 5 (TimerFired 0)) in
  example_handle s (TimerFired 0)
  = with_isValidating false
      (with_currentTile 0
         (with_currentRow (currentRow s + 1) (with_timers (delete 0%nat (timers s)) s))).
Proof.
  apply (wrong_guess_next_row codec_stringify stats_text false _ 0 "SLATE").
  - vm_compute. reflexivity.
  - vm_compute. discriminate.
  - vm_compute. discriminate.
Defined.

Lemma enter_on_short_row_witness :
  example_handle example_page (Click "ENTER")
  = with_timers (timers example_page ++ [HideMessage])
      (with_message ("Not enough letters", true) example_page).
Proof.
  apply (enter_on_short_row codec_stringify stats_text false example_page);
    vm_compute; reflexivity.
Defined.

Lemma cloud_save_only_delays_witness :
  let s := example_run example_page
             (type_word CRANE ++ [Click "ENTER"; WordChecked 0 true]
              ++ replicate 5 (TimerFired 0)) in
  handle codec_stringify stats_text true
    (handle codec_stringify stats_text true s (TimerFired 0))
    (StatsSaved (length (saving s)))
  = handle codec_stringify stats_text false s (TimerFired 0).
Proof.
  apply (cloud_save_only_delays codec_stringify stats_text _ 0 "CRANE").
  vm_compute. reflexivity.
Defined.

(** * A new game *)

Lemma wp_clear_tiles (ids : list (Z * Z)) (Q : unit → Session → Prop) E s :
  (∀ id, id ∈ ids → is_Some (tiles s !! id)) →
  (∀ m, (∀ id, id ∈ ids → m !! id = Some blank_tile) →
        (∀ id, id ∉ ids → m !! id = tiles s !! id) → Q () (with_tiles m s)) →
  wp (forEach ids (λ id,
        tile_update id (set_textContent "") ;;
        tile_update id (set_className ["tile"]))) Q E s.
Proof.
  revert s Q. induction ids as [|id ids IH]; intros s Q Hs HQ; simpl.
  - apply wp_skip. replace s with (with_tiles (tiles s) s) by by destruct s.
    apply HQ; [|done]. intros id Hin. by apply elem_of_nil in Hin.
  - destruct (Hs id) as [t Ht]; [apply list_elem_of_here|].
    wp_run; fields; try congruence.
    2:{ rewrite lookup_insert_eq in *. congruence. }
    rewrite lookup_insert_eq in *. simplify_eq. rewrite insert_insert_eq.
    apply IH.
    + intros id' Hid'. fields. apply lookup_insert_is_Some'. right. apply Hs.
      by apply list_elem_of_further.
    + intros m Hin Hout. fields.
      replace (with_tiles m _) with (with_tiles m s) by done.
      apply HQ.
      * intros id' [->|Hid']%elem_of_cons; [|by apply Hin].
        destruct (decide (id ∈ ids)); [by apply Hin|].
        rewrite Hout by done. by rewrite lookup_insert_eq.
      * intros id' Hid'. apply not_elem_of_cons in Hid' as [Hne Hid'].
        rewrite Hout by done. by rewrite lookup_insert_ne.
Qed.

Lemma wp_clear_keys (l : list string) (Q : unit → Session → Prop) E s :
  (∀ k', (∀ key, k' !! key =
                 if bool_decide (key ∈ l ∧ is_Some (keys s !! key))
                 then Some (key_className key) else keys s !! key) →
         Q () (with_keys k' s)) →
  wp (forEach l (λ key,
        keyboard ← read keys;
        match keyboard !! key with
        | Some _ => assign with_keys (<[key := key_className key]> keyboard)
        | None => skip
        end)) Q E s.
Proof.
  revert s Q. induction l as [|key l IH]; intros s Q HQ; simpl.
  - apply wp_skip. replace s with (with_keys (keys s) s) by by destruct s.
    apply HQ. intros key. rewrite bool_decide_eq_false_2; [done|].
    intros [Hin _]. by apply elem_of_nil in Hin.
  - wp_run.
    + apply IH. intros k' Hk'.
      replace (with_keys k' _) with (with_keys k' s) by done.
      apply HQ. intros key'. rewrite Hk'. fields.
      destruct (decide (key' = key)) as [->|Hne].
      * rewrite lookup_insert_eq.
        rewrite (bool_decide_eq_true_2 (_ ∈ key :: l ∧ _))
          by (split; [apply list_elem_of_here | eauto]).
        by case_bool_decide.
      * rewrite lookup_insert_ne by done.
        apply bool_decide_ext_if. rewrite elem_of_cons. naive_solver.
    + apply IH. intros k' Hk'. apply HQ. intros key'. rewrite Hk'.
      destruct (decide (key' = key)) as [->|Hne].
      * rewrite Hb. rewrite !bool_decide_eq_false_2; [done|..]; intros [_ []]; done.
      * apply bool_decide_ext_if. rewrite elem_of_cons. naive_solver.
Qed.

Section NewGames.
Context (JSON_stringify : gameState.t → string) (JSON_stringify_stats : Stats → string)
  (saveStatsToSupabase_defined : bool).

#[local] Abbreviation step := (step JSON_stringify JSON_stringify_stats saveStatsToSupabase_defined).
#[local] Abbreviation handle := (handle JSON_stringify JSON_stringify_stats saveStatsToSupabase_defined).
#[local] Abbreviation run := (run JSON_stringify JSON_stringify_stats saveStatsToSupabase_defined).

(** X25. A new game on a whole board starts from a clean slate: a word
    drawn anew, the first row and an open gate, every tile blank, every key
    of the layout without colour, snapshot and marker removed from storage,
    and the statistics as they were.  [random] is the value that
    [Math.random()] returns, a double in [0, 1). *)
Theorem new_game_clean_slate (s : Session) (random : Q) :
  in_unit_interval random →
  board_complete s →
  let s' := handle s (NewGame false random) in
  targetWord s' = random_word random ∧ currentRow s' = 0 ∧ currentTile s' = 0 ∧
  gameOver s' = false ∧ gameStarted s' = false ∧ isValidating s' = false ∧
  inputEnabled s' = true ∧ stats s' = stats s ∧
  (∀ id, id ∈ board_ids → tiles s' !! id = Some blank_tile) ∧
  (∀ key, key ∈ KEYBOARD_LAYOUT → is_Some (keys s !! key) →
          keys s' !! key = Some (key_className key)) ∧
  localStorage s' = delete ACTIVE_GAME_KEY (delete GAME_STATE_KEY (localStorage s)).
Proof.
  intros _ Hb s'. subst s'. wp_enter_normal.
  unfold step, resetToNewGame. wp_run; try wp_false.
  apply wp_clear_tiles; [done|]. intros m Hin _.
  apply wp_clear_keys. intros k' Hk'. fields. split_and!; try done.
  intros key Hkey Hsome. rewrite Hk'. by rewrite bool_decide_eq_true_2.
Qed.

(** X26. A new game cancels nothing: the guesses that wait for the word
    check, the scheduled reveals and result checks and the suspended ends of
    game are all still pending after the reset, and will act on the new
    game. *)
Theorem new_game_keeps_pending_work (s : Session) (skipBoardClear : bool) (random : Q) :
  let s' := handle s (NewGame skipBoardClear random) in
  validating s' = validating s ∧ timers s' = timers s ∧ saving s' = saving s.
Proof.
  cbn zeta. wp_enter. unfold step, resetToNewGame.
  wp_frame (λ s, (validating s, timers s, saving s)).
  all: repeat match goal with H : (_, _) = (_, _) |- _ => injection H as ? ? end.
  all: fields; split_and!; congruence.
Qed.
End NewGames.

Lemma new_game_clean_slate_witness :
  let s' := example_handle (example_run example_page (play_word CRANE)) (NewGame false (1 # 2)) in
  targetWord s' = random_word (1 # 2) ∧ currentRow s' = 0 ∧ currentTile s' = 0 ∧
  gameOver s' = false ∧ gameStarted s' = false ∧ isValidating s' = false ∧
  inputEnabled s' = true ∧ stats s' = stats (example_run example_page (play_word CRANE)) ∧
  (∀ id, id ∈ board_ids → tiles s' !! id = Some blank_tile) ∧
  (∀ key, key ∈ KEYBOARD_LAYOUT →
          is_Some (keys (example_run example_page (play_word CRANE)) !! key) →
          keys s' !! key = Some (key_className key)) ∧
  localStorage s'
  = delete ACTIVE_GAME_KEY
      (delete GAME_STATE_KEY (localStorage (example_run example_page (play_word CRANE)))).
Proof.
  apply (new_game_clean_slate codec_stringify stats_text false
           (example_run example_page (play_word CRANE)) (1 # 2)).
  - split_and!; [discriminate | reflexivity | vm_compute; reflexivity].
  - apply board_complete_check. vm_compute. reflexivity.
Defined.

(** * The start of a page *)

Section Starts.
Context (JSON_parse : string → option gameState.t) (SESSION_ID : string).

#[local] Abbreviation boot := (boot JSON_parse SESSION_ID).


End Starts.



(** * Round trip and draw *)

Lemma save_restore_roundtrip_witness :
  let s := example_run example_page (type_word SLATE) in
  let s' := with_localStorage
              (localStorage (exec (saveCompleteGameState codec_stringify 7) s))
              example_page in
  ∃ s'', restoreGameState codec_parse s' = (Normal true, s'') ∧
    targetWord s'' = targetWord s ∧ currentRow s'' = currentRow s ∧
    currentTile s'' = currentTile s ∧ gameOver s'' = gameOver s ∧
    ∀ id, id ∈ board_ids → tiles s'' !! id = tiles s !! id.
Proof.
  intros s s'.
  apply (save_restore_roundtrip codec_parse codec_stringify 7 s s'
           codec_parse_stringify codec_stringify_nonempty).
  - vm_compute; reflexivity.
  - vm_compute; reflexivity.
  - apply board_complete_check. vm_compute; reflexivity.
  - reflexivity.
  - apply board_complete_check. vm_compute; reflexivity.
Defined.

(** X29. Every word of the list can be drawn: for each one there is a
    double in [0, 1), a value that [Math.random()] may return, that selects
    it. *)
Theorem every_word_can_be_drawn (w : string) :
  w ∈ WORDS → ∃ random, in_unit_interval random ∧ random_word random = w.
Proof.
  intros Hw. apply list_elem_of_lookup in Hw as [i Hi].
  pose proof (lookup_lt_Some _ _ _ Hi) as Hlt.
  set (draw := λ i : nat, (Z.of_nat (i * 1024 / 40 + 1) # 1024)%Q).
  assert (forallb (λ i, Qle_bool 0 (draw i) && negb (Qle_bool 1 (draw i))
                        && is_double (draw i)
                        && (random_index (draw i) =? Z.of_nat i))
            (seq 0 (length WORDS)) = true) as Hall by (vm_compute; reflexivity).
  rewrite forallb_forall in Hall. specialize (Hall i).
  destruct (andb_prop _ _ (Hall ltac:(apply in_seq; lia))) as [H123 Hidx].
  destruct (andb_prop _ _ H123) as [H12 Hd].
  destruct (andb_prop _ _ H12) as [H0 H1].
  apply Qle_bool_iff in H0. apply negb_true_iff in H1. apply Z.eqb_eq in Hidx.
  exists (draw i). split; [split_and!|].
  - exact H0.
  - apply Qnot_le_lt. intros Hle. apply Qle_bool_iff in Hle. congruence.
  - exact Hd.
  - unfold random_word. rewrite Hidx, bool_decide_eq_true_2 by lia.
    rewrite Nat2Z.id, Hi. done.
Qed.

Lemma every_word_can_be_drawn_witness :
  ∃ random, in_unit_interval random ∧ random_word random = "SLATE".
Proof.
  apply (every_word_can_be_drawn "SLATE").
  apply (bool_decide_eq_true_1 ("SLATE" ∈ WORDS)). vm_compute. reflexivity.
Defined.
